(** * Sequential text-to-speech playback in the finance front-end

    A shallow embedding of the speech pipeline of the two React components
    that play synthesized speech, [InvestmentPredictor] (a queue of segments,
    second part of src/App.tsx) and [FinanceAdvisor] (one utterance), and of
    the service function [getTextToSpeechAudio] they call.

    JavaScript runs the handlers of one page on one thread, so every handler
    and every continuation after an [await] runs to its next suspension point
    without interleaving.  The embedding therefore is a transition system: a
    state holds the React state and refs of a component together with the
    suspended continuations and the audio nodes that exist, and an [event]
    is either a user action or the settlement of something awaited. *)

From stdpp Require Import base list strings.
From Stdlib Require Import ZArith Lia.
From Stdlib.Strings Require Import Byte.

Open Scope string_scope.

(** ** The audio side: utils/audio and the Web Audio objects *)

Module Audio.

(** The module [../utils/audio] the components import.  Its two functions
    are not part of the sources at hand, so they are a parameter of the
    whole development: [decode] turns the Base64 transport string into raw
    bytes and may throw, [decodeAudioData data sampleRate numChannels]
    resolves to a buffer or rejects (its context argument carries no
    information the pipeline reads back). *)
Class AudioUtils := {
  AudioBuffer : Type;
  decode : string -> option (list byte);
  decodeAudioData : list byte -> Z -> Z -> option AudioBuffer
}.

(** [AudioContext.state]. *)
Inductive AudioContextState := running | suspended | closed.

(** Life of an [AudioBufferSourceNode] after [start()]: it plays, then
    either ends by itself or is told to [stop()]; in both cases the
    browser dispatches its [ended] event afterwards. *)
Inductive playback := Playing | Ending | Ended.

Record AudioBufferSourceNode `{AudioUtils} := {
  buffer : AudioBuffer;
  onended : bool;            (* the handler is attached, or null *)
  playback_state : playback
}.

(** [source.stop()] *)
Definition stop `{AudioUtils} (n : AudioBufferSourceNode) : AudioBufferSourceNode :=
  {| buffer := buffer n;
     onended := onended n;
     playback_state := match playback_state n with
                       | Playing => Ending
                       | st => st
                       end |}.

(** [source.onended = null] *)
Definition detach `{AudioUtils} (n : AudioBufferSourceNode) : AudioBufferSourceNode :=
  {| buffer := buffer n; onended := false; playback_state := playback_state n |}.

(** The node after its [ended] event has been dispatched. *)
Definition finish `{AudioUtils} (n : AudioBufferSourceNode) : AudioBufferSourceNode :=
  {| buffer := buffer n; onended := onended n; playback_state := Ended |}.

Definition is_playing `{AudioUtils} (n : AudioBufferSourceNode) : bool :=
  match playback_state n with Playing => true | _ => false end.

(** Number of nodes that are producing sound. *)
Definition active `{AudioUtils} (l : list AudioBufferSourceNode) : nat :=
  length (List.filter is_playing l).

(** [audioContextRef.current.suspend()] under the guard the components
    put around it; the [state] attribute is taken to change with the call. *)
Definition suspend (c : option AudioContextState) : option AudioContextState :=
  match c with
  | Some closed => Some closed
  | Some _ => Some suspended
  | None => None
  end.

(** The first statement after the synthesis: reuse the context unless
    there is none or it is closed. *)
Definition acquire (c : option AudioContextState) : AudioContextState :=
  match c with
  | None => running
  | Some closed => running
  | Some st => st
  end.

(** Where an invocation of the playback routine is suspended. *)
Inductive continuation :=
| AwaitSynthesis (text : string)
| AwaitResume (audioData : string)
| AwaitDecode (decodedBytes : list byte).

(** What a component does that the outside can see, in order. *)
Inductive call :=
| Synthesize (text language : string)   (* getTextToSpeechAudio(text, language) *)
| Start (id : nat)                      (* source.start() *)
| Release (id : nat)                    (* source.stop(); source.disconnect() *)
| Finished (id : nat)                   (* a playing source reached its end *)
| Report (msg : string)                 (* setError(msg) *)
| Speaking (b : bool).                  (* isSpeaking changed to b *)

Fixpoint find_task (c : nat) (l : list (nat * continuation)) : option continuation :=
  match l with
  | [] => None
  | (c', k) :: l' => if Nat.eqb c c' then Some k else find_task c l'
  end.

Fixpoint drop_task (c : nat) (l : list (nat * continuation)) : list (nat * continuation) :=
  match l with
  | [] => []
  | (c', k) :: l' => if Nat.eqb c c' then drop_task c l' else (c', k) :: drop_task c l'
  end.

Definition put_task (c : nat) (k : continuation) (l : list (nat * continuation))
  : list (nat * continuation) :=
  drop_task c l ++ [(c, k)].

Definition synth_calls (t : list call) : list string :=
  omap (fun o => match o with Synthesize text _ => Some text | _ => None end) t.

Definition starts (t : list call) : list nat :=
  omap (fun o => match o with Start id => Some id | _ => None end) t.

Definition reports (t : list call) : list string :=
  omap (fun o => match o with Report m => Some m | _ => None end) t.

Definition finishes (t : list call) : list nat :=
  omap (fun o => match o with Finished id => Some id | _ => None end) t.

Definition releases (t : list call) : list nat :=
  omap (fun o => match o with Release id => Some id | _ => None end) t.


End Audio.

(** ** services/geminiService: getTextToSpeechAudio *)

Module GeminiService.

(** The part of a [GenerateContentResponse] the function reads; every
    level may be missing, as the optional chaining of the source allows. *)
Record Blob := { data : option string }.
Record Part := { inlineData : option Blob }.
Record Content := { parts : option (list Part) }.
Record Candidate := { content : option Content }.
Record GenerateContentResponse := { candidates : option (list Candidate) }.

(** How [ai.models.generateContent] settles. *)
Inductive settled :=
| rejected
| resolved (response : GenerateContentResponse).

Record Error := { message : string }.

Definition tts_prompt (text language : string) : string :=
  "In a clear, professional voice, say the following in " ++ language ++ ": " ++ text.

(** [response.candidates?.[0]?.content?.parts?.[0]?.inlineData?.data] *)
Definition base64Audio (response : GenerateContentResponse) : option string :=
  cs ← candidates response;
  c ← head cs;
  ct ← content c;
  ps ← parts ct;
  p ← head ps;
  b ← inlineData p;
  data b.

(** The body of the [try] once the remote call has settled. *)
Definition tts_try (r : settled) : string + Error :=
  match r with
  | rejected => inr {| message := "remote call failed" |}
  | resolved response =>
      match base64Audio response with
      | Some "" | None => inr {| message := "No audio data received from API." |}
      | Some base64Audio => inl base64Audio
      end
  end.

(** [getTextToSpeechAudio]: [generateContent] stands for the remote model,
    and whatever the [try] throws is replaced by one generic error. *)
Definition getTextToSpeechAudio (generateContent : string -> settled)
    (text language : string) : string + Error :=
  match tts_try (generateContent (tts_prompt text language)) with
  | inl base64Audio => inl base64Audio
  | inr _ => inr {| message := "Failed to generate speech from the AI." |}
  end.

(** A response that carries [d] as its audio payload. *)
Definition audio_response (d : string) : GenerateContentResponse :=
  {| candidates := Some [ {| content := Some {| parts :=
       Some [ {| inlineData := Some {| data := Some d |} |} ] |} |} ] |}.

End GeminiService.

(** ** types.ts *)

Module Types.

Inductive Confidence := High | Medium | Low.
Inductive Trend := Up | Down | Stable.

Record Recommendation := {
  category : string;
  rec_name : string;
  rationale : string;
  rec_confidence : Confidence;
  rec_prediction : Trend
}.

Record FinancialAdvice := {
  summary : string;
  recommendations : list Recommendation
}.

Record PortfolioAnalysisItem := {
  name : string;
  currentAnalysis : string;
  futureOutlook : string;
  confidence : Confidence;
  prediction : Trend
}.

Record PortfolioPrediction := {
  portfolioAnalysis : list PortfolioAnalysisItem;
  overallSummary : string
}.

End Types.

(** ** components/InvestmentPredictor: the queued pipeline *)

Module InvestmentPredictor.
Import Audio GeminiService.

Section Component.
Context `{U : AudioUtils}.

(** React state ([prediction], [language], [error], [isSpeaking]), the four
    refs, and the surroundings: the suspended invocations of
    [playNextInQueue] keyed by invocation number, the source nodes created
    so far (a node's id is its position), and the calls made so far.  The
    form fields [portfolio], [sources] and [isLoading] never meet the
    pipeline and are left out. *)
Record state := {
  prediction : option Types.PortfolioPrediction;
  language : string;
  error : option string;
  isSpeaking : bool;
  audioContextRef : option AudioContextState;
  audioSourceRef : option nat;
  audioQueueRef : list string;
  isStoppedManuallyRef : bool;
  pending : list (nat * continuation);
  nodes : list AudioBufferSourceNode;
  invocations : nat;
  trace : list call
}.

(** The component as mounted. *)
Definition init : state :=
  {| prediction := None; language := "English"; error := None;
     isSpeaking := false; audioContextRef := None; audioSourceRef := None;
     audioQueueRef := []; isStoppedManuallyRef := false;
     pending := []; nodes := []; invocations := 0; trace := [] |}.

Definition with_prediction (p : option Types.PortfolioPrediction) (s : state) : state :=
  {| prediction := p; language := language s; error := error s;
     isSpeaking := isSpeaking s; audioContextRef := audioContextRef s;
     audioSourceRef := audioSourceRef s; audioQueueRef := audioQueueRef s;
     isStoppedManuallyRef := isStoppedManuallyRef s;
     pending := pending s; nodes := nodes s; invocations := invocations s;
     trace := trace s |}.

Definition with_context (c : option AudioContextState) (s : state) : state :=
  {| prediction := prediction s; language := language s; error := error s;
     isSpeaking := isSpeaking s; audioContextRef := c;
     audioSourceRef := audioSourceRef s; audioQueueRef := audioQueueRef s;
     isStoppedManuallyRef := isStoppedManuallyRef s;
     pending := pending s; nodes := nodes s; invocations := invocations s;
     trace := trace s |}.

Definition with_source (r : option nat) (s : state) : state :=
  {| prediction := prediction s; language := language s; error := error s;
     isSpeaking := isSpeaking s; audioContextRef := audioContextRef s;
     audioSourceRef := r; audioQueueRef := audioQueueRef s;
     isStoppedManuallyRef := isStoppedManuallyRef s;
     pending := pending s; nodes := nodes s; invocations := invocations s;
     trace := trace s |}.

Definition with_queue (q : list string) (s : state) : state :=
  {| prediction := prediction s; language := language s; error := error s;
     isSpeaking := isSpeaking s; audioContextRef := audioContextRef s;
     audioSourceRef := audioSourceRef s; audioQueueRef := q;
     isStoppedManuallyRef := isStoppedManuallyRef s;
     pending := pending s; nodes := nodes s; invocations := invocations s;
     trace := trace s |}.

Definition with_stopped (b : bool) (s : state) : state :=
  {| prediction := prediction s; language := language s; error := error s;
     isSpeaking := isSpeaking s; audioContextRef := audioContextRef s;
     audioSourceRef := audioSourceRef s; audioQueueRef := audioQueueRef s;
     isStoppedManuallyRef := b;
     pending := pending s; nodes := nodes s; invocations := invocations s;
     trace := trace s |}.

Definition with_pending (l : list (nat * continuation)) (s : state) : state :=
  {| prediction := prediction s; language := language s; error := error s;
     isSpeaking := isSpeaking s; audioContextRef := audioContextRef s;
     audioSourceRef := audioSourceRef s; audioQueueRef := audioQueueRef s;
     isStoppedManuallyRef := isStoppedManuallyRef s;
     pending := l; nodes := nodes s; invocations := invocations s;
     trace := trace s |}.

Definition with_nodes (l : list AudioBufferSourceNode) (s : state) : state :=
  {| prediction := prediction s; language := language s; error := error s;
     isSpeaking := isSpeaking s; audioContextRef := audioContextRef s;
     audioSourceRef := audioSourceRef s; audioQueueRef := audioQueueRef s;
     isStoppedManuallyRef := isStoppedManuallyRef s;
     pending := pending s; nodes := l; invocations := invocations s;
     trace := trace s |}.

(** Appends to the record of calls. *)
Definition emit (o : call) (s : state) : state :=
  {| prediction := prediction s; language := language s; error := error s;
     isSpeaking := isSpeaking s; audioContextRef := audioContextRef s;
     audioSourceRef := audioSourceRef s; audioQueueRef := audioQueueRef s;
     isStoppedManuallyRef := isStoppedManuallyRef s;
     pending := pending s; nodes := nodes s; invocations := invocations s;
     trace := trace s ++ [o] |}.

(** A new invocation suspends at [k]. *)
Definition suspend_at (k : continuation) (s : state) : state :=
  {| prediction := prediction s; language := language s; error := error s;
     isSpeaking := isSpeaking s; audioContextRef := audioContextRef s;
     audioSourceRef := audioSourceRef s; audioQueueRef := audioQueueRef s;
     isStoppedManuallyRef := isStoppedManuallyRef s;
     pending := pending s ++ [(invocations s, k)]; nodes := nodes s;
     invocations := S (invocations s);
     trace := trace s |}.

(** [setIsSpeaking(b)]; a change of the value is recorded. *)
Definition setIsSpeaking (b : bool) (s : state) : state :=
  if Bool.eqb (isSpeaking s) b then s
  else
    {| prediction := prediction s; language := language s; error := error s;
       isSpeaking := b; audioContextRef := audioContextRef s;
       audioSourceRef := audioSourceRef s; audioQueueRef := audioQueueRef s;
       isStoppedManuallyRef := isStoppedManuallyRef s;
       pending := pending s; nodes := nodes s; invocations := invocations s;
       trace := trace s ++ [Speaking b] |}.

(** [setError(e)]; a message shown to the user is recorded. *)
Definition setError (e : option string) (s : state) : state :=
  {| prediction := prediction s; language := language s; error := e;
     isSpeaking := isSpeaking s; audioContextRef := audioContextRef s;
     audioSourceRef := audioSourceRef s; audioQueueRef := audioQueueRef s;
     isStoppedManuallyRef := isStoppedManuallyRef s;
     pending := pending s; nodes := nodes s; invocations := invocations s;
     trace := trace s ++ match e with Some m => [Report m] | None => [] end |}.

(** [audioQueueRef.current.shift()] *)
Definition shift (q : list string) : option string * list string :=
  match q with
  | [] => (None, [])
  | text :: rest => (Some text, rest)
  end.

(** [playNextInQueue] up to its first [await]: the guard, the dequeue,
    the test of the dequeued text, and the synthesis request. *)
Definition playNextInQueue (s : state) : state :=
  if isStoppedManuallyRef s || (length (audioQueueRef s) =? 0)%nat then
    with_stopped false (setIsSpeaking false s)
  else
    let '(text, rest) := shift (audioQueueRef s) in
    let s := with_queue rest s in
    match text with
    | None | Some "" => s
    | Some text =>
        suspend_at (AwaitSynthesis text) (emit (Synthesize text (language s)) s)
    end.

(** The [catch] of [playNextInQueue]; invocation [c] is over. *)
Definition catch (c : nat) (s : state) : state :=
  setIsSpeaking false
    (setError (Some "Failed to generate or play audio for a segment.")
       (with_pending (drop_task c (pending s)) s)).

(** A stretch of the [try] block, from one suspension point to the next:
    it runs through, or it throws and leaves the state it had reached. *)
Inductive outcome :=
| Ran (s : state)
| Threw (s : state).

(** From [decode(audioData)] to the [await] of [decodeAudioData]. *)
Definition after_resume (c : nat) (audioData : string) (s : state) : outcome :=
  match decode audioData with
  | None => Threw s
  | Some decodedBytes =>
      Ran (with_pending (put_task c (AwaitDecode decodedBytes) (pending s)) s)
  end.

(** The synthesis awaited by invocation [c] has settled with [r]. *)
Definition after_synthesis (c : nat) (text : string) (r : settled) (s : state) : outcome :=
  match getTextToSpeechAudio (fun _ => r) text (language s) with
  | inr _ => Threw s
  | inl audioData =>
      let context := acquire (audioContextRef s) in
      match context with
      | suspended =>
          (* await context.resume() *)
          Ran (with_pending (put_task c (AwaitResume audioData) (pending s))
                 (with_context (Some running) s))
      | _ => after_resume c audioData (with_context (Some context) s)
      end
  end.

(** [decodeAudioData(decodedBytes, context, 24000, 1)] has settled: create
    the source, attach the handler, start it and remember it. *)
Definition after_decode (c : nat) (decodedBytes : list byte) (s : state) : outcome :=
  match decodeAudioData decodedBytes 24000 1 with
  | None => Threw s
  | Some audioBuffer =>
      let source := {| buffer := audioBuffer; onended := true; playback_state := Playing |} in
      let id := length (nodes s) in
      Ran (with_source (Some id)
             (emit (Start id)
                (with_nodes (nodes s ++ [source])
                   (with_pending (drop_task c (pending s)) s))))
  end.

(** [try { ... } catch (err) { ... }] around a stretch of invocation [c]. *)
Definition try_catch (c : nat) (o : outcome) : state :=
  match o with
  | Ran s => s
  | Threw s => catch c s
  end.

(** [stopPlayback] *)
Definition stopPlayback (s : state) : state :=
  let s := with_queue [] (with_stopped true s) in
  let s :=
    match audioSourceRef s with
    | Some id =>
        with_source None
          (emit (Release id)
             (with_nodes (alter (fun n => stop (detach n)) id (nodes s)) s))
    | None => s
    end in
  let s := with_context (suspend (audioContextRef s)) s in
  setIsSpeaking false s.

Definition chunk (item : Types.PortfolioAnalysisItem) : string :=
  Types.name item ++ ". Analysis: " ++ Types.currentAnalysis item
    ++ ". Outlook: " ++ Types.futureOutlook item.

Definition textChunks (p : Types.PortfolioPrediction) : list string :=
  ("Here is the overall summary of your portfolio prediction: " ++ Types.overallSummary p)
    :: map chunk (Types.portfolioAnalysis p).

(** The part of [handleSpeak] below its two guards, which the
    specification calls enqueueAndPlay. *)
Definition enqueueAndPlay (segments : list string) (s : state) : state :=
  playNextInQueue
    (with_queue segments
       (with_stopped false (setIsSpeaking true (setError None s)))).

Definition handleSpeak (s : state) : state :=
  match prediction s with
  | None => s
  | Some p =>
      if isSpeaking s then stopPlayback s
      else enqueueAndPlay (textChunks p) s
  end.

(** [handleSubmit] with a non-blank portfolio, up to its [await]. *)
Definition handleSubmit (s : state) : state :=
  stopPlayback (with_prediction None (setError None s)).

(** The [ended] event of node [id] is dispatched. *)
Definition ended (id : nat) (n : AudioBufferSourceNode) (s : state) : state :=
  let s := with_nodes (alter finish id (nodes s)) s in
  let s := if is_playing n then emit (Finished id) s else s in
  if onended n then playNextInQueue (with_source None s) else s.

Inductive event :=
| Click                                   (* the Speak / Stop button *)
| Submit                                  (* the form *)
| Loaded (p : Types.PortfolioPrediction)  (* the prediction arrived *)
| LoadFailed
| Unmount                                 (* the effect cleanup *)
| SynthesisSettled (c : nat) (r : settled)
| ResumeSettled (c : nat) (ok : bool)
| DecodeSettled (c : nat)
| PlaybackEnded (id : nat).

(** The stretch a settlement sets going: the invocation must be suspended
    at an [await] of that kind. *)
Definition continue (s : state) (e : event) : option outcome :=
  match e with
  | SynthesisSettled c r =>
      match find_task c (pending s) with
      | Some (AwaitSynthesis text) => Some (after_synthesis c text r s)
      | _ => None
      end
  | ResumeSettled c ok =>
      match find_task c (pending s) with
      | Some (AwaitResume audioData) =>
          Some (if ok then after_resume c audioData s else Threw s)
      | _ => None
      end
  | DecodeSettled c =>
      match find_task c (pending s) with
      | Some (AwaitDecode decodedBytes) => Some (after_decode c decodedBytes s)
      | _ => None
      end
  | _ => None
  end.

(** The settlement makes the [try] block throw. *)
Definition throws (s : state) (e : event) : bool :=
  match continue s e with
  | Some (Threw _) => true
  | _ => false
  end.

(** One event; [None] when it cannot happen in [s]. *)
Definition step (s : state) (e : event) : option state :=
  match e with
  | Click => Some (handleSpeak s)
  | Submit => Some (handleSubmit s)
  | Loaded p => Some (with_prediction (Some p) s)
  | LoadFailed =>
      Some (setError (Some "An error occurred while fetching the prediction. Please try again.") s)
  | Unmount => Some (stopPlayback s)
  | SynthesisSettled c _ | ResumeSettled c _ | DecodeSettled c =>
      try_catch c <$> continue s e
  | PlaybackEnded id =>
      match nodes s !! id with
      | Some n =>
          match playback_state n with
          | Ended => None
          | _ => Some (ended id n s)
          end
      | None => None
      end
  end.

Fixpoint run (s : state) (es : list event) : option state :=
  match es with
  | [] => Some s
  | e :: es' =>
      match step s e with
      | Some s' => run s' es'
      | None => None
      end
  end.

(** The events that are settlements, as opposed to user actions. *)
Definition settlement (e : event) : bool :=
  match e with
  | SynthesisSettled _ _ | ResumeSettled _ _ | DecodeSettled _ | PlaybackEnded _ => true
  | _ => false
  end.

(** Nothing is awaited and nothing sounds. *)
Definition quiet (s : state) : bool :=
  match pending s with [] => true | _ => false end && (active (nodes s) =? 0)%nat.

End Component.
End InvestmentPredictor.

(** ** components/FinanceAdvisor: one utterance per request *)

Module FinanceAdvisor.
Import Audio GeminiService.

Section Component.
Context `{U : AudioUtils}.

(** React state ([advice], [language], [error], [isSpeaking]), the two
    refs, and the same surroundings as in the other component. *)
Record state := {
  advice : option Types.FinancialAdvice;
  language : string;
  error : option string;
  isSpeaking : bool;
  audioContextRef : option AudioContextState;
  audioSourceRef : option nat;
  pending : list (nat * continuation);
  nodes : list AudioBufferSourceNode;
  invocations : nat;
  trace : list call
}.

Definition init : state :=
  {| advice := None; language := "English"; error := None;
     isSpeaking := false; audioContextRef := None; audioSourceRef := None;
     pending := []; nodes := []; invocations := 0; trace := [] |}.

Definition with_advice (a : option Types.FinancialAdvice) (s : state) : state :=
  {| advice := a; language := language s; error := error s;
     isSpeaking := isSpeaking s; audioContextRef := audioContextRef s;
     audioSourceRef := audioSourceRef s;
     pending := pending s; nodes := nodes s; invocations := invocations s;
     trace := trace s |}.

Definition with_context (c : option AudioContextState) (s : state) : state :=
  {| advice := advice s; language := language s; error := error s;
     isSpeaking := isSpeaking s; audioContextRef := c;
     audioSourceRef := audioSourceRef s;
     pending := pending s; nodes := nodes s; invocations := invocations s;
     trace := trace s |}.

Definition with_source (r : option nat) (s : state) : state :=
  {| advice := advice s; language := language s; error := error s;
     isSpeaking := isSpeaking s; audioContextRef := audioContextRef s;
     audioSourceRef := r;
     pending := pending s; nodes := nodes s; invocations := invocations s;
     trace := trace s |}.

Definition with_pending (l : list (nat * continuation)) (s : state) : state :=
  {| advice := advice s; language := language s; error := error s;
     isSpeaking := isSpeaking s; audioContextRef := audioContextRef s;
     audioSourceRef := audioSourceRef s;
     pending := l; nodes := nodes s; invocations := invocations s;
     trace := trace s |}.

Definition with_nodes (l : list AudioBufferSourceNode) (s : state) : state :=
  {| advice := advice s; language := language s; error := error s;
     isSpeaking := isSpeaking s; audioContextRef := audioContextRef s;
     audioSourceRef := audioSourceRef s;
     pending := pending s; nodes := l; invocations := invocations s;
     trace := trace s |}.

Definition emit (o : call) (s : state) : state :=
  {| advice := advice s; language := language s; error := error s;
     isSpeaking := isSpeaking s; audioContextRef := audioContextRef s;
     audioSourceRef := audioSourceRef s;
     pending := pending s; nodes := nodes s; invocations := invocations s;
     trace := trace s ++ [o] |}.

Definition suspend_at (k : continuation) (s : state) : state :=
  {| advice := advice s; language := language s; error := error s;
     isSpeaking := isSpeaking s; audioContextRef := audioContextRef s;
     audioSourceRef := audioSourceRef s;
     pending := pending s ++ [(invocations s, k)]; nodes := nodes s;
     invocations := S (invocations s);
     trace := trace s |}.

Definition setIsSpeaking (b : bool) (s : state) : state :=
  if Bool.eqb (isSpeaking s) b then s
  else
    {| advice := advice s; language := language s; error := error s;
       isSpeaking := b; audioContextRef := audioContextRef s;
       audioSourceRef := audioSourceRef s;
       pending := pending s; nodes := nodes s; invocations := invocations s;
       trace := trace s ++ [Speaking b] |}.

Definition setError (e : option string) (s : state) : state :=
  {| advice := advice s; language := language s; error := e;
     isSpeaking := isSpeaking s; audioContextRef := audioContextRef s;
     audioSourceRef := audioSourceRef s;
     pending := pending s; nodes := nodes s; invocations := invocations s;
     trace := trace s ++ match e with Some m => [Report m] | None => [] end |}.

(** [stopPlayback]: the handler of the source stays attached. *)
Definition stopPlayback (s : state) : state :=
  let s :=
    match audioSourceRef s with
    | Some id =>
        with_source None
          (emit (Release id) (with_nodes (alter stop id (nodes s)) s))
    | None => s
    end in
  let s := with_context (suspend (audioContextRef s)) s in
  setIsSpeaking false s.

(** [Array.prototype.join] *)
Fixpoint join (sep : string) (l : list string) : string :=
  match l with
  | [] => ""
  | [x] => x
  | x :: l' => x ++ sep ++ join sep l'
  end.

Definition fullTextToSpeak (a : Types.FinancialAdvice) : string :=
  Types.summary a ++ " Here are the recommendations. "
    ++ join ". "
         (map (fun r => Types.category r ++ ": " ++ Types.rec_name r
                          ++ ". Rationale: " ++ Types.rationale r)
              (Types.recommendations a)).

(** [handleSpeak] up to its first [await]. *)
Definition handleSpeak (s : state) : state :=
  match advice s with
  | None => s
  | Some a =>
      if isSpeaking s then stopPlayback s
      else
        let s := setError None (setIsSpeaking true s) in
        let text := fullTextToSpeak a in
        suspend_at (AwaitSynthesis text) (emit (Synthesize text (language s)) s)
  end.

Definition catch (c : nat) (s : state) : state :=
  setIsSpeaking false
    (setError (Some "Failed to generate or play audio.")
       (with_pending (drop_task c (pending s)) s)).

Inductive outcome :=
| Ran (s : state)
| Threw (s : state).

Definition after_resume (c : nat) (audioData : string) (s : state) : outcome :=
  match decode audioData with
  | None => Threw s
  | Some decodedBytes =>
      Ran (with_pending (put_task c (AwaitDecode decodedBytes) (pending s)) s)
  end.

Definition after_synthesis (c : nat) (text : string) (r : settled) (s : state) : outcome :=
  match getTextToSpeechAudio (fun _ => r) text (language s) with
  | inr _ => Threw s
  | inl audioData =>
      let context := acquire (audioContextRef s) in
      match context with
      | suspended =>
          Ran (with_pending (put_task c (AwaitResume audioData) (pending s))
                 (with_context (Some running) s))
      | _ => after_resume c audioData (with_context (Some context) s)
      end
  end.

(** [decodeAudioData(decodedBytes, context, 24000, 1)] has settled: stop any
    previous sound, then create, start and remember the new source. *)
Definition after_decode (c : nat) (decodedBytes : list byte) (s : state) : outcome :=
  match decodeAudioData decodedBytes 24000 1 with
  | None => Threw s
  | Some audioBuffer =>
      let s := with_pending (drop_task c (pending s)) s in
      let s :=
        match audioSourceRef s with
        | Some old => with_nodes (alter stop old (nodes s)) s
        | None => s
        end in
      let source := {| buffer := audioBuffer; onended := true; playback_state := Playing |} in
      let id := length (nodes s) in
      Ran (with_source (Some id) (emit (Start id) (with_nodes (nodes s ++ [source]) s)))
  end.

Definition try_catch (c : nat) (o : outcome) : state :=
  match o with
  | Ran s => s
  | Threw s => catch c s
  end.

Definition handleSubmit (s : state) : state :=
  stopPlayback (with_advice None (setError None s)).

(** The [ended] event of node [id] is dispatched. *)
Definition ended (id : nat) (n : AudioBufferSourceNode) (s : state) : state :=
  let s := with_nodes (alter finish id (nodes s)) s in
  let s := if is_playing n then emit (Finished id) s else s in
  if onended n then with_source None (setIsSpeaking false s) else s.

Inductive event :=
| Click
| Submit
| Loaded (a : Types.FinancialAdvice)
| LoadFailed
| Unmount
| SynthesisSettled (c : nat) (r : settled)
| ResumeSettled (c : nat) (ok : bool)
| DecodeSettled (c : nat)
| PlaybackEnded (id : nat).

(** The stretch a settlement sets going: the invocation must be suspended
    at an [await] of that kind. *)
Definition continue (s : state) (e : event) : option outcome :=
  match e with
  | SynthesisSettled c r =>
      match find_task c (pending s) with
      | Some (AwaitSynthesis text) => Some (after_synthesis c text r s)
      | _ => None
      end
  | ResumeSettled c ok =>
      match find_task c (pending s) with
      | Some (AwaitResume audioData) =>
          Some (if ok then after_resume c audioData s else Threw s)
      | _ => None
      end
  | DecodeSettled c =>
      match find_task c (pending s) with
      | Some (AwaitDecode decodedBytes) => Some (after_decode c decodedBytes s)
      | _ => None
      end
  | _ => None
  end.

(** The settlement makes the [try] block throw. *)
Definition throws (s : state) (e : event) : bool :=
  match continue s e with
  | Some (Threw _) => true
  | _ => false
  end.

(** One event.  The component registers no effect, so unmounting it runs
    no code of its own. *)
Definition step (s : state) (e : event) : option state :=
  match e with
  | Click => Some (handleSpeak s)
  | Submit => Some (handleSubmit s)
  | Loaded a => Some (with_advice (Some a) s)
  | LoadFailed =>
      Some (setError (Some "An error occurred while fetching financial advice. Please try again.") s)
  | Unmount => Some s
  | SynthesisSettled c _ | ResumeSettled c _ | DecodeSettled c =>
      try_catch c <$> continue s e
  | PlaybackEnded id =>
      match nodes s !! id with
      | Some n =>
          match playback_state n with
          | Ended => None
          | _ => Some (ended id n s)
          end
      | None => None
      end
  end.

Fixpoint run (s : state) (es : list event) : option state :=
  match es with
  | [] => Some s
  | e :: es' =>
      match step s e with
      | Some s' => run s' es'
      | None => None
      end
  end.

End Component.
End FinanceAdvisor.

(** ** A stand-in for utils/audio, for running the model on examples *)

Module Fixture.
Import Audio GeminiService.

(** Takes the characters of the transport string as the raw bytes and
    keeps rate and channel count next to them. *)
Definition utils : AudioUtils :=
  {| AudioBuffer := list byte * Z * Z;
     decode := fun s => Some (String.list_byte_of_string s);
     decodeAudioData := fun d rate channels => Some (d, rate, channels) |}.

Definition ok (d : string) : settled := resolved (audio_response d).

Definition portfolio : Types.PortfolioPrediction :=
  {| Types.portfolioAnalysis :=
       [ {| Types.name := "AAPL"; Types.currentAnalysis := "strong";
            Types.futureOutlook := "growth"; Types.confidence := Types.High;
            Types.prediction := Types.Up |} ];
     Types.overallSummary := "balanced" |}.

Definition plan : Types.FinancialAdvice :=
  {| Types.summary := "Save."; Types.recommendations := [] |}.

End Fixture.

(** ** Vocabulary of the properties *)

Module Session.
Import Audio GeminiService InvestmentPredictor.

(** The response has no audio in it: the chain of optional fields breaks
    somewhere, or the data string is empty. *)
Definition no_audio_payload (response : GenerateContentResponse) : Prop :=
  base64Audio response = None \/ base64Audio response = Some "".

Section Vocabulary.
Context `{U : AudioUtils}.

(** A buffer obtained the way both components obtain theirs: the string
    the synthesis returned, decoded, then turned into audio at 24 kHz mono. *)
Definition decoded_24k_mono (b : AudioBuffer) : Prop :=
  exists generateContent text language audioData decodedBytes,
    getTextToSpeechAudio generateContent text language = inl audioData
    /\ decode audioData = Some decodedBytes
    /\ decodeAudioData decodedBytes 24000 1 = Some b.

(** A node that will never call back: it has ended, or it was stopped
    with its handler detached. *)
Definition inert (n : AudioBufferSourceNode) : bool :=
  match playback_state n with
  | Ended => true
  | Ending => negb (onended n)
  | Playing => false
  end.

(** The pipeline is not in the middle of a playback. *)
Definition idle (q : state) : bool :=
  negb (isSpeaking q)
  && match pending q with [] => true | _ => false end
  && forallb inert (nodes q).

(** The calls of playing [segs] one after the other, the first on node [id]. *)
Fixpoint played (id : nat) (lang : string) (segs : list string) : list call :=
  match segs with
  | [] => []
  | text :: rest =>
      Synthesize text lang :: Start id :: Finished id :: played (S id) lang rest
  end.

(** The calls of a whole session started in [q]. *)
Definition whole (q : state) (segs : list string) : list call :=
  (Speaking true :: played (length (nodes q)) (language q) segs ++ [Speaking false])%list.

(** Where a session stands (the states of the specification, with the
    two ways a session ends early). *)
Inductive phase :=
| Synthesizing | Resuming | Decoding | Sounding | Completed | Halted | Failed.

Definition awaiting (ph : phase) (text : string) (l : list (nat * continuation)) : Prop :=
  match ph with
  | Synthesizing => exists c, l = [(c, AwaitSynthesis text)]
  | Resuming => exists c audioData, l = [(c, AwaitResume audioData)]
  | Decoding => exists c decodedBytes, l = [(c, AwaitDecode decodedBytes)]
  | _ => l = []
  end.

Definition current (ph : phase) (rest : list string) : Prop :=
  match ph with
  | Completed => rest = []
  | Halted => head rest = Some ""
  | _ => exists text, head rest = Some text /\ text <> ""
  end.

(** What the segment in hand has contributed to the calls so far. *)
Definition tail_of (ph : phase) (text lang : string) (id : nat) : list call :=
  match ph with
  | Synthesizing | Resuming | Decoding => [Synthesize text lang]
  | Sounding => [Synthesize text lang; Start id]
  | Completed => [Speaking false]
  | Halted => []
  | Failed =>
      [Synthesize text lang;
       Report "Failed to generate or play audio for a segment.";
       Speaking false]
  end.

Definition speaking_in (ph : phase) : bool :=
  match ph with
  | Completed | Failed => false
  | _ => true
  end.

Definition sounding (ph : phase) (l : list AudioBufferSourceNode) : Prop :=
  match ph with
  | Sounding =>
      exists b, l = [ {| buffer := b; onended := true; playback_state := Playing |} ]
  | _ => l = []
  end.

(** State [s] belongs to a session started in [q] that has played [done]
    and has [rest] in hand and ahead. *)
Record in_session (q : state) (done rest : list string) (ph : phase) (s : state) : Prop := {
  ses_language : language s = language q;
  ses_stopped : isStoppedManuallyRef s = false;
  ses_speaking : isSpeaking s = speaking_in ph;
  ses_source :
    ph = Sounding -> audioSourceRef s = Some (length (nodes q) + length done);
  ses_queue : audioQueueRef s = tail rest;
  ses_current : current ph rest;
  ses_pending : awaiting ph (default "" (head rest)) (pending s);
  ses_trace :
    trace s =
      (trace q ++ Speaking true :: played (length (nodes q)) (language q) done
         ++ tail_of ph (default "" (head rest)) (language q)
              (length (nodes q) + length done))%list;
  ses_nodes :
    exists past now,
      nodes s = (past ++ now)%list
      /\ Forall (fun n => inert n = true) past
      /\ length past = length (nodes q) + length done
      /\ sounding ph now
}.

Definition session (q : state) (segs : list string) (s : state) : Prop :=
  exists done rest ph, segs = (done ++ rest)%list /\ in_session q done rest ph s.

Definition waiting (ph : phase) : bool :=
  match ph with
  | Synthesizing | Resuming | Decoding => true
  | _ => false
  end.

Definition over (ph : phase) : bool :=
  match ph with
  | Completed | Halted | Failed => true
  | _ => false
  end.

(** A string some synthesis call returned. *)
Definition returned (audioData : string) : Prop :=
  exists generateContent text language,
    getTextToSpeechAudio generateContent text language = inl audioData.

(** What a suspended invocation holds comes from a synthesis. *)
Definition sourced (k : continuation) : Prop :=
  match k with
  | AwaitSynthesis _ => True
  | AwaitResume audioData => returned audioData
  | AwaitDecode decodedBytes =>
      exists audioData, returned audioData /\ decode audioData = Some decodedBytes
  end.

(** Every node was started, and carries a buffer obtained at 24 kHz mono
    from what a synthesis returned. *)
Definition provenance (pe : list (nat * continuation)) (nd : list AudioBufferSourceNode)
    (t : list call) : Prop :=
  Forall (fun ck => sourced (snd ck)) pe
  /\ Forall (fun n => decoded_24k_mono (buffer n)) nd
  /\ starts t = seq 0 (length nd).

Definition ip_ok (s : InvestmentPredictor.state) : Prop :=
  provenance (InvestmentPredictor.pending s) (InvestmentPredictor.nodes s)
    (InvestmentPredictor.trace s).

Definition fa_ok (s : FinanceAdvisor.state) : Prop :=
  provenance (FinanceAdvisor.pending s) (FinanceAdvisor.nodes s)
    (FinanceAdvisor.trace s).

End Vocabulary.
End Session.

(** ** Strings as the service functions use them *)

Module JS.

(** The white space of ECMAScript ([WhiteSpace] and [LineTerminator]) among
    the code units below 256: TAB, LF, VT, FF, CR, SP and NBSP.  Both
    [String.prototype.trim] and the class [\s] of a regular expression use
    this set; strings are taken as sequences of such code units. *)
Definition white (c : Ascii.ascii) : bool :=
  existsb (Nat.eqb (Ascii.nat_of_ascii c)) [9; 10; 11; 12; 13; 32; 160].

Fixpoint trimStart (s : string) : string :=
  match s with
  | String c s' => if white c then trimStart s' else s
  | EmptyString => EmptyString
  end.

Fixpoint trimEnd (s : string) : string :=
  match s with
  | EmptyString => EmptyString
  | String c s' =>
      match trimEnd s' with
      | EmptyString => if white c then EmptyString else String c EmptyString
      | t => String c t
      end
  end.

(** [s.trim()] *)
Definition trim (s : string) : string := trimEnd (trimStart s).

(** The pieces of a backtracking matcher, each with the rest of the pattern
    as its continuation [k]; a continuation that returns [None] makes the
    piece try its next alternative. *)

(** A literal: the rest of [s] after [p], when [s] begins with [p]. *)
Fixpoint lit (p s : string) : option string :=
  match p with
  | EmptyString => Some s
  | String a p' =>
      match s with
      | String b s' => if Ascii.eqb a b then lit p' s' else None
      | EmptyString => None
      end
  end.

(** [\s*]: greedy, so the longest run of white space is tried first and
    one character is given back at a time. *)
Fixpoint greedy_spaces {A : Type} (k : string -> option A) (s : string) : option A :=
  match s with
  | String c s' =>
      if white c then
        match greedy_spaces k s' with
        | Some r => Some r
        | None => k s
        end
      else k s
  | EmptyString => k EmptyString
  end.

(** [([\s\S]*?)]: lazy, so the shortest capture is tried first and one
    character, whatever it is, is added at a time. *)
Fixpoint lazy_any {A : Type} (k : string -> string -> option A) (captured s : string)
    : option A :=
  match s with
  | EmptyString => k captured EmptyString
  | String c s' =>
      match k captured s with
      | Some r => Some r
      | None => lazy_any k (captured ++ String c EmptyString) s'
      end
  end.

(** The whole pattern from a given position. *)
Fixpoint search {A : Type} (here : string -> option A) (s : string) : option A :=
  match here s with
  | Some r => Some r
  | None =>
      match s with
      | String _ s' => search here s'
      | EmptyString => None
      end
  end.

(** Does character [c] occur in [s]? *)
Fixpoint occurs (c : Ascii.ascii) (s : string) : bool :=
  match s with
  | EmptyString => false
  | String b s' => Ascii.eqb c b || occurs c s'
  end.

(** The character of a code fence. *)
Definition backtick : Ascii.ascii := Ascii.ascii_of_nat 96.

Definition all_white (s : string) : bool :=
  match trimStart s with EmptyString => true | _ => false end.

(** Neither the first nor the last character is white space. *)
Definition trimmed (s : string) : Prop := trim s = s.

End JS.

(** ** services/geminiService: the grounded requests *)

Module Grounded.
Import GeminiService JS.

(** [GroundingChunk] of types.ts. *)
Record Web := { uri : option string; title : option string }.
Record GroundingChunk := { web : option Web }.

(** What [getFinancialAdvice] and [getInvestmentPrediction] read of a
    response: the [text] accessor and the grounding chunks of the first
    candidate. *)
Record GroundingMetadata := { groundingChunks : option (list GroundingChunk) }.
Record Candidate := { groundingMetadata : option GroundingMetadata }.
Record Response := { text : option string; candidates : option (list Candidate) }.

Inductive settled :=
| rejected
| resolved (response : Response).

(** [JSON.parse], whose result the functions hand on under a type
    assertion, without looking at it. *)
Class Json := {
  JsonValue : Type;
  JSON_parse : string -> option JsonValue
}.

(** The end of the pattern, [\s*```], after the capture. *)
Definition jsonRegex_close (captured rest : string) : option string :=
  greedy_spaces (fun rest' => _ ← lit "```" rest'; Some captured) rest.

(** [/```json\s*([\s\S]*?)\s*```/] matched at the start of [s]: the capture. *)
Definition jsonRegex_here (s : string) : option string :=
  s1 ← lit "```json" s;
  greedy_spaces (lazy_any jsonRegex_close EmptyString) s1.

(** [responseText.match(jsonRegex)]: group 1 of the leftmost match. *)
Definition jsonRegex_match (responseText : string) : option string :=
  search jsonRegex_here responseText.

(** From [response.text.trim()] to the text that is parsed. *)
Definition unfence (text : string) : string :=
  let responseText := trim text in
  match jsonRegex_match responseText with
  | Some (String c m) => String c m
  | _ => responseText
  end.

(** [response.candidates?.[0]?.groundingMetadata?.groundingChunks || []] *)
Definition sources_of (response : Response) : list GroundingChunk :=
  default []
    (cs ← candidates response;
     c ← head cs;
     m ← groundingMetadata c;
     groundingChunks m).

Section Requests.
Context `{J : Json}.

(** The body of the [try] of both functions once the remote call has
    settled: [None] when it throws.  The arguments of the functions only
    go into the prompt, which is for the remote model to read; here the
    model is whatever settles the call, so the prompt is left out.  A
    response without text makes [response.text.trim()] throw. *)
Definition grounded_try (r : settled) : option (JsonValue * list GroundingChunk) :=
  match r with
  | rejected => None
  | resolved response =>
      responseText ← text response;
      parsed ← JSON_parse (unfence responseText);
      Some (parsed, sources_of response)
  end.

(** [getFinancialAdvice], the remote call settled with [r]. *)
Definition getFinancialAdvice (r : settled) : (JsonValue * list GroundingChunk) + Error :=
  match grounded_try r with
  | Some result => inl result
  | None => inr {| message := "Failed to fetch financial advice from the AI." |}
  end.

(** [getInvestmentPrediction], the remote call settled with [r]. *)
Definition getInvestmentPrediction (r : settled) : (JsonValue * list GroundingChunk) + Error :=
  match grounded_try r with
  | Some result => inl result
  | None => inr {| message := "Failed to fetch investment prediction from the AI." |}
  end.

End Requests.
End Grounded.

(** ** The list of sources both components render *)

Module SourceList.
Import Grounded.

Record Link := { href : string; label : string }.

(** A string where a condition is expected: [undefined] and the empty
    string count as false. *)
Definition truthy (s : option string) : option string :=
  match s with
  | Some (String c r) => Some (String c r)
  | _ => None
  end.

(** [source.web?.uri && <li><a href={source.web.uri}>{source.web.title ||
    source.web.uri}</a></li>] *)
Definition source_item (source : GroundingChunk) : option Link :=
  w ← web source;
  u ← truthy (uri w);
  Some {| href := u; label := default u (truthy (title w)) |}.

(** The block under the heading "Sources:", rendered when
    [sources.length > 0]: the links it lists. *)
Definition source_list (sources : list GroundingChunk) : option (list Link) :=
  match sources with
  | [] => None
  | _ => Some (omap source_item sources)
  end.

End SourceList.

(** ** services/geminiService: getChatResponse *)

Module ChatService.
Import GeminiService.

(** The module's own state, [chatInstance], with the surroundings: how many
    chat sessions [ai.chats.create] has made (a session's id is its rank)
    and the [sendMessage] calls so far, each with the session it went to. *)
Record module_state := {
  chatInstance : option nat;
  chats_created : nat;
  sendMessage_calls : list (nat * string)
}.

(** The module as loaded. *)
Definition loaded : module_state :=
  {| chatInstance := None; chats_created := 0; sendMessage_calls := [] |}.

(** How [chatInstance.sendMessage] settles: with [response.text], or not. *)
Inductive sent :=
| send_rejected
| send_resolved (text : string).

Definition sendMessage (c : nat) (message : string) (m : module_state) : module_state :=
  {| chatInstance := chatInstance m; chats_created := chats_created m;
     sendMessage_calls := (sendMessage_calls m ++ [(c, message)])%list |}.

(** [getChatResponse] up to its [await]: [create_ok] tells whether
    [ai.chats.create] returns, should it be called, rather than throws.
    The flag of the result tells whether a [sendMessage] is now awaited;
    if not, the function has thrown already. *)
Definition getChatResponse_call (create_ok : bool) (message : string) (m : module_state)
    : module_state * bool :=
  match chatInstance m with
  | Some c => (sendMessage c message m, true)
  | None =>
      if create_ok then
        let c := chats_created m in
        (sendMessage c message
           {| chatInstance := Some c; chats_created := S c;
              sendMessage_calls := sendMessage_calls m |}, true)
      else (m, false)
  end.

(** [getChatResponse] from its [await] on. *)
Definition getChatResponse_return (r : sent) : string + Error :=
  match r with
  | send_resolved text => inl text
  | send_rejected => inr {| message := "Failed to get chat response from the AI." |}
  end.

(** What the function's promise carries when it threw before sending. *)
Definition getChatResponse_thrown : string + Error :=
  inr {| message := "Failed to get chat response from the AI." |}.

End ChatService.

(** ** components/ChatBot *)

Module ChatBot.
Import ChatService.

(** [ChatMessage] of types.ts. *)
Inductive Sender := user | bot.
Record ChatMessage := { sender : Sender; text : string }.

(** What a suspended [handleSend] waits for: the [sendMessage] made by
    [getChatResponse], or the delivery of a rejection that is already
    decided. *)
Inductive awaited := Sending | Failing.

(** React state, the state of the service module, and the suspended
    invocations of [handleSend] keyed by invocation number. *)
Record state := {
  isOpen : bool;
  messages : list ChatMessage;
  input : string;
  isLoading : bool;
  service : module_state;
  awaiting : list (nat * awaited);
  invocations : nat
}.

Definition greeting : ChatMessage :=
  {| sender := bot; text := "Hello! How can I help you today?" |}.

(** The component as mounted, the service module freshly loaded. *)
Definition init : state :=
  {| isOpen := false; messages := [greeting]; input := ""; isLoading := false;
     service := loaded; awaiting := []; invocations := 0 |}.

Definition setIsOpen (b : bool) (s : state) : state :=
  {| isOpen := b; messages := messages s; input := input s;
     isLoading := isLoading s; service := service s;
     awaiting := awaiting s; invocations := invocations s |}.

Definition setInput (v : string) (s : state) : state :=
  {| isOpen := isOpen s; messages := messages s; input := v;
     isLoading := isLoading s; service := service s;
     awaiting := awaiting s; invocations := invocations s |}.

(** [handleSend] up to its [await]. *)
Definition handleSend (create_ok : bool) (s : state) : state :=
  if String.eqb (JS.trim (input s)) "" || isLoading s then s
  else
    let userMessage := {| sender := user; text := input s |} in
    let '(m, sending) := getChatResponse_call create_ok (input s) (service s) in
    {| isOpen := isOpen s;
       messages := (messages s ++ [userMessage])%list;
       input := "";
       isLoading := true;
       service := m;
       awaiting := (awaiting s ++ [(invocations s, if sending then Sending else Failing)])%list;
       invocations := S (invocations s) |}.

(** [handleSend] from its [await] on: [try], [catch] and [finally]. *)
Definition handleSend_resume (r : string + GeminiService.Error) (s : state) : state :=
  let reply :=
    match r with
    | inl botResponseText => {| sender := bot; text := botResponseText |}
    | inr _ =>
        {| sender := bot;
           text := "Sorry, I'm having trouble connecting. Please try again." |}
    end in
  {| isOpen := isOpen s;
     messages := (messages s ++ [reply])%list;
     input := input s;
     isLoading := false;
     service := service s;
     awaiting := awaiting s;
     invocations := invocations s |}.

Fixpoint find_awaited (c : nat) (l : list (nat * awaited)) : option awaited :=
  match l with
  | [] => None
  | (c', k) :: l' => if Nat.eqb c c' then Some k else find_awaited c l'
  end.

Fixpoint drop_awaited (c : nat) (l : list (nat * awaited)) : list (nat * awaited) :=
  match l with
  | [] => []
  | (c', k) :: l' => if Nat.eqb c c' then l' else (c', k) :: drop_awaited c l'
  end.

Definition with_awaiting (l : list (nat * awaited)) (s : state) : state :=
  {| isOpen := isOpen s; messages := messages s; input := input s;
     isLoading := isLoading s; service := service s;
     awaiting := l; invocations := invocations s |}.

(** What happens to the component: the two buttons that open and close the
    window, typing, sending (button or Enter), and the two ways a suspended
    [handleSend] is woken up.  The handlers are taken as callable in every
    state; what the markup hides or disables is not relied upon. *)
Inductive event :=
| OpenWindow
| CloseWindow
| Change (value : string)
| Send (create_ok : bool)
| Replied (c : nat) (r : sent)
| Thrown (c : nat).

Definition step (s : state) (e : event) : option state :=
  match e with
  | OpenWindow => Some (setIsOpen true s)
  | CloseWindow => Some (setIsOpen false s)
  | Change value => Some (setInput value s)
  | Send create_ok => Some (handleSend create_ok s)
  | Replied c r =>
      match find_awaited c (awaiting s) with
      | Some Sending =>
          Some (handleSend_resume (getChatResponse_return r)
                  (with_awaiting (drop_awaited c (awaiting s)) s))
      | _ => None
      end
  | Thrown c =>
      match find_awaited c (awaiting s) with
      | Some Failing =>
          Some (handleSend_resume getChatResponse_thrown
                  (with_awaiting (drop_awaited c (awaiting s)) s))
      | _ => None
      end
  end.

Fixpoint run (s : state) (es : list event) : option state :=
  match es with
  | [] => Some s
  | e :: es' =>
      match step s e with
      | Some s' => run s' es'
      | None => None
      end
  end.

(** One question and its answer, as the transcript shows them. *)
Definition turn (qa : string * string) : list ChatMessage :=
  [ {| sender := user; text := fst qa |}; {| sender := bot; text := snd qa |} ].

(** An event of the user, not a settlement. *)
Definition by_user (e : event) : bool :=
  match e with
  | Replied _ _ | Thrown _ => false
  | _ => true
  end.

End ChatBot.

(** ** components/InvestmentPredictor: the form *)

Module PredictorForm.
Import Audio GeminiService.

Section Component.
Context `{U : AudioUtils}.

(** What [getInvestmentPrediction] hands to the component, the parsed JSON
    taken as a [PortfolioPrediction] as the type assertion has it. *)
Definition fetched : Type :=
  (Types.PortfolioPrediction * list Grounded.GroundingChunk) + Error.

(** The form fields [portfolio], [sources] and [isLoading] next to the
    state the pipeline shares with them ([prediction], [language], [error]
    and the playback), and the surroundings: the calls of
    [getInvestmentPrediction] so far, each with its two arguments, and the
    suspended invocations of [handleSubmit]. *)
Record state := {
  portfolio : string;
  sources : list Grounded.GroundingChunk;
  isLoading : bool;
  speech : InvestmentPredictor.state;
  requests : list (string * string);
  awaiting : list nat;
  invocations : nat
}.

(** The component as mounted. *)
Definition init : state :=
  {| portfolio := ""; sources := []; isLoading := false;
     speech := InvestmentPredictor.init;
     requests := []; awaiting := []; invocations := 0 |}.

Definition setPortfolio (v : string) (f : state) : state :=
  {| portfolio := v; sources := sources f; isLoading := isLoading f;
     speech := speech f; requests := requests f; awaiting := awaiting f;
     invocations := invocations f |}.

Definition with_speech (s : InvestmentPredictor.state) (f : state) : state :=
  {| portfolio := portfolio f; sources := sources f; isLoading := isLoading f;
     speech := s; requests := requests f; awaiting := awaiting f;
     invocations := invocations f |}.

(** [handleSubmit] up to its [await]. *)
Definition handleSubmit (f : state) : state :=
  match JS.trim (portfolio f) with
  | EmptyString =>
      with_speech
        (InvestmentPredictor.setError (Some "Portfolio cannot be empty.") (speech f)) f
  | _ =>
      {| portfolio := portfolio f;
         sources := [];
         isLoading := true;
         speech := InvestmentPredictor.handleSubmit (speech f);
         requests :=
           (requests f ++ [(portfolio f, InvestmentPredictor.language (speech f))])%list;
         awaiting := (awaiting f ++ [invocations f])%list;
         invocations := S (invocations f) |}
  end.

(** [handleSubmit] from its [await] on: [try], [catch] and [finally]. *)
Definition handleSubmit_resume (c : nat) (r : fetched) (f : state) : state :=
  {| portfolio := portfolio f;
     sources := match r with inl (_, newSources) => newSources | inr _ => sources f end;
     isLoading := false;
     speech :=
       match r with
       | inl (newPrediction, _) =>
           InvestmentPredictor.with_prediction (Some newPrediction) (speech f)
       | inr _ =>
           InvestmentPredictor.setError
             (Some "An error occurred while fetching the prediction. Please try again.")
             (speech f)
       end;
     requests := requests f;
     awaiting := List.filter (fun c' => negb (Nat.eqb c c')) (awaiting f);
     invocations := invocations f |}.

(** What happens to the component: typing into the field, submitting the
    form (its button is disabled while [isLoading]), the settlement of a
    request, and the events of the pipeline; the three events by which the
    pipeline alone stood for the form are not among the latter. *)
Inductive event :=
| SetPortfolio (value : string)
| SubmitForm
| PredictionSettled (c : nat) (r : fetched)
| Speech (e : InvestmentPredictor.event).

Definition step (f : state) (e : event) : option state :=
  match e with
  | SetPortfolio value => Some (setPortfolio value f)
  | SubmitForm => if isLoading f then None else Some (handleSubmit f)
  | PredictionSettled c r =>
      if existsb (Nat.eqb c) (awaiting f) then Some (handleSubmit_resume c r f) else None
  | Speech e' =>
      match e' with
      | InvestmentPredictor.Submit | InvestmentPredictor.Loaded _
      | InvestmentPredictor.LoadFailed => None
      | _ => s ← InvestmentPredictor.step (speech f) e'; Some (with_speech s f)
      end
  end.

Fixpoint run (f : state) (es : list event) : option state :=
  match es with
  | [] => Some f
  | e :: es' =>
      match step f e with
      | Some f' => run f' es'
      | None => None
      end
  end.

(** Not the settlement of a request. *)
Definition meanwhile (e : event) : bool :=
  match e with
  | PredictionSettled _ _ => false
  | _ => true
  end.

End Component.
End PredictorForm.

(** ** Vocabulary of the further properties *)

Module Handle.
Import Audio.

Section Vocabulary.
Context {U : AudioUtils}.

(** The remembered source, if any, is a node that is sounding and whose
    completion handler is attached. *)
Definition remembered (nd : list AudioBufferSourceNode) (ref : option nat) : Prop :=
  forall id, ref = Some id ->
    exists n, nd !! id = Some n /\ playback_state n = Playing /\ onended n = true.

End Vocabulary.
End Handle.

(** ** The one utterance of a request of the advisor *)

Module Utterance.
Import Audio GeminiService.
Section Vocabulary.
Context {U : AudioUtils}.

(** The events of [FinanceAdvisor] that are settlements. *)
Definition settlement (e : FinanceAdvisor.event) : bool :=
  match e with
  | FinanceAdvisor.SynthesisSettled _ _ | FinanceAdvisor.ResumeSettled _ _ | FinanceAdvisor.DecodeSettled _
  | FinanceAdvisor.PlaybackEnded _ => true
  | _ => false
  end.

Definition ended (n : AudioBufferSourceNode) : bool :=
  match playback_state n with Ended => true | _ => false end.

(** Nothing is being spoken, nothing is awaited, and every source there
    is has had its [ended] event. *)
Definition idle (q : FinanceAdvisor.state) : bool :=
  negb (FinanceAdvisor.isSpeaking q)
  && match FinanceAdvisor.pending q with [] => true | _ => false end
  && forallb ended (FinanceAdvisor.nodes q).

(** Where the one utterance of a request stands. *)
Inductive phase := Preparing | Voicing | Voiced | Aborted.

(** The calls of an utterance after its synthesis request. *)
Definition tail_of (ph : phase) (id : nat) : list call :=
  match ph with
  | Preparing => []
  | Voicing => [Start id]
  | Voiced => [Start id; Finished id; Speaking false]
  | Aborted => [Report "Failed to generate or play audio."; Speaking false]
  end.

Definition own_node (ph : phase) (l : list AudioBufferSourceNode) : Prop :=
  match ph with
  | Preparing | Aborted => l = []
  | Voicing => exists b, l = [ {| buffer := b; onended := true; playback_state := Playing |} ]
  | Voiced => exists b, l = [ {| buffer := b; onended := true; playback_state := Ended |} ]
  end.

Record in_utterance (q : FinanceAdvisor.state) (text : string) (ph : phase) (s : FinanceAdvisor.state) : Prop := {
  utt_language : FinanceAdvisor.language s = FinanceAdvisor.language q;
  utt_speaking :
    FinanceAdvisor.isSpeaking s = match ph with Preparing | Voicing => true | _ => false end;
  utt_source : ph = Voicing -> FinanceAdvisor.audioSourceRef s = Some (length (FinanceAdvisor.nodes q));
  utt_pending :
    match ph with
    | Preparing => exists c k, FinanceAdvisor.pending s = [(c, k)]
    | _ => FinanceAdvisor.pending s = []
    end;
  utt_trace :
    FinanceAdvisor.trace s =
      (FinanceAdvisor.trace q ++ Speaking true :: Synthesize text (FinanceAdvisor.language q)
         :: tail_of ph (length (FinanceAdvisor.nodes q)))%list;
  utt_nodes :
    exists now, FinanceAdvisor.nodes s = (FinanceAdvisor.nodes q ++ now)%list /\ own_node ph now
}.

End Vocabulary.
End Utterance.

(** ** The conversation of the chat window *)

Module Conversation.
Import GeminiService ChatService ChatBot.

Definition apology : string := "Sorry, I'm having trouble connecting. Please try again.".

(** The question the transcript ends with while its answer is awaited. *)
Definition asked (s : state) (tail : list ChatMessage) : Prop :=
  if isLoading s
  then exists q, tail = [ {| sender := user; text := q |} ] /\ JS.trim q <> ""
  else tail = [].

(** The texts of one side of the transcript. *)
Definition texts_of (who : Sender) (l : list ChatMessage) : list string :=
  map text (List.filter (fun m => match sender m, who with
                                  | user, user | bot, bot => true
                                  | _, _ => false
                                  end) l).

(** What every run of the window keeps. *)
Record chat_inv (s : state) : Prop := {
  ci_awaiting : length (awaiting s) = if isLoading s then 1 else 0;
  ci_shape : exists exchanges tail,
    messages s = (greeting :: flat_map turn exchanges ++ tail)%list
    /\ Forall (fun qa => JS.trim (fst qa) <> "") exchanges
    /\ asked s tail;
  ci_created : chats_created (service s) <= 1;
  ci_instance : chatInstance (service s) = None <-> chats_created (service s) = 0;
  ci_calls : Forall (fun cm => chatInstance (service s) = Some (fst cm)
                               /\ JS.trim (snd cm) <> "")
               (sendMessage_calls (service s));
  ci_shown : sublist (map snd (sendMessage_calls (service s)))
               (texts_of user (messages s))
}.

(** While the answer to the input of [q] is awaited by invocation [c]. *)
Record asking (q : state) (c : nat) (s : state) : Prop := {
  ask_messages : messages s = (messages q ++ [ {| sender := user; text := input q |} ])%list;
  ask_loading : isLoading s = true;
  ask_awaiting : exists k, awaiting s = [(c, k)]
}.

End Conversation.

(** ** The form of the predictor, between submissions *)

Module Fetching.
Import Audio GeminiService Session PredictorForm.

Section Vocabulary.
Context {U : AudioUtils}.

(** What every run of the form keeps. *)
Record form_inv (f : state) : Prop := {
  fi_awaiting : length (awaiting f) = if isLoading f then 1 else 0;
  fi_requests : Forall (fun request => JS.trim (fst request) <> "") (requests f);
  fi_loading :
    isLoading f = true ->
    InvestmentPredictor.prediction (speech f) = None /\ sources f = []
}.

(** Invocation [c] of [handleSubmit] awaits its answer, the requests so far
    being [made], with a pipeline that was idle when the form was
    submitted. *)
Record fetching (made : list (string * string)) (c : nat) (f : state) : Prop := {
  fe_requests : requests f = made;
  fe_loading : isLoading f = true;
  fe_awaiting : awaiting f = [c];
  fe_sources : sources f = [];
  fe_prediction : InvestmentPredictor.prediction (speech f) = None;
  fe_error : InvestmentPredictor.error (speech f) = None;
  fe_pending : InvestmentPredictor.pending (speech f) = [];
  fe_source : InvestmentPredictor.audioSourceRef (speech f) = None;
  fe_nodes : Forall (fun n => inert n = true) (InvestmentPredictor.nodes (speech f))
}.

End Vocabulary.
End Fetching.

(** ** More examples *)

Module Samples.
Import GeminiService.

(** A stand-in for [JSON.parse]: it accepts the texts that open with a
    brace and hands them back as they are. *)
Definition json : Grounded.Json :=
  {| Grounded.JsonValue := string;
     Grounded.JSON_parse := fun s =>
       match s with
       | String c _ => if Ascii.eqb c (Ascii.ascii_of_nat 123) then Some s else None
       | EmptyString => None
       end |}.

Definition newline : string := String (Ascii.ascii_of_nat 10) EmptyString.

Definition source (u t : option string) : Grounded.GroundingChunk :=
  {| Grounded.web := Some {| Grounded.uri := u; Grounded.title := t |} |}.

(** A response with the given text and one grounding chunk. *)
Definition grounded (t : string) : Grounded.Response :=
  {| Grounded.text := Some t;
     Grounded.candidates :=
       Some [ {| Grounded.groundingMetadata :=
                   Some {| Grounded.groundingChunks :=
                             Some [ source (Some "https://example.org") None ] |} |} ] |}.

(** A conversation: one question that is answered, one whose request
    fails. *)
Definition conversation : list ChatBot.event :=
  [ ChatBot.OpenWindow; ChatBot.Change "hi"; ChatBot.Send true;
    ChatBot.Replied 0 (ChatService.send_resolved "hello");
    ChatBot.Change "more"; ChatBot.Send true;
    ChatBot.Replied 1 ChatService.send_rejected ].

(** Three sources: one with a title, one without an address, one with an
    empty title. *)
Definition sources : list Grounded.GroundingChunk :=
  [ source (Some "https://a.example") (Some "A");
    source None (Some "B");
    source (Some "https://c.example") (Some EmptyString) ].

(** One segment of the sample portfolio is sounding. *)
Definition sounding : list InvestmentPredictor.event :=
  [ InvestmentPredictor.SynthesisSettled 0 (Fixture.ok "QQ");
    InvestmentPredictor.DecodeSettled 0 ].

(** Both segments of the sample portfolio have been played. *)
Definition reading : list InvestmentPredictor.event :=
  [ InvestmentPredictor.SynthesisSettled 0 (Fixture.ok "QQ");
    InvestmentPredictor.DecodeSettled 0; InvestmentPredictor.PlaybackEnded 0;
    InvestmentPredictor.SynthesisSettled 1 (Fixture.ok "QQ");
    InvestmentPredictor.DecodeSettled 1; InvestmentPredictor.PlaybackEnded 1 ].

(** The one utterance of the sample plan has been spoken. *)
Definition speaking : list FinanceAdvisor.event :=
  [ FinanceAdvisor.SynthesisSettled 0 (Fixture.ok "QQ");
    FinanceAdvisor.DecodeSettled 0; FinanceAdvisor.PlaybackEnded 0 ].

End Samples.

(** * Properties *)

Import Audio GeminiService Session.
Module IP := InvestmentPredictor.
Module FA := FinanceAdvisor.

(** ** The synthesis call *)

(** C9. [getTextToSpeechAudio] fails exactly when the remote call is
    rejected or the response has no audio payload, the failure always is the
    same generic error, and in every other case the result is the Base64
    string found in the response. *)
Theorem getTextToSpeechAudio_fails_iff :
  forall (generateContent : string -> settled) (text language : string),
    let r := generateContent (tts_prompt text language) in
    ((exists e, getTextToSpeechAudio generateContent text language = inr e)
       <-> (r = rejected \/ exists response, r = resolved response /\ no_audio_payload response))
    /\ (forall e, getTextToSpeechAudio generateContent text language = inr e ->
          e = {| message := "Failed to generate speech from the AI." |})
    /\ (forall response, r = resolved response -> ~ no_audio_payload response ->
          exists d, base64Audio response = Some d
                    /\ getTextToSpeechAudio generateContent text language = inl d).
Proof.
  intros g text lang r. unfold getTextToSpeechAudio, tts_try, no_audio_payload.
  fold r. destruct r as [|response] eqn:Hr; simpl.
  - split; [|split].
    + split; [intros _; now left | intros _; eauto].
    + intros e [= <-]; reflexivity.
    + intros response [=].
  - destruct (base64Audio response) as [d|] eqn:Hd.
    + destruct d as [|a d'].
      * split; [|split].
        -- split; [intros _; right; eauto | intros _; eauto].
        -- intros e [= <-]; reflexivity.
        -- intros response' [= <-] Hn. exfalso. apply Hn. right. exact Hd.
      * split; [|split].
        -- split.
           ++ intros [e [=]].
           ++ intros [[=] | (response' & [= <-] & [Hn | Hn])]; congruence.
        -- intros e [=].
        -- intros response' [= <-] _. exists (String a d'). split; [exact Hd | reflexivity].
    + split; [|split].
      * split; [intros _; right; eauto | intros _; eauto].
      * intros e [= <-]; reflexivity.
      * intros response' [= <-] Hn. exfalso. apply Hn. left. exact Hd.
Qed.

(** ** Stopping *)

(** C4. [stopPlayback] is idempotent on the whole state, so in particular on
    the queue, the two flags and the source handle; after one call no source
    is referenced, hence the second call releases nothing.  More generally,
    when no source is referenced the call touches no node and releases
    nothing: it only sets the flags, empties the queue and suspends the
    context. *)
Theorem stopPlayback_idempotent :
  forall (U : AudioUtils) (s : IP.state),
    IP.stopPlayback (IP.stopPlayback s) = IP.stopPlayback s
    /\ IP.audioSourceRef (IP.stopPlayback s) = None
    /\ IP.audioQueueRef (IP.stopPlayback s) = []
    /\ IP.isStoppedManuallyRef (IP.stopPlayback s) = true
    /\ IP.isSpeaking (IP.stopPlayback s) = false
    /\ releases (IP.trace (IP.stopPlayback (IP.stopPlayback s)))
       = releases (IP.trace (IP.stopPlayback s))
    /\ (IP.audioSourceRef s = None ->
          IP.nodes (IP.stopPlayback s) = IP.nodes s
          /\ IP.pending (IP.stopPlayback s) = IP.pending s
          /\ releases (IP.trace (IP.stopPlayback s)) = releases (IP.trace s)).
Proof.
  intros U [p l e sp ctx src qu st pe nd inv tr].
  unfold IP.stopPlayback, IP.setIsSpeaking; simpl.
  destruct src as [id|], ctx as [[| |]|], sp; simpl; repeat split;
    try reflexivity; try discriminate;
    unfold releases; rewrite omap_app; simpl; rewrite app_nil_r; reflexivity.
Qed.

(** Stopping while a source sounds: the source is released with its handler
    detached, and nothing of the queue is left. *)
Lemma stopPlayback_releases :
  forall (U : AudioUtils) (s : IP.state) (id : nat) (n : AudioBufferSourceNode),
    IP.audioSourceRef s = Some id ->
    IP.nodes s !! id = Some n ->
    IP.nodes (IP.stopPlayback s) !! id = Some (stop (detach n))
    /\ IP.audioQueueRef (IP.stopPlayback s) = []
    /\ IP.pending (IP.stopPlayback s) = IP.pending s.
Proof.
  intros U [p l e sp ctx src qu st pe nd inv tr] id n; simpl.
  intros -> Hn. unfold IP.stopPlayback, IP.setIsSpeaking; simpl.
  destruct sp; simpl; rewrite list_lookup_alter, Hn;
    (destruct (decide (id = id)); [|congruence]); auto.
Qed.

(** ** A session, step by step *)

Section SessionFacts.
Context {U : AudioUtils}.

Lemma played_snoc (id : nat) (lang : string) (done : list string) (text : string) :
  played id lang (done ++ [text])
  = (played id lang done
       ++ [Synthesize text lang; Start (id + length done); Finished (id + length done)])%list.
Proof.
  revert id. induction done as [|x done IH]; intros id; simpl.
  - rewrite Nat.add_0_r. reflexivity.
  - rewrite IH. simpl. rewrite Nat.add_succ_r. reflexivity.
Qed.

Lemma played_app (id : nat) (lang : string) (done rest : list string) :
  played id lang (done ++ rest)
  = (played id lang done ++ played (id + length done) lang rest)%list.
Proof.
  revert id. induction done as [|x done IH]; intros id; simpl.
  - rewrite Nat.add_0_r. reflexivity.
  - rewrite IH. simpl. rewrite Nat.add_succ_r. reflexivity.
Qed.

Lemma synth_calls_played id lang segs : synth_calls (played id lang segs) = segs.
Proof. revert id. induction segs as [|x r IH]; intros id; simpl; [|rewrite IH]; reflexivity. Qed.

Lemma reports_played id lang segs : reports (played id lang segs) = [].
Proof. revert id. induction segs as [|x r IH]; intros id; simpl; auto. Qed.

Lemma finishes_played id lang segs : length (finishes (played id lang segs)) = length segs.
Proof. revert id. induction segs as [|x r IH]; intros id; simpl; auto. Qed.




Lemma idle_inv (q : IP.state) :
  idle q = true ->
  IP.isSpeaking q = false /\ IP.pending q = []
  /\ Forall (fun n => inert n = true) (IP.nodes q).
Proof.
  unfold idle. intros H.
  apply andb_prop in H as [H H3]. apply andb_prop in H as [H1 H2].
  destruct (IP.isSpeaking q); [discriminate|].
  destruct (IP.pending q); [|discriminate]. repeat split.
  apply List.Forall_forall. apply forallb_forall. exact H3.
Qed.

Lemma enqueue_in_session (q : IP.state) (segs : list string) :
  idle q = true ->
  exists ph, in_session q [] segs ph (IP.enqueueAndPlay segs q).
Proof.
  intros Hq. apply idle_inv in Hq as (Hsp & Hpe & Hnd).
  destruct q as [p l e sp ctx src qu st pe nd inv tr]; simpl in *; subst.
  unfold IP.enqueueAndPlay, IP.setError, IP.setIsSpeaking, IP.playNextInQueue; simpl.
  destruct segs as [|[|a t] rest]; simpl.
  - exists Completed. split; simpl; auto; try discriminate.
    + rewrite app_nil_r, <- app_assoc. reflexivity.
    + exists nd, []. rewrite app_nil_r, Nat.add_0_r. auto.
  - exists Halted. split; simpl; auto; try discriminate.
    + rewrite app_nil_r. reflexivity.
    + exists nd, []. rewrite app_nil_r, Nat.add_0_r. auto.
  - exists Synthesizing. split; simpl; auto; try discriminate.
    + eexists. split; [reflexivity|discriminate].
    + eexists. reflexivity.
    + rewrite app_nil_r, <- app_assoc. reflexivity.
    + exists nd, []. rewrite app_nil_r, Nat.add_0_r. auto.
Qed.


Lemma find_single (c c0 : nat) (k k0 : continuation) :
  find_task c [(c0, k0)] = Some k -> c = c0 /\ k = k0.
Proof.
  simpl. destruct (Nat.eqb c c0) eqn:E; [|discriminate].
  apply Nat.eqb_eq in E. intros [= ->]. auto.
Qed.

Lemma drop_single (c : nat) (k : continuation) : drop_task c [(c, k)] = [].
Proof. simpl. rewrite Nat.eqb_refl. reflexivity. Qed.

Lemma put_single (c : nat) (k k' : continuation) : put_task c k' [(c, k)] = [(c, k')].
Proof. unfold put_task. rewrite drop_single. reflexivity. Qed.

Lemma awaiting_single (ph : phase) (text : string) (l : list (nat * continuation)) :
  waiting ph = true -> awaiting ph text l -> exists c k, l = [(c, k)].
Proof. destruct ph; try discriminate; simpl; intros _ H; decompose record H; eauto. Qed.

Lemma in_session_context q done rest ph s c :
  in_session q done rest ph s -> in_session q done rest ph (IP.with_context c s).
Proof. intros []. split; simpl; auto. Qed.

Lemma in_session_waiting q done rest ph ph' s l :
  in_session q done rest ph s ->
  waiting ph = true -> waiting ph' = true ->
  awaiting ph' (default "" (head rest)) l ->
  in_session q done rest ph' (IP.with_pending l s).
Proof.
  intros [] Hw Hw' Hl. split; simpl; auto.
  - destruct ph, ph'; try discriminate; auto.
  - destruct ph'; discriminate.
  - destruct ph, ph'; try discriminate; auto.
  - destruct ph, ph'; try discriminate; auto.
  - destruct ph, ph'; try discriminate; auto.
Qed.

Lemma catch_failed q done rest ph s c k :
  in_session q done rest ph s ->
  waiting ph = true ->
  find_task c (IP.pending s) = Some k ->
  in_session q done rest Failed (IP.catch c s).
Proof.
  intros [Hl Hst Hsp Hsrc Hq Hcur Hpe Htr Hnd] Hw Hc.
  destruct (awaiting_single _ _ _ Hw Hpe) as (c0 & k0 & Hp).
  rewrite Hp in Hc. apply find_single in Hc as [-> ->].
  destruct s as [p l e sp ctx src qu st pe nd inv tr]; simpl in *; subst.
  unfold IP.catch, IP.setError, IP.setIsSpeaking; simpl.
  rewrite Nat.eqb_refl.
  replace (speaking_in ph) with true by (destruct ph; try discriminate; reflexivity).
  simpl. split; simpl; auto; try discriminate.
  - destruct ph; try discriminate; auto.
  - replace (tail_of ph (default "" (head rest)) (IP.language q)
              (length (IP.nodes q) + length done))
      with [Synthesize (default "" (head rest)) (IP.language q)]
      by (destruct ph; try discriminate; reflexivity).
    rewrite <- !app_assoc. simpl. rewrite <- !app_assoc. reflexivity.
  - destruct Hnd as (past & now & ? & ? & ? & Hnow).
    exists past, now. repeat split; auto. destruct ph; try discriminate; auto.
Qed.

Lemma tail_waiting ph text lang id :
  waiting ph = true -> tail_of ph text lang id = [Synthesize text lang].
Proof. destruct ph; try discriminate; reflexivity. Qed.

Lemma found_single q done rest ph s c k :
  in_session q done rest ph s ->
  waiting ph = true ->
  find_task c (IP.pending s) = Some k ->
  IP.pending s = [(c, k)].
Proof.
  intros Hs Hw Hc.
  destruct (awaiting_single _ _ _ Hw (ses_pending _ _ _ _ _ Hs)) as (c0 & k0 & Hp).
  rewrite Hp in Hc. apply find_single in Hc as [Hc1 Hc2]. congruence.
Qed.

Lemma after_resume_session q done rest ph s c k d :
  in_session q done rest ph s ->
  waiting ph = true ->
  find_task c (IP.pending s) = Some k ->
  match IP.after_resume c d s with
  | IP.Threw s1 => s1 = s
  | IP.Ran s1 => in_session q done rest Decoding s1
  end.
Proof.
  intros Hs Hw Hc. unfold IP.after_resume. destruct (decode d) as [b|]; [|reflexivity].
  rewrite (found_single _ _ _ _ _ _ _ Hs Hw Hc), put_single.
  eapply in_session_waiting; eauto. simpl. eauto.
Qed.

Lemma after_synthesis_session q done rest ph s c text r :
  in_session q done rest ph s ->
  waiting ph = true ->
  find_task c (IP.pending s) = Some (AwaitSynthesis text) ->
  match IP.after_synthesis c text r s with
  | IP.Threw s1 => in_session q done rest ph s1 /\ IP.pending s1 = IP.pending s
  | IP.Ran s1 => exists ph', waiting ph' = true /\ in_session q done rest ph' s1
  end.
Proof.
  intros Hs Hw Hc. unfold IP.after_synthesis.
  destruct (getTextToSpeechAudio _ _ _) as [d|]; [|auto].
  destruct (acquire (IP.audioContextRef s)) eqn:Hctx.
  - pose proof (after_resume_session q done rest ph
                  (IP.with_context (Some running) s) c _ d
                  (in_session_context _ _ _ _ _ _ Hs) Hw Hc) as H.
    destruct (IP.after_resume _ _ _);
      [exists Decoding; split; [reflexivity|assumption] | subst; split; [|reflexivity]].
    apply in_session_context, Hs.
  - exists Resuming. split; [reflexivity|].
    rewrite (found_single _ _ _ _ _ _ _ Hs Hw Hc), put_single.
    eapply in_session_waiting with (s := IP.with_context (Some running) s); eauto.
    + apply in_session_context, Hs.
    + simpl. eauto.
  - pose proof (after_resume_session q done rest ph
                  (IP.with_context (Some closed) s) c _ d
                  (in_session_context _ _ _ _ _ _ Hs) Hw Hc) as H.
    destruct (IP.after_resume _ _ _);
      [exists Decoding; split; [reflexivity|assumption] | subst; split; [|reflexivity]].
    apply in_session_context, Hs.
Qed.

Lemma after_decode_session q done rest ph s c b :
  in_session q done rest ph s ->
  waiting ph = true ->
  find_task c (IP.pending s) = Some (AwaitDecode b) ->
  match IP.after_decode c b s with
  | IP.Threw s1 => s1 = s
  | IP.Ran s1 => in_session q done rest Sounding s1
  end.
Proof.
  intros Hs Hw Hc. unfold IP.after_decode.
  destruct (decodeAudioData b 24000 1) as [buf|]; [|reflexivity].
  rewrite (found_single _ _ _ _ _ _ _ Hs Hw Hc), drop_single.
  destruct Hs as [Hl Hst Hsp Hsrc Hq Hcur Hpe Htr (past & now & Hnd & Hin & Hlen & Hnow)].
  assert (now = []) as -> by (destruct ph; try discriminate; exact Hnow).
  rewrite app_nil_r in Hnd.
  split; simpl; auto.
  - destruct ph; try discriminate; auto.
  - intros _. rewrite Hnd, Hlen. reflexivity.
  - destruct ph; try discriminate; auto.
  - rewrite Htr, tail_waiting by assumption. rewrite Hnd, Hlen.
    rewrite <- !app_assoc. simpl. rewrite <- !app_assoc. reflexivity.
  - exists past, [ {| buffer := buf; onended := true; playback_state := Playing |} ].
    rewrite Hnd. repeat split; eauto.
Qed.

Lemma ended_past q done rest ph s id n :
  in_session q done rest ph s ->
  IP.nodes s !! id = Some n ->
  playback_state n = Ending ->
  onended n = false ->
  in_session q done rest ph (IP.ended id n s)
  /\ IP.trace (IP.ended id n s) = IP.trace s.
Proof.
  intros [Hl Hst Hsp Hsrc Hq Hcur Hpe Htr (past & now & Hnd & Hin & Hlen & Hnow)] Hn Hp Ho.
  unfold IP.ended, is_playing. rewrite Hp, Ho. split; [|reflexivity].
  split; simpl; auto.
  assert (id < length past) as Hid.
  { rewrite Hnd in Hn. apply lookup_app_Some in Hn as [Hn | [Hge Hn]].
    - eapply lookup_lt_Some, Hn.
    - destruct ph; simpl in Hnow;
        try (rewrite Hnow in Hn; rewrite lookup_nil in Hn; discriminate).
      destruct Hnow as [b ->]. apply list_lookup_singleton_Some in Hn as [_ <-].
      discriminate. }
  exists (alter finish id past), now. rewrite Hnd, alter_app_l by assumption.
  repeat split; auto.
  - apply Forall_alter; [assumption|]. intros; reflexivity.
  - rewrite length_alter. assumption.
Qed.

Lemma ended_sounding q done rest s id n :
  in_session q done rest Sounding s ->
  IP.nodes s !! id = Some n ->
  playback_state n = Playing ->
  exists text rest' ph',
    rest = text :: rest'
    /\ (ph' = Synthesizing \/ over ph' = true)
    /\ ph' <> Failed
    /\ in_session q (done ++ [text]) rest' ph' (IP.ended id n s).
Proof.
  intros [Hl Hst Hsp Hsrc Hq Hcur Hpe Htr (past & now & Hnd & Hin & Hlen & Hnow)] Hn Hp.
  destruct Hnow as [b ->].
  assert (id = length past /\ n = {| buffer := b; onended := true; playback_state := Playing |})
    as [-> ->].
  { rewrite Hnd in Hn. apply lookup_app_Some in Hn as [Hn | [Hge Hn]].
    - eapply Forall_lookup_1 in Hin; [|exact Hn]. unfold inert in Hin.
      rewrite Hp in Hin. discriminate.
    - apply list_lookup_singleton_Some in Hn as [Hz <-]. split; [lia|reflexivity]. }
  destruct Hcur as (text & Hh & Hne).
  destruct rest as [|text' rest']; [discriminate|]. injection Hh as ->.
  exists text, rest'.
  pose proof (alter_app_r finish past
                [ {| buffer := b; onended := true; playback_state := Playing |} ] 0) as Halt.
  rewrite Nat.add_0_r in Halt. simpl in Halt.
  assert (forall t : list call,
            (((IP.trace q ++ Speaking true
                 :: played (length (IP.nodes q)) (IP.language q) done
                 ++ [Synthesize text (IP.language q);
                     Start (length (IP.nodes q) + length done)])
                ++ [Finished (length past)]) ++ t
             = IP.trace q ++ Speaking true
                 :: played (length (IP.nodes q)) (IP.language q) (done ++ [text]) ++ t)%list)
    as Htrace.
  { intros t. rewrite played_snoc, Hlen. rewrite <- !app_assoc. simpl.
    rewrite <- !app_assoc. reflexivity. }
  assert (exists past' now',
            (past ++ [finish {| buffer := b; onended := true; playback_state := Playing |}]
             = past' ++ now')%list
            /\ Forall (fun n => inert n = true) past'
            /\ length past' = length (IP.nodes q) + length (done ++ [text])
            /\ now' = []) as Hnodes.
  { eexists _, []. rewrite app_nil_r. repeat split.
    - apply Forall_app. split; [assumption|]. repeat constructor.
    - rewrite !length_app, Hlen. simpl. lia. }
  destruct s as [p l e sp ctx src qu st pe nd inv tr]; simpl in *; subst.
  unfold IP.ended, IP.playNextInQueue, IP.setIsSpeaking; simpl.
  rewrite Halt.
  destruct rest' as [|[|a t] rest'']; simpl.
  - exists Completed. split; [reflexivity|]. split; [right; reflexivity|].
    split; [discriminate|].
    split; simpl; auto; try discriminate.
  - exists Halted. split; [reflexivity|]. split; [right; reflexivity|].
    split; [discriminate|].
    split; simpl; auto; try discriminate.
    rewrite <- (app_nil_r (_ ++ [Finished _])%list). rewrite Htrace. reflexivity.
  - exists Synthesizing. split; [reflexivity|]. split; [left; reflexivity|].
    split; [discriminate|].
    split; simpl; auto; try discriminate.
    + eexists. split; [reflexivity|discriminate].
    + eexists. reflexivity.
Qed.

Lemma over_quiet q done rest ph s :
  in_session q done rest ph s -> over ph = true ->
  IP.pending s = []
  /\ Forall (fun n => inert n = true) (IP.nodes s).
Proof.
  intros [Hl Hst Hsp Hsrc Hq Hcur Hpe Htr (past & now & Hnd & Hin & Hlen & Hnow)] Ho.
  destruct ph; try discriminate; simpl in *; subst now;
    rewrite app_nil_r in Hnd; rewrite Hnd; auto.
Qed.

Lemma inert_ending (n : AudioBufferSourceNode) :
  inert n = true -> playback_state n <> Ended ->
  playback_state n = Ending /\ onended n = false.
Proof.
  unfold inert. destruct (playback_state n); try discriminate; try congruence.
  destruct (onended n); try discriminate. auto.
Qed.

Lemma step_session q done rest ph s e s' :
  in_session q done rest ph s ->
  IP.settlement e = true ->
  IP.step s e = Some s' ->
  exists done' rest' ph',
    (done ++ rest = done' ++ rest')%list
    /\ in_session q done' rest' ph' s'
    /\ (over ph = true ->
          done' = done /\ rest' = rest /\ ph' = ph /\ IP.trace s' = IP.trace s)
    /\ (IP.throws s e = true -> done' = done /\ rest' = rest /\ ph' = Failed).
Proof.
  intros Hs He Hstep.
  assert (forall c o,
            IP.continue s e = Some o ->
            (exists k, find_task c (IP.pending s) = Some k) ->
            match o with
            | IP.Threw s1 => in_session q done rest ph s1 /\ IP.pending s1 = IP.pending s
            | IP.Ran s1 =>
                exists ph', (waiting ph' = true \/ ph' = Sounding)
                            /\ in_session q done rest ph' s1
            end ->
            IP.step s e = Some (IP.try_catch c o) ->
            waiting ph = true ->
            exists done' rest' ph',
              (done ++ rest = done' ++ rest')%list
              /\ in_session q done' rest' ph' (IP.try_catch c o)
              /\ (over ph = true ->
                    done' = done /\ rest' = rest /\ ph' = ph
                    /\ IP.trace (IP.try_catch c o) = IP.trace s)
              /\ (IP.throws s e = true -> done' = done /\ rest' = rest /\ ph' = Failed))
    as Hgen.
  { intros c o Hco [k Hk] Ho _ Hw. unfold IP.throws. rewrite Hco.
    destruct o as [s1|s1]; simpl.
    - destruct Ho as (ph' & Hph' & Hs1). exists done, rest, ph'.
      split; [reflexivity|]. split; [assumption|].
      split; [intros Hov; destruct ph; discriminate | intros; discriminate].
    - destruct Ho as [Hs1 Hp1]. exists done, rest, Failed.
      split; [reflexivity|]. split.
      + eapply catch_failed; eauto. rewrite Hp1. exact Hk.
      + split; [intros Hov; destruct ph; discriminate | auto]. }
  assert (forall c, (exists k, find_task c (IP.pending s) = Some k) -> waiting ph = true)
    as Hwait.
  { intros c [k Hk]. destruct ph; try reflexivity;
      rewrite (ses_pending _ _ _ _ _ Hs) in Hk; discriminate. }
  destruct e as [| | | | |c r|c ok|c|id]; try discriminate; simpl in Hstep.
  - destruct (find_task c (IP.pending s)) as [[text| |]|] eqn:Hc; try discriminate.
    injection Hstep as <-.
    eapply Hgen; eauto; [simpl; rewrite Hc; reflexivity| |simpl; rewrite Hc; reflexivity].
    pose proof (after_synthesis_session q done rest ph s c text r Hs (Hwait c (ex_intro _ _ Hc)) Hc) as H.
    destruct (IP.after_synthesis c text r s); [|exact H].
    destruct H as (ph' & ? & ?); eauto.
  - destruct (find_task c (IP.pending s)) as [[|d|]|] eqn:Hc; try discriminate.
    injection Hstep as <-.
    eapply Hgen; eauto; [simpl; rewrite Hc; reflexivity| |simpl; rewrite Hc; reflexivity].
    destruct ok; [|auto].
    pose proof (after_resume_session q done rest ph s c _ d Hs (Hwait c (ex_intro _ _ Hc)) Hc) as H.
    destruct (IP.after_resume c d s); [|subst; auto].
    exists Decoding. auto.
  - destruct (find_task c (IP.pending s)) as [[| |b]|] eqn:Hc; try discriminate.
    injection Hstep as <-.
    eapply Hgen; eauto; [simpl; rewrite Hc; reflexivity| |simpl; rewrite Hc; reflexivity].
    pose proof (after_decode_session q done rest ph s c b Hs (Hwait c (ex_intro _ _ Hc)) Hc) as H.
    destruct (IP.after_decode c b s); [|subst; auto].
    exists Sounding. auto.
  - destruct (IP.nodes s !! id) as [n|] eqn:Hn; [|discriminate].
    assert (s' = IP.ended id n s /\ playback_state n <> Ended) as [-> Hne].
    { destruct (playback_state n); try discriminate; injection Hstep as <-; split;
        auto; discriminate. }
    clear Hstep. unfold IP.throws; simpl.
    destruct (playback_state n) eqn:Hp; [| |congruence].
    + (* a sounding node ends *)
      assert (ph = Sounding) as ->.
      { destruct Hs as [_ _ _ _ _ _ _ _ (past & now & Hnd & Hin & _ & Hnow)].
        rewrite Hnd in Hn. apply lookup_app_Some in Hn as [Hn | [Hge Hn]].
        - eapply Forall_lookup_1 in Hin; [|exact Hn]. unfold inert in Hin.
          rewrite Hp in Hin. discriminate.
        - destruct ph; simpl in Hnow; try reflexivity;
            rewrite Hnow, lookup_nil in Hn; discriminate. }
      destruct (ended_sounding q done rest s id n Hs Hn Hp)
        as (text & rest' & ph' & -> & _ & _ & Hs').
      exists (done ++ [text])%list, rest', ph'. rewrite <- app_assoc.
      split; [reflexivity|]. split; [assumption|]. split; intros; discriminate.
    + (* the event of a node that was stopped *)
      assert (onended n = false) as Ho.
      { destruct Hs as [_ _ _ _ _ _ _ _ (past & now & Hnd & Hin & _ & Hnow)].
        rewrite Hnd in Hn. apply lookup_app_Some in Hn as [Hn | [Hge Hn]].
        - eapply Forall_lookup_1 in Hin; [|exact Hn].
          apply inert_ending in Hin as [_ ?]; auto. congruence.
        - destruct ph; simpl in Hnow;
            try (rewrite Hnow, lookup_nil in Hn; discriminate).
          destruct Hnow as [b ->]. apply list_lookup_singleton_Some in Hn as [_ <-].
          discriminate. }
      destruct (ended_past q done rest ph s id n Hs Hn Hp Ho) as [Hs' Ht].
      exists done, rest, ph.
      split; [reflexivity|]. split; [assumption|]. split; [auto | intros; discriminate].
Qed.

Lemma run_session q done rest ph s es s' :
  in_session q done rest ph s ->
  forallb IP.settlement es = true ->
  IP.run s es = Some s' ->
  exists done' rest' ph',
    (done ++ rest = done' ++ rest')%list /\ in_session q done' rest' ph' s'.
Proof.
  revert done rest ph s. induction es as [|e es IH]; intros done rest ph s Hs Hes Hrun.
  - injection Hrun as <-. eauto.
  - simpl in Hes, Hrun. apply andb_prop in Hes as [He Hes].
    destruct (IP.step s e) as [s1|] eqn:Hstep; [|discriminate].
    destruct (step_session _ _ _ _ _ _ _ Hs He Hstep) as (d1 & r1 & p1 & -> & Hs1 & _).
    eapply IH; eauto.
Qed.

Lemma run_over q done rest ph s es s' :
  in_session q done rest ph s ->
  over ph = true ->
  forallb IP.settlement es = true ->
  IP.run s es = Some s' ->
  in_session q done rest ph s' /\ IP.trace s' = IP.trace s.
Proof.
  revert s. induction es as [|e es IH]; intros s Hs Ho Hes Hrun.
  - injection Hrun as <-. auto.
  - simpl in Hes, Hrun. apply andb_prop in Hes as [He Hes].
    destruct (IP.step s e) as [s1|] eqn:Hstep; [|discriminate].
    destruct (step_session _ _ _ _ _ _ _ Hs He Hstep) as (d1 & r1 & p1 & _ & Hs1 & Hst & _).
    destruct (Hst Ho) as (-> & -> & -> & Ht).
    destruct (IH s1 Hs1 Ho Hes Hrun) as [? ?]. split; [assumption|congruence].
Qed.

Lemma session_begins q segs es s' :
  idle q = true ->
  forallb IP.settlement es = true ->
  IP.run (IP.enqueueAndPlay segs q) es = Some s' ->
  exists done rest ph, segs = (done ++ rest)%list /\ in_session q done rest ph s'.
Proof.
  intros Hq Hes Hrun. destruct (enqueue_in_session q segs Hq) as [ph Hs].
  destruct (run_session _ _ _ _ _ _ _ Hs Hes Hrun) as (d & r & p & Heq & Hs').
  simpl in Heq. eauto.
Qed.

(** The calls of a session, by phase. *)
Lemma session_finishes q done rest ph s :
  in_session q done rest ph s ->
  length (finishes (IP.trace s)) = length (finishes (IP.trace q)) + length done.
Proof.
  intros Hs. rewrite (ses_trace _ _ _ _ _ Hs). unfold finishes.
  rewrite omap_app, length_app. simpl. rewrite omap_app, length_app.
  fold (finishes (played (length (IP.nodes q)) (IP.language q) done)).
  rewrite finishes_played. destruct ph; simpl; lia.
Qed.

Lemma session_reports q done rest ph s :
  in_session q done rest ph s ->
  reports (IP.trace s)
  = (reports (IP.trace q)
       ++ match ph with
          | Failed => ["Failed to generate or play audio for a segment."]
          | _ => []
          end)%list.
Proof.
  intros Hs. rewrite (ses_trace _ _ _ _ _ Hs). unfold reports.
  rewrite omap_app. simpl. rewrite omap_app.
  fold (reports (played (length (IP.nodes q)) (IP.language q) done)).
  rewrite reports_played. destruct ph; reflexivity.
Qed.

Lemma synth_calls_app (t1 t2 : list call) :
  synth_calls (t1 ++ t2) = (synth_calls t1 ++ synth_calls t2)%list.
Proof. apply omap_app. Qed.

Lemma session_calls q done rest ph s :
  in_session q done rest ph s ->
  ph <> Failed -> ph <> Halted ->
  exists t,
    IP.trace s = (IP.trace q ++ t)%list
    /\ t `prefix_of` whole q (done ++ rest)
    /\ synth_calls t `prefix_of` (done ++ rest)%list
    /\ (ph = Completed -> t = whole q (done ++ rest) /\ synth_calls t = (done ++ rest)%list).
Proof.
  intros Hs Hf Hh. eexists. split; [apply (ses_trace _ _ _ _ _ Hs)|].
  pose proof (ses_current _ _ _ _ _ Hs) as Hcur.
  unfold whole. rewrite played_app.
  change (synth_calls (Speaking true :: ?l)) with (synth_calls l).
  rewrite synth_calls_app, synth_calls_played.
  destruct ph; try congruence; simpl in Hcur;
    try (destruct Hcur as (text & Hh' & Hne);
         destruct rest as [|text' rest']; [discriminate|]; injection Hh' as ->; simpl).
  - split; [|split; [|discriminate]].
    + eexists. simpl. rewrite <- !app_assoc. simpl. reflexivity.
    + exists rest'. rewrite <- app_assoc. reflexivity.
  - split; [|split; [|discriminate]].
    + eexists. simpl. rewrite <- !app_assoc. simpl. reflexivity.
    + exists rest'. rewrite <- app_assoc. reflexivity.
  - split; [|split; [|discriminate]].
    + eexists. simpl. rewrite <- !app_assoc. simpl. reflexivity.
    + exists rest'. rewrite <- app_assoc. reflexivity.
  - split; [|split; [|discriminate]].
    + eexists. simpl. rewrite <- !app_assoc. simpl. reflexivity.
    + exists rest'. rewrite <- app_assoc. reflexivity.
  - subst rest. simpl. rewrite !app_nil_r. split; [|split]; [reflexivity | reflexivity | auto].
Qed.

Lemma active_app (l1 l2 : list AudioBufferSourceNode) :
  active (l1 ++ l2) = active l1 + active l2.
Proof. unfold active. rewrite List.filter_app, length_app. reflexivity. Qed.

Lemma active_inert (l : list AudioBufferSourceNode) :
  Forall (fun n => inert n = true) l -> active l = 0.
Proof.
  induction 1 as [|n l Hn _ IH]; [reflexivity|].
  unfold active in *. simpl. unfold is_playing, inert in *.
  destruct (playback_state n); try discriminate; exact IH.
Qed.

Lemma session_active q done rest ph s :
  in_session q done rest ph s ->
  active (IP.nodes s) = match ph with Sounding => 1 | _ => 0 end.
Proof.
  intros [_ _ _ _ _ _ _ _ (past & now & -> & Hin & _ & Hnow)].
  rewrite active_app, active_inert by assumption.
  destruct ph; simpl in Hnow; try (subst now; reflexivity).
  destruct Hnow as [b ->]. reflexivity.
Qed.

Lemma session_pending q done rest ph s :
  in_session q done rest ph s ->
  length (IP.pending s) = if waiting ph then 1 else 0.
Proof.
  intros Hs. pose proof (ses_pending _ _ _ _ _ Hs) as H.
  destruct ph; simpl in *; decompose record H; subst;
    try match goal with E : IP.pending s = _ |- _ => rewrite E end; reflexivity.
Qed.

Lemma quiet_over q done rest ph s :
  in_session q done rest ph s -> IP.quiet s = true -> over ph = true.
Proof.
  intros Hs Hq. unfold IP.quiet in Hq. apply andb_prop in Hq as [Hp Ha].
  pose proof (session_pending _ _ _ _ _ Hs) as Hl.
  pose proof (session_active _ _ _ _ _ Hs) as Hact.
  destruct ph; try reflexivity; simpl in *.
  - destruct (IP.pending s); discriminate.
  - destruct (IP.pending s); discriminate.
  - destruct (IP.pending s); discriminate.
  - rewrite Hact in Ha. discriminate.
Qed.

End SessionFacts.

(** ** A session can be carried to its end *)

Section Progress.
Context {U : AudioUtils}.


Lemma synthesis_returns (d text lang : string) :
  d <> "" -> getTextToSpeechAudio (fun _ => Fixture.ok d) text lang = inl d.
Proof. destruct d; [congruence | reflexivity]. Qed.

Variables (d : string) (decodedBytes : list byte) (audioBuffer : AudioBuffer).
Hypothesis payload : d <> "".
Hypothesis decodable : decode d = Some decodedBytes.
Hypothesis playable : decodeAudioData decodedBytes 24000 1 = Some audioBuffer.

Local Ltac crank :=
  repeat first
    [ progress simpl
    | rewrite Nat.eqb_refl
    | progress unfold IP.after_synthesis, IP.after_resume, IP.after_decode, put_task
    | rewrite synthesis_returns by assumption
    | rewrite decodable
    | rewrite playable ].




End Progress.

(** ** What a session does *)

Section SessionTheorems.
Context {U : AudioUtils}.

Lemma append_nonempty (a b : string) : b <> "" -> a ++ b <> "".
Proof. intros Hb. destruct a; [exact Hb | discriminate]. Qed.

(** The segments [handleSpeak] queues are never empty strings, so the
    sessions it starts are covered by [sequential_synthesis] below. *)
Lemma textChunks_nonempty (p : Types.PortfolioPrediction) :
  IP.textChunks p <> [] /\ Forall (fun text => text <> "") (IP.textChunks p).
Proof.
  split; [discriminate|]. unfold IP.textChunks. constructor; [discriminate|].
  apply Forall_map. apply Forall_forall. intros item _. unfold IP.chunk.
  apply append_nonempty. discriminate.
Qed.




(** C10.  When the head of the queue is the empty string and no stop was
    asked for, [playNextInQueue] only removes it.  So in a session with an
    empty segment, once the segments before it have been played,
    [isSpeaking] is still true, the segments after it are still queued,
    nothing is awaited, nothing sounds, only the segments before it were
    synthesized, and no settlement changes any of this. *)
Theorem empty_segment_halts :
  (forall (s : IP.state) (rest : list string),
      IP.isStoppedManuallyRef s = false ->
      IP.audioQueueRef s = "" :: rest ->
      IP.playNextInQueue s = IP.with_queue rest s)
  /\ (forall (q : IP.state) (before after : list string) (es : list IP.event) (s' : IP.state),
        idle q = true ->
        forallb IP.settlement es = true ->
        IP.run (IP.enqueueAndPlay (before ++ "" :: after) q) es = Some s' ->
        length (finishes (IP.trace s'))
          = length (finishes (IP.trace q)) + length before ->
        IP.isSpeaking s' = true
        /\ IP.audioQueueRef s' = after
        /\ IP.pending s' = []
        /\ active (IP.nodes s') = 0
        /\ synth_calls (IP.trace s') = (synth_calls (IP.trace q) ++ before)%list
        /\ (forall (es' : list IP.event) (s'' : IP.state),
              forallb IP.settlement es' = true ->
              IP.run s' es' = Some s'' ->
              IP.trace s'' = IP.trace s' /\ IP.isSpeaking s'' = true
              /\ IP.audioQueueRef s'' = after)).
Proof.
  split.
  - intros s rest Hst Hq. unfold IP.playNextInQueue. rewrite Hst, Hq. reflexivity.
  - intros q before after es s' Hq Hes Hrun Hfin.
    destruct (session_begins q _ es s' Hq Hes Hrun) as (done & rest & ph & Heq & Hs).
    rewrite (session_finishes _ _ _ _ _ Hs) in Hfin.
    assert (done = before /\ rest = "" :: after) as [-> ->].
    { apply app_inj_1 in Heq; [destruct Heq; auto | lia]. }
    assert (ph = Halted) as ->.
    { pose proof (ses_current _ _ _ _ _ Hs) as Hc.
      destruct ph; simpl in Hc; try reflexivity; try discriminate;
        destruct Hc as (? & [= <-] & ?); congruence. }
    assert (forall s0, in_session q before ("" :: after) Halted s0 ->
              IP.isSpeaking s0 = true /\ IP.audioQueueRef s0 = after) as Hhalt.
    { intros s0 Hs0. split;
        [apply (ses_speaking _ _ _ _ _ Hs0) | apply (ses_queue _ _ _ _ _ Hs0)]. }
    destruct (Hhalt s' Hs) as [Hsp Hqu].
    split; [exact Hsp|]. split; [exact Hqu|].
    split; [apply (ses_pending _ _ _ _ _ Hs)|].
    split; [apply (session_active _ _ _ _ _ Hs)|].
    split.
    + rewrite (ses_trace _ _ _ _ _ Hs). simpl. rewrite app_nil_r, synth_calls_app.
      change (synth_calls (Speaking true :: ?l)) with (synth_calls l).
      rewrite synth_calls_played. reflexivity.
    + intros es' s'' Hes' Hrun'.
      destruct (run_over _ _ _ _ _ _ _ Hs eq_refl Hes' Hrun') as [Hs'' Ht''].
      split; [exact Ht''|]. apply (Hhalt _ Hs'').
Qed.

End SessionTheorems.

(** ** Where the buffers come from *)

Section Provenance.
Context {U : AudioUtils}.

Lemma Forall_drop_task (P : nat * continuation -> Prop) c l :
  Forall P l -> Forall P (drop_task c l).
Proof.
  induction 1 as [|[c' k] l HP _ IH]; simpl; [constructor|].
  destruct (Nat.eqb c c'); [assumption | constructor; assumption].
Qed.

Lemma Forall_put_task (P : nat * continuation -> Prop) c k l :
  Forall P l -> P (c, k) -> Forall P (put_task c k l).
Proof.
  intros Hl Hk. unfold put_task. apply Forall_app. split.
  - apply Forall_drop_task, Hl.
  - repeat constructor. exact Hk.
Qed.

Lemma Forall_find_task (P : nat * continuation -> Prop) c k l :
  Forall P l -> find_task c l = Some k -> exists c', P (c', k).
Proof.
  induction 1 as [|[c' k'] l HP _ IH]; simpl; [discriminate|].
  destruct (Nat.eqb c c'); [intros [= <-]; eauto | exact IH].
Qed.

Lemma starts_snoc (t : list call) (o : call) :
  starts (t ++ [o]) = (starts t ++ match o with Start id => [id] | _ => [] end)%list.
Proof. unfold starts. rewrite omap_app. destruct o; reflexivity. Qed.

Lemma provenance_alter pe nd t (f : AudioBufferSourceNode -> AudioBufferSourceNode) id :
  (forall n, buffer (f n) = buffer n) ->
  provenance pe nd t -> provenance pe (alter f id nd) t.
Proof.
  intros Hf (Hp & Hn & Hs). repeat split; [assumption| |].
  - apply Forall_alter; [assumption|]. intros n _. rewrite Hf. auto.
  - rewrite length_alter. assumption.
Qed.

Lemma provenance_start pe nd t c b :
  provenance pe nd t ->
  decoded_24k_mono b ->
  provenance (drop_task c pe)
    (nd ++ [ {| buffer := b; onended := true; playback_state := Playing |} ])
    (t ++ [Start (length nd)]).
Proof.
  intros (Hp & Hn & Hs) Hb. repeat split.
  - apply Forall_drop_task, Hp.
  - apply Forall_app. split; [assumption|]. repeat constructor. exact Hb.
  - rewrite starts_snoc, Hs, length_app. simpl. rewrite Nat.add_1_r, seq_S. reflexivity.
Qed.

Lemma provenance_silent pe nd t o :
  match o with Start _ => False | _ => True end ->
  provenance pe nd t -> provenance pe nd (t ++ [o]).
Proof.
  intros Ho (Hp & Hn & Hs). repeat split; auto.
  rewrite starts_snoc. destruct o; try contradiction; rewrite app_nil_r; exact Hs.
Qed.

Lemma provenance_pending pe pe' nd t :
  Forall (fun ck => sourced (snd ck)) pe' ->
  provenance pe nd t -> provenance pe' nd t.
Proof. intros H (_ & ? & ?). repeat split; auto. Qed.

Lemma ip_setIsSpeaking b s : ip_ok s -> ip_ok (IP.setIsSpeaking b s).
Proof.
  unfold ip_ok, IP.setIsSpeaking. destruct (Bool.eqb _ _); [auto|]. simpl.
  apply provenance_silent. exact I.
Qed.

Lemma ip_setError e s : ip_ok s -> ip_ok (IP.setError e s).
Proof.
  unfold ip_ok, IP.setError. simpl. destruct e; [apply provenance_silent; exact I|].
  rewrite app_nil_r. auto.
Qed.

Lemma ip_playNextInQueue s : ip_ok s -> ip_ok (IP.playNextInQueue s).
Proof.
  intros H. unfold IP.playNextInQueue.
  destruct (_ || _).
  - apply (ip_setIsSpeaking false) in H. exact H.
  - destruct (IP.shift (IP.audioQueueRef s)) as [[[|a t]|] rest]; try exact H.
    unfold ip_ok in *. simpl.
    destruct H as (Hp & Hn & Hs). repeat split.
    + apply Forall_app. split; [assumption | repeat constructor].
    + assumption.
    + rewrite starts_snoc, app_nil_r. assumption.
Qed.

Lemma ip_stopPlayback s : ip_ok s -> ip_ok (IP.stopPlayback s).
Proof.
  intros H. unfold IP.stopPlayback. apply ip_setIsSpeaking.
  unfold ip_ok in *. simpl. destruct (IP.audioSourceRef s); simpl; [|exact H].
  apply provenance_silent; [exact I|]. apply provenance_alter; [reflexivity|exact H].
Qed.

Lemma ip_catch c s : ip_ok s -> ip_ok (IP.catch c s).
Proof.
  intros H. unfold IP.catch. apply ip_setIsSpeaking, ip_setError.
  unfold ip_ok in *. simpl. eapply provenance_pending; [|exact H].
  apply Forall_drop_task, H.
Qed.

Lemma ip_after_resume c d s :
  ip_ok s -> returned d -> ip_ok (IP.try_catch c (IP.after_resume c d s)).
Proof.
  intros H Hd. unfold IP.after_resume. destruct (decode d) as [b|] eqn:Hb; simpl.
  - unfold ip_ok in *. simpl. eapply provenance_pending; [|exact H].
    apply Forall_put_task; [apply H|]. simpl. eauto.
  - apply ip_catch, H.
Qed.

Lemma ip_step s e s' : ip_ok s -> IP.step s e = Some s' -> ip_ok s'.
Proof.
  intros H Hstep.
  destruct e as [| |p| | |c r|c ok|c|id]; simpl in Hstep.
  - injection Hstep as <-. unfold IP.handleSpeak.
    destruct (IP.prediction s); [|exact H].
    destruct (IP.isSpeaking s); [apply ip_stopPlayback, H|].
    unfold IP.enqueueAndPlay. apply ip_playNextInQueue.
    apply (ip_setError None), (ip_setIsSpeaking true) in H. exact H.
  - injection Hstep as <-. unfold IP.handleSubmit. apply ip_stopPlayback.
    apply (ip_setError None) in H. exact H.
  - injection Hstep as <-. exact H.
  - injection Hstep as <-. apply ip_setError, H.
  - injection Hstep as <-. apply ip_stopPlayback, H.
  - destruct (find_task c (IP.pending s)) as [[text| |]|] eqn:Hc; try discriminate.
    injection Hstep as <-. unfold IP.after_synthesis.
    destruct (getTextToSpeechAudio _ _ _) as [d|] eqn:Hd; [|apply ip_catch, H].
    assert (returned d) as Hr by (unfold returned; eauto).
    destruct (acquire (IP.audioContextRef s)).
    + apply ip_after_resume; assumption.
    + simpl. unfold ip_ok in *. simpl. eapply provenance_pending; [|exact H].
      apply Forall_put_task; [apply H|]. exact Hr.
    + apply ip_after_resume; assumption.
  - destruct (find_task c (IP.pending s)) as [[|d|]|] eqn:Hc; try discriminate.
    injection Hstep as <-.
    destruct (Forall_find_task _ _ _ _ (proj1 H) Hc) as [c' Hr]. simpl in Hr.
    destruct ok; [apply ip_after_resume; assumption | apply ip_catch, H].
  - destruct (find_task c (IP.pending s)) as [[| |b]|] eqn:Hc; try discriminate.
    injection Hstep as <-.
    destruct (Forall_find_task _ _ _ _ (proj1 H) Hc) as [c' (d & (g & text & lang & Hg) & Hd)].
    unfold IP.after_decode.
    destruct (decodeAudioData b 24000 1) as [buf|] eqn:Hb; [|apply ip_catch, H].
    simpl. unfold ip_ok in *. simpl. apply provenance_start; [exact H|].
    unfold decoded_24k_mono. eauto 10.
  - destruct (IP.nodes s !! id) as [n|]; [|discriminate].
    assert (s' = IP.ended id n s) as ->
      by (destruct (playback_state n); congruence).
    unfold IP.ended.
    assert (ip_ok (IP.with_nodes (alter finish id (IP.nodes s)) s)) as H1.
    { unfold ip_ok in *. simpl. apply provenance_alter; [reflexivity|exact H]. }
    assert (ip_ok (if is_playing n
                   then IP.emit (Finished id)
                          (IP.with_nodes (alter finish id (IP.nodes s)) s)
                   else IP.with_nodes (alter finish id (IP.nodes s)) s)) as H2.
    { destruct (is_playing n); [|exact H1]. unfold ip_ok in *. simpl.
      apply provenance_silent; [exact I|exact H1]. }
    destruct (onended n); [|exact H2]. apply ip_playNextInQueue. exact H2.
Qed.

Lemma ip_run s es s' : ip_ok s -> IP.run s es = Some s' -> ip_ok s'.
Proof.
  revert s. induction es as [|e es IH]; intros s H Hrun; simpl in Hrun.
  - injection Hrun as <-. exact H.
  - destruct (IP.step s e) as [s1|] eqn:Hstep; [|discriminate].
    eapply IH; [|exact Hrun]. eapply ip_step; eauto.
Qed.

Lemma fa_setIsSpeaking b s : fa_ok s -> fa_ok (FA.setIsSpeaking b s).
Proof.
  unfold fa_ok, FA.setIsSpeaking. destruct (Bool.eqb _ _); [auto|]. simpl.
  apply provenance_silent. exact I.
Qed.

Lemma fa_setError e s : fa_ok s -> fa_ok (FA.setError e s).
Proof.
  unfold fa_ok, FA.setError. simpl. destruct e; [apply provenance_silent; exact I|].
  rewrite app_nil_r. auto.
Qed.

Lemma fa_stopPlayback s : fa_ok s -> fa_ok (FA.stopPlayback s).
Proof.
  intros H. unfold FA.stopPlayback. apply fa_setIsSpeaking.
  unfold fa_ok in *. simpl. destruct (FA.audioSourceRef s); simpl; [|exact H].
  apply provenance_silent; [exact I|]. apply provenance_alter; [reflexivity|exact H].
Qed.

Lemma fa_catch c s : fa_ok s -> fa_ok (FA.catch c s).
Proof.
  intros H. unfold FA.catch. apply fa_setIsSpeaking, fa_setError.
  unfold fa_ok in *. simpl. eapply provenance_pending; [|exact H].
  apply Forall_drop_task, H.
Qed.

Lemma fa_after_resume c d s :
  fa_ok s -> returned d -> fa_ok (FA.try_catch c (FA.after_resume c d s)).
Proof.
  intros H Hd. unfold FA.after_resume. destruct (decode d) as [b|] eqn:Hb; simpl.
  - unfold fa_ok in *. simpl. eapply provenance_pending; [|exact H].
    apply Forall_put_task; [apply H|]. simpl. eauto.
  - apply fa_catch, H.
Qed.

Lemma fa_step s e s' : fa_ok s -> FA.step s e = Some s' -> fa_ok s'.
Proof.
  intros H Hstep.
  destruct e as [| |a| | |c r|c ok|c|id]; simpl in Hstep.
  - injection Hstep as <-. unfold FA.handleSpeak.
    destruct (FA.advice s); [|exact H].
    destruct (FA.isSpeaking s); [apply fa_stopPlayback, H|].
    apply (fa_setIsSpeaking true), (fa_setError None) in H.
    unfold fa_ok in *. simpl. destruct H as (Hp & Hn & Hs). repeat split.
    + apply Forall_app. split; [assumption | repeat constructor].
    + assumption.
    + rewrite starts_snoc, app_nil_r. assumption.
  - injection Hstep as <-. unfold FA.handleSubmit. apply fa_stopPlayback.
    apply (fa_setError None) in H. exact H.
  - injection Hstep as <-. exact H.
  - injection Hstep as <-. apply fa_setError, H.
  - injection Hstep as <-. exact H.
  - destruct (find_task c (FA.pending s)) as [[text| |]|] eqn:Hc; try discriminate.
    injection Hstep as <-. unfold FA.after_synthesis.
    destruct (getTextToSpeechAudio _ _ _) as [d|] eqn:Hd; [|apply fa_catch, H].
    assert (returned d) as Hr by (unfold returned; eauto).
    destruct (acquire (FA.audioContextRef s)).
    + apply fa_after_resume; assumption.
    + simpl. unfold fa_ok in *. simpl. eapply provenance_pending; [|exact H].
      apply Forall_put_task; [apply H|]. exact Hr.
    + apply fa_after_resume; assumption.
  - destruct (find_task c (FA.pending s)) as [[|d|]|] eqn:Hc; try discriminate.
    injection Hstep as <-.
    destruct (Forall_find_task _ _ _ _ (proj1 H) Hc) as [c' Hr]. simpl in Hr.
    destruct ok; [apply fa_after_resume; assumption | apply fa_catch, H].
  - destruct (find_task c (FA.pending s)) as [[| |b]|] eqn:Hc; try discriminate.
    injection Hstep as <-.
    destruct (Forall_find_task _ _ _ _ (proj1 H) Hc) as [c' (d & (g & text & lang & Hg) & Hd)].
    unfold FA.after_decode.
    destruct (decodeAudioData b 24000 1) as [buf|] eqn:Hb; [|apply fa_catch, H].
    assert (decoded_24k_mono buf) as Hbuf by (unfold decoded_24k_mono; eauto 10).
    simpl. unfold fa_ok in *. simpl.
    destruct (FA.audioSourceRef s) as [old|]; simpl.
    + apply provenance_start; [|exact Hbuf].
      apply provenance_alter; [reflexivity|exact H].
    + apply provenance_start; [exact H|exact Hbuf].
  - destruct (FA.nodes s !! id) as [n|]; [|discriminate].
    assert (s' = FA.ended id n s) as ->
      by (destruct (playback_state n); congruence).
    unfold FA.ended.
    assert (fa_ok (FA.with_nodes (alter finish id (FA.nodes s)) s)) as H1.
    { unfold fa_ok in *. simpl. apply provenance_alter; [reflexivity|exact H]. }
    assert (fa_ok (if is_playing n
                   then FA.emit (Finished id)
                          (FA.with_nodes (alter finish id (FA.nodes s)) s)
                   else FA.with_nodes (alter finish id (FA.nodes s)) s)) as H2.
    { destruct (is_playing n); [|exact H1]. unfold fa_ok in *. simpl.
      apply provenance_silent; [exact I|exact H1]. }
    destruct (onended n); [|exact H2].
    apply (fa_setIsSpeaking false) in H2. exact H2.
Qed.

Lemma fa_run s es s' : fa_ok s -> FA.run s es = Some s' -> fa_ok s'.
Proof.
  revert s. induction es as [|e es IH]; intros s H Hrun; simpl in Hrun.
  - injection Hrun as <-. exact H.
  - destruct (FA.step s e) as [s1|] eqn:Hstep; [|discriminate].
    eapply IH; [|exact Hrun]. eapply fa_step; eauto.
Qed.

(** C7.  In both components, whatever the events since mounting: the nodes
    are exactly the sources that were started, and the buffer of each was
    obtained by [decodeAudioData (decode audioData) 24000 1] from a string
    [audioData] that the synthesis returned. *)
Theorem buffers_decoded_24k_mono :
  (forall (es : list IP.event) (s : IP.state),
      IP.run IP.init es = Some s ->
      starts (IP.trace s) = seq 0 (length (IP.nodes s))
      /\ forall (id : nat) (n : AudioBufferSourceNode),
           IP.nodes s !! id = Some n -> decoded_24k_mono (buffer n))
  /\ (forall (es : list FA.event) (s : FA.state),
        FA.run FA.init es = Some s ->
        starts (FA.trace s) = seq 0 (length (FA.nodes s))
        /\ forall (id : nat) (n : AudioBufferSourceNode),
             FA.nodes s !! id = Some n -> decoded_24k_mono (buffer n)).
Proof.
  split; intros es s Hrun.
  - assert (ip_ok s) as (_ & Hn & Hs).
    { eapply ip_run; [|exact Hrun]. repeat split; constructor. }
    split; [exact Hs|]. intros id n Hid. eapply Forall_lookup_1 in Hn; eauto.
  - assert (fa_ok s) as (_ & Hn & Hs).
    { eapply fa_run; [|exact Hrun]. repeat split; constructor. }
    split; [exact Hs|]. intros id n Hid. eapply Forall_lookup_1 in Hn; eauto.
Qed.

End Provenance.

(** ** Stopping while a synthesis is in flight *)

Section Races.
Context {U : AudioUtils}.
Variables (d : string) (decodedBytes : list byte) (audioBuffer : AudioBuffer).
Hypothesis payload : d <> "".
Hypothesis decodable : decode d = Some decodedBytes.
Hypothesis playable : decodeAudioData decodedBytes 24000 1 = Some audioBuffer.

(* Runs a list of events on an explicit state. *)
Local Ltac crank :=
  repeat first
    [ progress cbn
    | progress simpl
    | progress unfold IP.after_resume, FA.after_resume
    | rewrite decodable
    | progress unfold IP.after_decode, FA.after_decode
    | rewrite playable ].

(** C1. The user asks to speak, presses the button again (which stops)
    while the first synthesis is still in flight, and then the synthesis
    and the decoding succeed: the segment is started all the same, after
    [isSpeaking] went back to false, and it sounds while the button shows
    that nothing does. *)
Theorem stop_during_synthesis_still_plays :
  forall p : Types.PortfolioPrediction,
    exists s,
      IP.run IP.init
        [IP.Loaded p; IP.Click; IP.Click;
         IP.SynthesisSettled 0 (Fixture.ok d); IP.DecodeSettled 0] = Some s
      /\ IP.trace s =
           [Speaking true;
            Synthesize ("Here is the overall summary of your portfolio prediction: "
                          ++ Types.overallSummary p) "English";
            Speaking false;
            Start 0]
      /\ IP.nodes s = [ {| buffer := audioBuffer; onended := true; playback_state := Playing |} ]
      /\ IP.isSpeaking s = false
      /\ active (IP.nodes s) = 1.
Proof.
  intros p. destruct d as [|a d'] eqn:Hd; [congruence|].
  eexists. split.
  - crank. reflexivity.
  - simpl. auto.
Qed.

(** C2. Speak, stop, speak again, and both syntheses in flight succeed:
    two sources sound at once, and only the second is referenced. *)
Theorem two_sources_after_restart :
  forall p : Types.PortfolioPrediction,
    exists s,
      IP.run IP.init
        [IP.Loaded p; IP.Click; IP.Click; IP.Click;
         IP.SynthesisSettled 0 (Fixture.ok d); IP.SynthesisSettled 1 (Fixture.ok d);
         IP.DecodeSettled 0; IP.DecodeSettled 1] = Some s
      /\ IP.nodes s =
           [ {| buffer := audioBuffer; onended := true; playback_state := Playing |};
             {| buffer := audioBuffer; onended := true; playback_state := Playing |} ]
      /\ active (IP.nodes s) = 2
      /\ IP.audioSourceRef s = Some 1.
Proof.
  intros p. destruct d as [|a d'] eqn:Hd; [congruence|].
  eexists. split.
  - crank. reflexivity.
  - simpl. auto.
Qed.

(** C8. The same story in both components: speak, let the audio start,
    destroy the view.  [InvestmentPredictor] releases its source;
    [FinanceAdvisor] runs nothing and its source goes on sounding. *)
Theorem unmount_while_sounding :
  forall (p : Types.PortfolioPrediction) (a : Types.FinancialAdvice),
    (exists s,
       IP.run IP.init
         [IP.Loaded p; IP.Click; IP.SynthesisSettled 0 (Fixture.ok d);
          IP.DecodeSettled 0; IP.Unmount] = Some s
       /\ active (IP.nodes s) = 0
       /\ releases (IP.trace s) = [0]
       /\ IP.audioSourceRef s = None
       /\ IP.pending s = [])
    /\ (exists s,
          FA.run FA.init
            [FA.Loaded a; FA.Click; FA.SynthesisSettled 0 (Fixture.ok d);
             FA.DecodeSettled 0; FA.Unmount] = Some s
          /\ active (FA.nodes s) = 1
          /\ releases (FA.trace s) = []
          /\ FA.audioSourceRef s = Some 0
          /\ FA.isSpeaking s = true).
Proof.
  intros p a. destruct d as [|c d'] eqn:Hd; [congruence|]. split.
  - eexists. split.
    + crank. reflexivity.
    + simpl. auto.
  - eexists. split.
    + crank. reflexivity.
    + simpl. auto.
Qed.

End Races.

(** ** Complements: where stopping does work, and where one source is sure *)

Section Complements.
Context {U : AudioUtils}.



(** In a session that is only continued by settlements at most one source
    sounds at any time. *)
Lemma session_one_source (q : IP.state) (segs : list string) (es : list IP.event)
    (s' : IP.state) :
  idle q = true ->
  forallb IP.settlement es = true ->
  IP.run (IP.enqueueAndPlay segs q) es = Some s' ->
  active (IP.nodes s') <= 1.
Proof.
  intros Hq Hes Hrun.
  destruct (session_begins q segs es s' Hq Hes Hrun) as (done & rest & ph & _ & Hs).
  rewrite (session_active _ _ _ _ _ Hs). destruct ph; lia.
Qed.

End Complements.

(** ** Further properties of the queued pipeline *)

Section MoreSessions.
Context {U : AudioUtils}.

(** X1. Pressing Speak with a prediction on screen and the pipeline idle
    reads the prediction in order: first the overall summary under its
    fixed introduction, then one text per portfolio item; as long as no
    failure is reported the calls made are a prefix of that reading, and
    once nothing is awaited and nothing sounds the whole prediction has
    been read and the button is back to Speak. *)
Theorem handleSpeak_reads_summary_then_items :
  forall (q : IP.state) (p : Types.PortfolioPrediction) (es : list IP.event) (s' : IP.state),
    IP.prediction q = Some p ->
    idle q = true ->
    forallb IP.settlement es = true ->
    IP.run (IP.handleSpeak q) es = Some s' ->
    reports (IP.trace s') = reports (IP.trace q) ->
    exists t,
      IP.trace s' = (IP.trace q ++ t)%list
      /\ t `prefix_of` whole q (IP.textChunks p)
      /\ synth_calls t `prefix_of`
           ("Here is the overall summary of your portfolio prediction: "
              ++ Types.overallSummary p)
           :: map IP.chunk (Types.portfolioAnalysis p)
      /\ (IP.quiet s' = true ->
            t = whole q (IP.textChunks p)
            /\ synth_calls t =
                 ("Here is the overall summary of your portfolio prediction: "
                    ++ Types.overallSummary p)
                 :: map IP.chunk (Types.portfolioAnalysis p)
            /\ IP.isSpeaking s' = false).
Proof.
  intros q p es s' Hp Hq Hes Hrun Hrep.
  destruct (idle_inv q Hq) as (Hsp & _ & _).
  unfold IP.handleSpeak in Hrun. rewrite Hp, Hsp in Hrun.
  destruct (session_begins q _ es s' Hq Hes Hrun) as (done & rest & ph & Heq & Hs).
  assert (ph <> Failed) as Hf.
  { intros ->. rewrite (session_reports _ _ _ _ _ Hs) in Hrep.
    apply (f_equal length) in Hrep. rewrite length_app in Hrep. simpl in Hrep. lia. }
  assert (ph <> Halted) as Hh.
  { intros ->. pose proof (ses_current _ _ _ _ _ Hs) as Hc. simpl in Hc.
    destruct (textChunks_nonempty p) as [_ Hne]. rewrite Heq in Hne.
    apply Forall_app in Hne as [_ Hne]. destruct rest as [|x rest]; [discriminate|].
    injection Hc as ->. inversion Hne; congruence. }
  destruct (session_calls _ _ _ _ _ Hs Hf Hh) as (t & Ht & Hpre & Hsy & Hc).
  rewrite <- Heq in Hpre, Hsy, Hc.
  exists t. split; [exact Ht|]. split; [exact Hpre|]. split; [exact Hsy|].
  intros Hquiet. pose proof (quiet_over _ _ _ _ _ Hs Hquiet) as Ho.
  assert (ph = Completed) as -> by (destruct ph; try discriminate; congruence).
  destruct (Hc eq_refl) as [Hw Hsc]. split; [exact Hw|]. split; [exact Hsc|].
  apply (ses_speaking _ _ _ _ _ Hs).
Qed.



End MoreSessions.


(** ** What both components keep *)

Section Handles.
Context {U : AudioUtils}.
Import Handle.

Lemma remembered_none nd : remembered nd None.
Proof. intros id [=]. Qed.

Lemma remembered_new nd b :
  remembered (nd ++ [ {| buffer := b; onended := true; playback_state := Playing |} ])
    (Some (length nd)).
Proof.
  intros id [= <-]. exists {| buffer := b; onended := true; playback_state := Playing |}.
  split; [|split; reflexivity].
  rewrite lookup_app_r by lia. rewrite Nat.sub_diag. reflexivity.
Qed.

Lemma ip_handle_setIsSpeaking b s :
  IP.nodes (IP.setIsSpeaking b s) = IP.nodes s
  /\ IP.audioSourceRef (IP.setIsSpeaking b s) = IP.audioSourceRef s.
Proof. unfold IP.setIsSpeaking. destruct (Bool.eqb _ _); auto. Qed.

Lemma ip_handle_playNextInQueue s :
  IP.nodes (IP.playNextInQueue s) = IP.nodes s
  /\ IP.audioSourceRef (IP.playNextInQueue s) = IP.audioSourceRef s.
Proof.
  unfold IP.playNextInQueue. destruct (_ || _).
  - simpl. apply ip_handle_setIsSpeaking.
  - destruct (IP.shift _) as [[[|a t]|] rest]; auto.
Qed.

Lemma ip_handle_stopPlayback s : IP.audioSourceRef (IP.stopPlayback s) = None.
Proof.
  unfold IP.stopPlayback. rewrite (proj2 (ip_handle_setIsSpeaking _ _)).
  destruct s as [p l e sp ctx [id|] qu st pe nd inv tr]; reflexivity.
Qed.

Lemma ip_handle_catch c s :
  IP.nodes (IP.catch c s) = IP.nodes s
  /\ IP.audioSourceRef (IP.catch c s) = IP.audioSourceRef s.
Proof.
  unfold IP.catch. destruct (ip_handle_setIsSpeaking false
    (IP.setError (Some "Failed to generate or play audio for a segment.")
       (IP.with_pending (drop_task c (IP.pending s)) s))) as [-> ->]. auto.
Qed.

Lemma ip_handle_after_resume c d s :
  IP.nodes (IP.try_catch c (IP.after_resume c d s)) = IP.nodes s
  /\ IP.audioSourceRef (IP.try_catch c (IP.after_resume c d s)) = IP.audioSourceRef s.
Proof.
  unfold IP.after_resume. destruct (decode d); simpl; [auto | apply ip_handle_catch].
Qed.

Lemma ip_remembered_step s e s' :
  remembered (IP.nodes s) (IP.audioSourceRef s) ->
  IP.step s e = Some s' ->
  remembered (IP.nodes s') (IP.audioSourceRef s').
Proof.
  intros H Hstep.
  destruct e as [| |p| | |c r|c ok|c|id]; simpl in Hstep.
  - injection Hstep as <-. unfold IP.handleSpeak.
    destruct (IP.prediction s); [|exact H].
    destruct (IP.isSpeaking s).
    + rewrite ip_handle_stopPlayback. apply remembered_none.
    + unfold IP.enqueueAndPlay.
      destruct (ip_handle_playNextInQueue
                  (IP.with_queue (IP.textChunks p)
                     (IP.with_stopped false (IP.setIsSpeaking true (IP.setError None s)))))
        as [-> ->]. simpl.
      destruct (ip_handle_setIsSpeaking true (IP.setError None s)) as [-> ->]. exact H.
  - injection Hstep as <-. unfold IP.handleSubmit.
    rewrite ip_handle_stopPlayback. apply remembered_none.
  - injection Hstep as <-. exact H.
  - injection Hstep as <-. exact H.
  - injection Hstep as <-. rewrite ip_handle_stopPlayback. apply remembered_none.
  - destruct (find_task c (IP.pending s)) as [[text| |]|]; try discriminate.
    injection Hstep as <-. unfold IP.after_synthesis.
    destruct (getTextToSpeechAudio _ _ _) as [d|].
    + destruct (acquire (IP.audioContextRef s)).
      * destruct (ip_handle_after_resume c d (IP.with_context (Some running) s)) as [-> ->].
        exact H.
      * exact H.
      * destruct (ip_handle_after_resume c d (IP.with_context (Some closed) s)) as [-> ->].
        exact H.
    + simpl. destruct (ip_handle_catch c s) as [-> ->]. exact H.
  - destruct (find_task c (IP.pending s)) as [[|d|]|]; try discriminate.
    injection Hstep as <-. destruct ok.
    + destruct (ip_handle_after_resume c d s) as [-> ->]. exact H.
    + simpl. destruct (ip_handle_catch c s) as [-> ->]. exact H.
  - destruct (find_task c (IP.pending s)) as [[| |b]|]; try discriminate.
    injection Hstep as <-. unfold IP.after_decode.
    destruct (decodeAudioData b 24000 1) as [buf|]; simpl.
    + apply remembered_new.
    + destruct (ip_handle_catch c s) as [-> ->]. exact H.
  - destruct (IP.nodes s !! id) as [n|] eqn:Hn; [|discriminate].
    assert (s' = IP.ended id n s) as -> by (destruct (playback_state n); congruence).
    unfold IP.ended. destruct (onended n) eqn:Ho.
    + match goal with |- context [IP.playNextInQueue ?x] =>
        destruct (ip_handle_playNextInQueue x) as [-> ->] end.
      simpl. apply remembered_none.
    + assert (remembered (alter finish id (IP.nodes s)) (IP.audioSourceRef s)) as H'.
      { intros id' Hid'. destruct (H id' Hid') as (n' & Hn' & Hp & Ho').
        exists n'. split; [|auto]. rewrite list_lookup_alter.
        destruct (decide (id = id')) as [->|Hne]; [congruence | exact Hn']. }
      destruct (is_playing n); exact H'.
Qed.

Lemma fa_handle_setIsSpeaking b s :
  FA.nodes (FA.setIsSpeaking b s) = FA.nodes s
  /\ FA.audioSourceRef (FA.setIsSpeaking b s) = FA.audioSourceRef s.
Proof. unfold FA.setIsSpeaking. destruct (Bool.eqb _ _); auto. Qed.

Lemma fa_handle_stopPlayback s : FA.audioSourceRef (FA.stopPlayback s) = None.
Proof.
  unfold FA.stopPlayback. rewrite (proj2 (fa_handle_setIsSpeaking _ _)).
  destruct s as [a l e sp ctx [id|] pe nd inv tr]; reflexivity.
Qed.

Lemma fa_handle_catch c s :
  FA.nodes (FA.catch c s) = FA.nodes s
  /\ FA.audioSourceRef (FA.catch c s) = FA.audioSourceRef s.
Proof.
  unfold FA.catch. destruct (fa_handle_setIsSpeaking false
    (FA.setError (Some "Failed to generate or play audio.")
       (FA.with_pending (drop_task c (FA.pending s)) s))) as [-> ->]. auto.
Qed.

Lemma fa_handle_after_resume c d s :
  FA.nodes (FA.try_catch c (FA.after_resume c d s)) = FA.nodes s
  /\ FA.audioSourceRef (FA.try_catch c (FA.after_resume c d s)) = FA.audioSourceRef s.
Proof.
  unfold FA.after_resume. destruct (decode d); simpl; [auto | apply fa_handle_catch].
Qed.

Lemma fa_remembered_step s e s' :
  remembered (FA.nodes s) (FA.audioSourceRef s) ->
  FA.step s e = Some s' ->
  remembered (FA.nodes s') (FA.audioSourceRef s').
Proof.
  intros H Hstep.
  destruct e as [| |a| | |c r|c ok|c|id]; simpl in Hstep.
  - injection Hstep as <-. unfold FA.handleSpeak.
    destruct (FA.advice s); [|exact H].
    destruct (FA.isSpeaking s).
    + rewrite fa_handle_stopPlayback. apply remembered_none.
    + simpl. destruct (fa_handle_setIsSpeaking true s) as [-> ->]. exact H.
  - injection Hstep as <-. unfold FA.handleSubmit.
    rewrite fa_handle_stopPlayback. apply remembered_none.
  - injection Hstep as <-. exact H.
  - injection Hstep as <-. exact H.
  - injection Hstep as <-. exact H.
  - destruct (find_task c (FA.pending s)) as [[text| |]|]; try discriminate.
    injection Hstep as <-. unfold FA.after_synthesis.
    destruct (getTextToSpeechAudio _ _ _) as [d|].
    + destruct (acquire (FA.audioContextRef s)).
      * destruct (fa_handle_after_resume c d (FA.with_context (Some running) s)) as [-> ->].
        exact H.
      * exact H.
      * destruct (fa_handle_after_resume c d (FA.with_context (Some closed) s)) as [-> ->].
        exact H.
    + simpl. destruct (fa_handle_catch c s) as [-> ->]. exact H.
  - destruct (find_task c (FA.pending s)) as [[|d|]|]; try discriminate.
    injection Hstep as <-. destruct ok.
    + destruct (fa_handle_after_resume c d s) as [-> ->]. exact H.
    + simpl. destruct (fa_handle_catch c s) as [-> ->]. exact H.
  - destruct (find_task c (FA.pending s)) as [[| |b]|]; try discriminate.
    injection Hstep as <-. unfold FA.after_decode.
    destruct (decodeAudioData b 24000 1) as [buf|]; simpl.
    + destruct (FA.audioSourceRef s); simpl; apply remembered_new.
    + destruct (fa_handle_catch c s) as [-> ->]. exact H.
  - destruct (FA.nodes s !! id) as [n|] eqn:Hn; [|discriminate].
    assert (s' = FA.ended id n s) as -> by (destruct (playback_state n); congruence).
    unfold FA.ended. destruct (onended n) eqn:Ho.
    + simpl. apply remembered_none.
    + assert (remembered (alter finish id (FA.nodes s)) (FA.audioSourceRef s)) as H'.
      { intros id' Hid'. destruct (H id' Hid') as (n' & Hn' & Hp & Ho').
        exists n'. split; [|auto]. rewrite list_lookup_alter.
        destruct (decide (id = id')) as [->|Hne]; [congruence | exact Hn']. }
      destruct (is_playing n); exact H'.
Qed.

(** X5. In both components, whatever happens after mounting, the source
    the component remembers in [audioSourceRef] is always a node that is
    sounding and has its completion handler attached: the reference is
    never left on a source that was stopped or has ended. *)
Theorem remembered_source_is_sounding :
  (forall (es : list IP.event) (s : IP.state),
      IP.run IP.init es = Some s ->
      forall id, IP.audioSourceRef s = Some id ->
        exists n, IP.nodes s !! id = Some n
                  /\ playback_state n = Playing /\ onended n = true)
  /\ (forall (es : list FA.event) (s : FA.state),
        FA.run FA.init es = Some s ->
        forall id, FA.audioSourceRef s = Some id ->
          exists n, FA.nodes s !! id = Some n
                    /\ playback_state n = Playing /\ onended n = true).
Proof.
  split.
  - intros es. assert (forall s0 s, remembered (IP.nodes s0) (IP.audioSourceRef s0) ->
                          IP.run s0 es = Some s ->
                          remembered (IP.nodes s) (IP.audioSourceRef s)) as Hrun.
    { induction es as [|e es IH]; intros s0 s H0 Hr; simpl in Hr.
      - injection Hr as <-. exact H0.
      - destruct (IP.step s0 e) as [s1|] eqn:Hstep; [|discriminate].
        eapply IH; [|exact Hr]. eapply ip_remembered_step; eauto. }
    intros s Hr. exact (Hrun IP.init s (remembered_none _) Hr).
  - intros es. assert (forall s0 s, remembered (FA.nodes s0) (FA.audioSourceRef s0) ->
                          FA.run s0 es = Some s ->
                          remembered (FA.nodes s) (FA.audioSourceRef s)) as Hrun.
    { induction es as [|e es IH]; intros s0 s H0 Hr; simpl in Hr.
      - injection Hr as <-. exact H0.
      - destruct (FA.step s0 e) as [s1|] eqn:Hstep; [|discriminate].
        eapply IH; [|exact Hr]. eapply fa_remembered_step; eauto. }
    intros s Hr. exact (Hrun FA.init s (remembered_none _) Hr).
Qed.

(** *** No empty text is ever sent to the synthesis *)

Lemma synth_calls_snoc (t : list call) (o : call) :
  synth_calls (t ++ [o])
  = (synth_calls t ++ match o with Synthesize text _ => [text] | _ => [] end)%list.
Proof. unfold synth_calls. rewrite omap_app. destruct o; reflexivity. Qed.

Lemma ip_said_setIsSpeaking b s :
  synth_calls (IP.trace (IP.setIsSpeaking b s)) = synth_calls (IP.trace s).
Proof.
  unfold IP.setIsSpeaking. destruct (Bool.eqb _ _); [reflexivity|]. simpl.
  rewrite synth_calls_snoc. apply app_nil_r.
Qed.

Lemma ip_said_setError e s :
  synth_calls (IP.trace (IP.setError e s)) = synth_calls (IP.trace s).
Proof.
  unfold IP.setError. simpl. destruct e; [|rewrite app_nil_r; reflexivity].
  rewrite synth_calls_snoc. apply app_nil_r.
Qed.

Lemma ip_said_stopPlayback s :
  synth_calls (IP.trace (IP.stopPlayback s)) = synth_calls (IP.trace s).
Proof.
  unfold IP.stopPlayback. rewrite ip_said_setIsSpeaking.
  destruct s as [p l e sp ctx [id|] qu st pe nd inv tr]; simpl; [|reflexivity].
  rewrite synth_calls_snoc. apply app_nil_r.
Qed.

Lemma ip_said_catch c s :
  synth_calls (IP.trace (IP.catch c s)) = synth_calls (IP.trace s).
Proof. unfold IP.catch. rewrite ip_said_setIsSpeaking, ip_said_setError. reflexivity. Qed.

Lemma ip_said_after_resume c d s :
  synth_calls (IP.trace (IP.try_catch c (IP.after_resume c d s))) = synth_calls (IP.trace s).
Proof.
  unfold IP.after_resume. destruct (decode d); simpl; [reflexivity | apply ip_said_catch].
Qed.

Lemma ip_said_playNextInQueue s :
  Forall (fun text => text <> "") (synth_calls (IP.trace s)) ->
  Forall (fun text => text <> "") (synth_calls (IP.trace (IP.playNextInQueue s))).
Proof.
  intros H. unfold IP.playNextInQueue. destruct (_ || _).
  - simpl. rewrite ip_said_setIsSpeaking. exact H.
  - destruct (IP.shift _) as [[[|a t]|] rest]; simpl; try exact H.
    rewrite synth_calls_snoc. apply Forall_app. split; [exact H|].
    repeat constructor. discriminate.
Qed.

Lemma ip_said_step s e s' :
  Forall (fun text => text <> "") (synth_calls (IP.trace s)) ->
  IP.step s e = Some s' ->
  Forall (fun text => text <> "") (synth_calls (IP.trace s')).
Proof.
  intros H Hstep.
  destruct e as [| |p| | |c r|c ok|c|id]; simpl in Hstep.
  - injection Hstep as <-. unfold IP.handleSpeak.
    destruct (IP.prediction s); [|exact H].
    destruct (IP.isSpeaking s); [rewrite ip_said_stopPlayback; exact H|].
    unfold IP.enqueueAndPlay. apply ip_said_playNextInQueue. simpl.
    rewrite ip_said_setIsSpeaking, ip_said_setError. exact H.
  - injection Hstep as <-. unfold IP.handleSubmit.
    rewrite ip_said_stopPlayback. simpl. rewrite app_nil_r. exact H.
  - injection Hstep as <-. exact H.
  - injection Hstep as <-. rewrite ip_said_setError. exact H.
  - injection Hstep as <-. rewrite ip_said_stopPlayback. exact H.
  - destruct (find_task c (IP.pending s)) as [[text| |]|]; try discriminate.
    injection Hstep as <-. unfold IP.after_synthesis.
    destruct (getTextToSpeechAudio _ _ _) as [d|].
    + destruct (acquire (IP.audioContextRef s)); try rewrite ip_said_after_resume; exact H.
    + simpl. rewrite ip_said_catch. exact H.
  - destruct (find_task c (IP.pending s)) as [[|d|]|]; try discriminate.
    injection Hstep as <-. destruct ok.
    + rewrite ip_said_after_resume. exact H.
    + simpl. rewrite ip_said_catch. exact H.
  - destruct (find_task c (IP.pending s)) as [[| |b]|]; try discriminate.
    injection Hstep as <-. unfold IP.after_decode.
    destruct (decodeAudioData b 24000 1) as [buf|]; simpl.
    + rewrite synth_calls_snoc, app_nil_r. exact H.
    + rewrite ip_said_catch. exact H.
  - destruct (IP.nodes s !! id) as [n|] eqn:Hn; [|discriminate].
    assert (s' = IP.ended id n s) as -> by (destruct (playback_state n); congruence).
    unfold IP.ended.
    assert (Forall (fun text => text <> "")
              (synth_calls (IP.trace
                 (if is_playing n
                  then IP.emit (Finished id) (IP.with_nodes (alter finish id (IP.nodes s)) s)
                  else IP.with_nodes (alter finish id (IP.nodes s)) s)))) as H'.
    { destruct (is_playing n); simpl; [|exact H].
      rewrite synth_calls_snoc, app_nil_r. exact H. }
    destruct (onended n); [|exact H']. apply ip_said_playNextInQueue. exact H'.
Qed.

Lemma fa_said_setIsSpeaking b s :
  synth_calls (FA.trace (FA.setIsSpeaking b s)) = synth_calls (FA.trace s).
Proof.
  unfold FA.setIsSpeaking. destruct (Bool.eqb _ _); [reflexivity|]. simpl.
  rewrite synth_calls_snoc. apply app_nil_r.
Qed.

Lemma fa_said_setError e s :
  synth_calls (FA.trace (FA.setError e s)) = synth_calls (FA.trace s).
Proof.
  unfold FA.setError. simpl. destruct e; [|rewrite app_nil_r; reflexivity].
  rewrite synth_calls_snoc. apply app_nil_r.
Qed.

Lemma fa_said_stopPlayback s :
  synth_calls (FA.trace (FA.stopPlayback s)) = synth_calls (FA.trace s).
Proof.
  unfold FA.stopPlayback. rewrite fa_said_setIsSpeaking.
  destruct s as [a l e sp ctx [id|] pe nd inv tr]; simpl; [|reflexivity].
  rewrite synth_calls_snoc. apply app_nil_r.
Qed.

Lemma fa_said_catch c s :
  synth_calls (FA.trace (FA.catch c s)) = synth_calls (FA.trace s).
Proof. unfold FA.catch. rewrite fa_said_setIsSpeaking, fa_said_setError. reflexivity. Qed.

Lemma fa_said_after_resume c d s :
  synth_calls (FA.trace (FA.try_catch c (FA.after_resume c d s))) = synth_calls (FA.trace s).
Proof.
  unfold FA.after_resume. destruct (decode d); simpl; [reflexivity | apply fa_said_catch].
Qed.

Lemma fullTextToSpeak_nonempty (a : Types.FinancialAdvice) : FA.fullTextToSpeak a <> "".
Proof. unfold FA.fullTextToSpeak. apply append_nonempty. discriminate. Qed.

Lemma fa_said_step s e s' :
  Forall (fun text => text <> "") (synth_calls (FA.trace s)) ->
  FA.step s e = Some s' ->
  Forall (fun text => text <> "") (synth_calls (FA.trace s')).
Proof.
  intros H Hstep.
  destruct e as [| |a| | |c r|c ok|c|id]; simpl in Hstep.
  - injection Hstep as <-. unfold FA.handleSpeak.
    destruct (FA.advice s) as [a|]; [|exact H].
    destruct (FA.isSpeaking s); [rewrite fa_said_stopPlayback; exact H|].
    simpl. rewrite synth_calls_snoc, app_nil_r, fa_said_setIsSpeaking.
    apply Forall_app. split; [exact H|]. repeat constructor.
    apply fullTextToSpeak_nonempty.
  - injection Hstep as <-. unfold FA.handleSubmit.
    rewrite fa_said_stopPlayback. simpl. rewrite app_nil_r. exact H.
  - injection Hstep as <-. exact H.
  - injection Hstep as <-. rewrite fa_said_setError. exact H.
  - injection Hstep as <-. exact H.
  - destruct (find_task c (FA.pending s)) as [[text| |]|]; try discriminate.
    injection Hstep as <-. unfold FA.after_synthesis.
    destruct (getTextToSpeechAudio _ _ _) as [d|].
    + destruct (acquire (FA.audioContextRef s)); try rewrite fa_said_after_resume; exact H.
    + simpl. rewrite fa_said_catch. exact H.
  - destruct (find_task c (FA.pending s)) as [[|d|]|]; try discriminate.
    injection Hstep as <-. destruct ok.
    + rewrite fa_said_after_resume. exact H.
    + simpl. rewrite fa_said_catch. exact H.
  - destruct (find_task c (FA.pending s)) as [[| |b]|]; try discriminate.
    injection Hstep as <-. unfold FA.after_decode.
    destruct (decodeAudioData b 24000 1) as [buf|]; simpl.
    + rewrite synth_calls_snoc, app_nil_r. destruct (FA.audioSourceRef s); exact H.
    + rewrite fa_said_catch. exact H.
  - destruct (FA.nodes s !! id) as [n|] eqn:Hn; [|discriminate].
    assert (s' = FA.ended id n s) as -> by (destruct (playback_state n); congruence).
    unfold FA.ended.
    assert (Forall (fun text => text <> "")
              (synth_calls (FA.trace
                 (if is_playing n
                  then FA.emit (Finished id) (FA.with_nodes (alter finish id (FA.nodes s)) s)
                  else FA.with_nodes (alter finish id (FA.nodes s)) s)))) as H'.
    { destruct (is_playing n); simpl; [|exact H].
      rewrite synth_calls_snoc, app_nil_r. exact H. }
    destruct (onended n); [|exact H']. simpl. rewrite fa_said_setIsSpeaking. exact H'.
Qed.

(** X4. In both components, whatever happens after mounting, no empty
    text is ever sent to the speech synthesis. *)
Theorem no_empty_text_is_synthesized :
  (forall (es : list IP.event) (s : IP.state),
      IP.run IP.init es = Some s ->
      Forall (fun text => text <> "") (synth_calls (IP.trace s)))
  /\ (forall (es : list FA.event) (s : FA.state),
        FA.run FA.init es = Some s ->
        Forall (fun text => text <> "") (synth_calls (FA.trace s))).
Proof.
  split.
  - intros es. assert (forall s0 s,
        Forall (fun text => text <> "") (synth_calls (IP.trace s0)) ->
        IP.run s0 es = Some s ->
        Forall (fun text => text <> "") (synth_calls (IP.trace s))) as Hrun.
    { induction es as [|e es IH]; intros s0 s H0 Hr; simpl in Hr.
      - injection Hr as <-. exact H0.
      - destruct (IP.step s0 e) as [s1|] eqn:Hstep; [|discriminate].
        eapply IH; [|exact Hr]. eapply ip_said_step; eauto. }
    intros s Hr. apply (Hrun IP.init s); [constructor | exact Hr].
  - intros es. assert (forall s0 s,
        Forall (fun text => text <> "") (synth_calls (FA.trace s0)) ->
        FA.run s0 es = Some s ->
        Forall (fun text => text <> "") (synth_calls (FA.trace s))) as Hrun.
    { induction es as [|e es IH]; intros s0 s H0 Hr; simpl in Hr.
      - injection Hr as <-. exact H0.
      - destruct (FA.step s0 e) as [s1|] eqn:Hstep; [|discriminate].
        eapply IH; [|exact Hr]. eapply fa_said_step; eauto. }
    intros s Hr. apply (Hrun FA.init s); [constructor | exact Hr].
Qed.
End Handles.


(** ** The advisor: one utterance per request *)

Section UtteranceFacts.
Context {U : AudioUtils}.
Import Utterance.

(** X7. [stopPlayback] of the advisor is idempotent; after it no source
    is referenced and the button shows Speak.  It cancels nothing that is
    awaited, and the source it stops keeps its completion handler. *)
Theorem advisor_stopPlayback_idempotent :
  forall (s : FA.state),
    FA.stopPlayback (FA.stopPlayback s) = FA.stopPlayback s
    /\ FA.audioSourceRef (FA.stopPlayback s) = None
    /\ FA.isSpeaking (FA.stopPlayback s) = false
    /\ FA.pending (FA.stopPlayback s) = FA.pending s
    /\ (forall id n,
          FA.audioSourceRef s = Some id -> FA.nodes s !! id = Some n ->
          FA.nodes (FA.stopPlayback s) !! id = Some (stop n)
          /\ onended (stop n) = onended n
          /\ releases (FA.trace (FA.stopPlayback s)) = (releases (FA.trace s) ++ [id])%list).
Proof.
  intros [a l e sp ctx src pe nd inv tr].
  unfold FA.stopPlayback, FA.setIsSpeaking; simpl.
  split; [destruct src as [id|], ctx as [[| |]|], sp; reflexivity|].
  split; [destruct src as [id|], sp; reflexivity|].
  split; [destruct src as [id|], sp; reflexivity|].
  split; [destruct src as [id|], sp; reflexivity|].
  intros id n -> Hn.
  split; [|split; [reflexivity|]].
  - destruct sp; simpl; rewrite list_lookup_alter, Hn;
      (destruct (decide (id = id)); [reflexivity | congruence]).
  - destruct sp; simpl; unfold releases; rewrite !omap_app; simpl;
      rewrite ?app_nil_r; reflexivity.
Qed.

Lemma utt_idle_inv (q : FA.state) :
  idle q = true ->
  FA.isSpeaking q = false /\ FA.pending q = []
  /\ Forall (fun n => playback_state n = Ended) (FA.nodes q).
Proof.
  unfold idle. intros H.
  apply andb_prop in H as [H H3]. apply andb_prop in H as [H1 H2].
  destruct (FA.isSpeaking q); [discriminate|].
  destruct (FA.pending q); [|discriminate]. repeat split.
  apply List.Forall_forall. intros n Hn.
  pose proof (proj1 (forallb_forall _ _) H3 n Hn) as He. unfold ended in He.
  destruct (playback_state n); try discriminate; reflexivity.
Qed.

Lemma alter_stop_ended (l : list AudioBufferSourceNode) (i : nat) :
  Forall (fun n => playback_state n = Ended) l -> alter stop i l = l.
Proof.
  intros H. revert i. induction H as [|n l Hn _ IH]; intros [|i]; simpl; [reflexivity..| |].
  - f_equal. destruct n as [b o p]. simpl in Hn. subst p. reflexivity.
  - f_equal. apply IH.
Qed.

Lemma speak_in_utterance (q : FA.state) (a : Types.FinancialAdvice) :
  FA.advice q = Some a ->
  idle q = true ->
  in_utterance q (FA.fullTextToSpeak a) Preparing (FA.handleSpeak q).
Proof.
  intros Ha Hq. destruct (utt_idle_inv q Hq) as (Hsp & Hpe & Hnd).
  destruct q as [ad l e sp ctx src pe nd inv tr]; simpl in *; subst.
  unfold FA.handleSpeak, FA.setIsSpeaking, FA.setError; simpl.
  split; simpl; auto; try discriminate.
  - eauto.
  - rewrite app_nil_r, <- app_assoc. reflexivity.
  - exists []. rewrite app_nil_r. auto.
Qed.

Lemma utt_catch q text s c k :
  in_utterance q text Preparing s ->
  FA.pending s = [(c, k)] ->
  in_utterance q text Aborted (FA.catch c s).
Proof.
  intros [Hl Hsp Hsrc Hpe Htr (now & Hnd & Hnow)] Hp.
  destruct s as [ad l e sp ctx src pe nd inv tr]; simpl in *; subst.
  unfold FA.catch, FA.setError, FA.setIsSpeaking; simpl. rewrite Nat.eqb_refl.
  split; simpl; auto; try discriminate.
  - rewrite <- !app_assoc. reflexivity.
  - exists []. auto.
Qed.

Lemma utt_context q text ph s c :
  in_utterance q text ph s -> in_utterance q text ph (FA.with_context c s).
Proof. intros []. split; simpl; auto. Qed.

Lemma utt_pending_change q text s l c k :
  in_utterance q text Preparing s ->
  l = [(c, k)] ->
  in_utterance q text Preparing (FA.with_pending l s).
Proof. intros [] ->. split; simpl; eauto. Qed.

Lemma utt_after_resume q text s c k d :
  in_utterance q text Preparing s ->
  FA.pending s = [(c, k)] ->
  exists ph', (ph' = Preparing \/ ph' = Aborted)
              /\ in_utterance q text ph' (FA.try_catch c (FA.after_resume c d s)).
Proof.
  intros Hs Hp. unfold FA.after_resume. destruct (decode d) as [b|]; simpl.
  - exists Preparing. split; [auto|]. eapply utt_pending_change; [exact Hs|].
    rewrite Hp. unfold put_task. simpl. rewrite Nat.eqb_refl. reflexivity.
  - exists Aborted. split; [auto|]. eapply utt_catch; eauto.
Qed.

Lemma utt_step q text ph s e s' :
  Forall (fun n => playback_state n = Ended) (FA.nodes q) ->
  in_utterance q text ph s ->
  settlement e = true ->
  FA.step s e = Some s' ->
  (ph = Preparing \/ ph = Voicing)
  /\ exists ph', in_utterance q text ph' s'.
Proof.
  intros Hq Hs He Hstep.
  assert (forall c k, find_task c (FA.pending s) = Some k ->
                      ph = Preparing /\ FA.pending s = [(c, k)]) as Hfind.
  { intros c k Hc. pose proof (utt_pending _ _ _ _ Hs) as Hp.
    destruct ph; try (rewrite Hp in Hc; discriminate).
    destruct Hp as (c0 & k0 & Hp). rewrite Hp in Hc. simpl in Hc.
    destruct (Nat.eqb c c0) eqn:E; [|discriminate]. apply Nat.eqb_eq in E.
    injection Hc as <-. subst c0. auto. }
  destruct e as [| | | | |c r|c ok|c|id]; try discriminate; simpl in Hstep.
  - destruct (find_task c (FA.pending s)) as [[text0| |]|] eqn:Hc; try discriminate.
    destruct (Hfind _ _ Hc) as [-> Hp]. split; [auto|].
    injection Hstep as <-. unfold FA.after_synthesis.
    destruct (getTextToSpeechAudio _ _ _) as [d|]; simpl.
    + destruct (acquire (FA.audioContextRef s)).
      * destruct (utt_after_resume q text (FA.with_context (Some running) s) c _ d
                    (utt_context _ _ _ _ _ Hs) Hp) as (ph' & _ & H). eauto.
      * exists Preparing. simpl. eapply utt_pending_change.
        -- apply utt_context, Hs.
        -- rewrite Hp. unfold put_task. simpl. rewrite Nat.eqb_refl. reflexivity.
      * destruct (utt_after_resume q text (FA.with_context (Some closed) s) c _ d
                    (utt_context _ _ _ _ _ Hs) Hp) as (ph' & _ & H). eauto.
    + exists Aborted. eapply utt_catch; eauto.
  - destruct (find_task c (FA.pending s)) as [[|d|]|] eqn:Hc; try discriminate.
    destruct (Hfind _ _ Hc) as [-> Hp]. split; [auto|].
    injection Hstep as <-. destruct ok.
    + destruct (utt_after_resume q text s c _ d Hs Hp) as (ph' & _ & H). eauto.
    + exists Aborted. eapply utt_catch; eauto.
  - destruct (find_task c (FA.pending s)) as [[| |b]|] eqn:Hc; try discriminate.
    destruct (Hfind _ _ Hc) as [-> Hp]. split; [auto|].
    injection Hstep as <-. unfold FA.after_decode.
    destruct (decodeAudioData b 24000 1) as [buf|]; simpl.
    + exists Voicing.
      destruct Hs as [Hl Hsp Hsrc Hpe Htr (now & Hnd & Hnow)]. simpl in Hnow. subst now.
      rewrite app_nil_r in Hnd.
      destruct s as [ad l e sp ctx src pe nd inv tr]; simpl in *; subst.
      simpl. rewrite Nat.eqb_refl.
      assert (match src with
              | Some old => alter stop old (FA.nodes q)
              | None => FA.nodes q
              end = FA.nodes q) as Hsame
        by (destruct src; [apply alter_stop_ended, Hq | reflexivity]).
      destruct src as [old|]; simpl in *; rewrite ?Hsame;
        (split; simpl; auto; try discriminate;
         [ rewrite <- !app_assoc; reflexivity | eexists; split; [reflexivity|]; simpl; eauto ]).
    + exists Aborted. eapply utt_catch; eauto.
  - destruct (FA.nodes s !! id) as [n|] eqn:Hn; [|discriminate].
    destruct Hs as [Hl Hsp Hsrc Hpe Htr (now & Hnd & Hnow)].
    rewrite Hnd in Hn. apply lookup_app_Some in Hn as [Hn | [Hge Hn]].
    { pose proof (Forall_lookup_1 _ _ _ _ Hq Hn) as Hen. rewrite Hen in Hstep. discriminate. }
    destruct ph; simpl in Hnow.
    + subst now. rewrite lookup_nil in Hn. discriminate.
    + split; [auto|]. destruct Hnow as [b ->].
      apply list_lookup_singleton_Some in Hn as [Hz <-]. simpl in Hstep.
      injection Hstep as <-. exists Voiced.
      assert (id = length (FA.nodes q)) as -> by lia.
      pose proof (alter_app_r finish (FA.nodes q)
                    [ {| buffer := b; onended := true; playback_state := Playing |} ] 0) as Halt.
      rewrite Nat.add_0_r in Halt. simpl in Halt.
      destruct s as [ad l e sp ctx src pe nd inv tr]; simpl in *; subst.
      unfold FA.ended, FA.setIsSpeaking; simpl. rewrite Halt.
      split; simpl; auto; try discriminate.
      * rewrite <- !app_assoc. reflexivity.
      * eexists. split; [reflexivity|]. simpl. eauto.
    + destruct Hnow as [b ->]. apply list_lookup_singleton_Some in Hn as [_ <-].
      simpl in Hstep. discriminate.
    + subst now. rewrite lookup_nil in Hn. discriminate.
Qed.

Lemma utt_run q text ph s es s' :
  Forall (fun n => playback_state n = Ended) (FA.nodes q) ->
  in_utterance q text ph s ->
  forallb settlement es = true ->
  FA.run s es = Some s' ->
  exists ph', in_utterance q text ph' s'.
Proof.
  intros Hq. revert ph s. induction es as [|e es IH]; intros ph s Hs Hes Hrun; simpl in Hrun.
  - injection Hrun as <-. eauto.
  - simpl in Hes. apply andb_prop in Hes as [He Hes].
    destruct (FA.step s e) as [s1|] eqn:Hstep; [|discriminate].
    destruct (utt_step _ _ _ _ _ _ Hq Hs He Hstep) as (_ & ph1 & Hs1). eauto.
Qed.

Lemma active_ended (l : list AudioBufferSourceNode) :
  Forall (fun n => playback_state n = Ended) l -> active l = 0.
Proof.
  induction 1 as [|n l Hn _ IH]; [reflexivity|].
  unfold active in *. simpl. unfold is_playing. rewrite Hn. exact IH.
Qed.

(** X6. Pressing Speak with an advice on screen and the advisor idle makes
    one synthesis request, for the whole advice as one text, and at most
    one source: the calls are a prefix of the spoken utterance or the
    failed one, at most one invocation is awaited and at most one source
    sounds, and once nothing is awaited and nothing sounds the utterance
    has been spoken or has failed and the button is back to Speak. *)
Theorem one_utterance_per_request :
  forall (q : FA.state) (a : Types.FinancialAdvice) (es : list FA.event) (s' : FA.state),
    FA.advice q = Some a ->
    idle q = true ->
    forallb settlement es = true ->
    FA.run (FA.handleSpeak q) es = Some s' ->
    let text := FA.fullTextToSpeak a in
    let id := length (FA.nodes q) in
    let spoken :=
      [Speaking true; Synthesize text (FA.language q); Start id; Finished id; Speaking false] in
    let failed :=
      [Speaking true; Synthesize text (FA.language q);
       Report "Failed to generate or play audio."; Speaking false] in
    exists t,
      FA.trace s' = (FA.trace q ++ t)%list
      /\ (t `prefix_of` spoken \/ t = failed)
      /\ synth_calls t = [text]
      /\ length (FA.pending s') <= 1
      /\ active (FA.nodes s') <= 1
      /\ (FA.pending s' = [] -> active (FA.nodes s') = 0 ->
            FA.isSpeaking s' = false /\ (t = spoken \/ t = failed)).
Proof.
  intros q a es s' Ha Hq Hes Hrun text id spoken failed.
  destruct (utt_idle_inv q Hq) as (_ & _ & Hnd).
  destruct (utt_run q text Preparing _ es s' Hnd (speak_in_utterance q a Ha Hq) Hes Hrun)
    as [ph Hs].
  destruct Hs as [Hl Hsp Hsrc Hpe Htr (now & Hnodes & Hnow)].
  eexists. split; [exact Htr|].
  assert (active (FA.nodes s') = match ph with Voicing => 1 | _ => 0 end) as Hact.
  { rewrite Hnodes, active_app, (active_ended _ Hnd).
    destruct ph; simpl in Hnow; try (subst now; reflexivity);
      destruct Hnow as [b ->]; reflexivity. }
  destruct ph; simpl in *.
  - split; [left; eexists; reflexivity|]. split; [reflexivity|].
    destruct Hpe as (c & k & Hpe). rewrite Hpe. simpl.
    split; [lia|]. split; [lia|]. intros [=].
  - split; [left; eexists; reflexivity|]. split; [reflexivity|].
    rewrite Hpe, Hact. simpl. split; [lia|]. split; [lia|]. intros _ [=].
  - split; [left; exists []; reflexivity|]. split; [reflexivity|].
    rewrite Hpe, Hact. simpl. split; [lia|]. split; [lia|]. auto.
  - split; [right; reflexivity|]. split; [reflexivity|].
    rewrite Hpe, Hact. simpl. split; [lia|]. split; [lia|]. auto.
Qed.
End UtteranceFacts.


(** ** Strings *)

Section Strings.
Import JS.

Lemma trimStart_white (ws s : string) :
  all_white ws = true -> trimStart (ws ++ s) = trimStart s.
Proof.
  unfold all_white. induction ws as [|c ws IH]; simpl; [reflexivity|].
  destruct (white c); [exact IH | discriminate].
Qed.

Lemma trimStart_keeps (c : Ascii.ascii) (s : string) :
  white c = false -> trimStart (String c s) = String c s.
Proof. intros H. simpl. rewrite H. reflexivity. Qed.

Lemma trimEnd_keeps (c : Ascii.ascii) (s : string) :
  white c = false -> trimEnd (String c s) = String c (trimEnd s).
Proof. intros H. simpl. rewrite H. destruct (trimEnd s); reflexivity. Qed.

Lemma trimEnd_app (a b : string) :
  trimEnd b <> "" -> trimEnd (a ++ b) = a ++ trimEnd b.
Proof.
  intros Hb. induction a as [|c a IH]; [reflexivity|].
  change (String c a ++ b) with (String c (a ++ b)).
  change (String c a ++ trimEnd b) with (String c (a ++ trimEnd b)).
  simpl. rewrite IH. destruct (a ++ trimEnd b) eqn:E; [|reflexivity].
  destruct a; [contradiction | discriminate].
Qed.

Lemma trimEnd_tail (c : Ascii.ascii) (s : string) :
  trimEnd (String c s) = String c s -> trimEnd s = s.
Proof.
  simpl. destruct (trimEnd s) eqn:E.
  - destruct (white c); [discriminate|]. intros [= <-]. reflexivity.
  - intros [= <-]. reflexivity.
Qed.

Lemma trimStart_nonempty (s : string) :
  s <> "" -> trimEnd s = s -> trimStart s <> "".
Proof.
  induction s as [|c s IH]; [congruence|]. intros _ He. simpl.
  destruct (white c) eqn:Hc; [|discriminate].
  apply IH; [|exact (trimEnd_tail _ _ He)].
  intros ->. simpl in He. rewrite Hc in He. discriminate.
Qed.

Lemma trimStart_app (s r : string) :
  trimStart s <> "" -> trimStart (s ++ r) = trimStart s ++ r.
Proof.
  induction s as [|c s IH]; simpl; [congruence|].
  destruct (white c); [exact IH | reflexivity].
Qed.

Lemma occurs_trimStart (c : Ascii.ascii) (s : string) :
  occurs c s = false -> occurs c (trimStart s) = false.
Proof.
  induction s as [|b s IH]; simpl; [reflexivity|]. intros H.
  apply orb_false_iff in H as [Hb Hs].
  destruct (white b); [exact (IH Hs)|]. simpl. rewrite Hb, Hs. reflexivity.
Qed.

Lemma occurs_trimEnd (c : Ascii.ascii) (s : string) :
  occurs c s = false -> occurs c (trimEnd s) = false.
Proof.
  induction s as [|b s IH]; simpl; [reflexivity|]. intros H.
  apply orb_false_iff in H as [Hb Hs]. specialize (IH Hs).
  destruct (trimEnd s) eqn:E.
  - destruct (white b); simpl; [reflexivity | rewrite Hb; reflexivity].
  - simpl in *. rewrite Hb. exact IH.
Qed.

Lemma trimStart_length (s : string) : String.length (trimStart s) <= String.length s.
Proof.
  induction s as [|c s IH]; simpl; [lia|]. destruct (white c); simpl; lia.
Qed.

Lemma trimEnd_length (s : string) : String.length (trimEnd s) <= String.length s.
Proof.
  induction s as [|c s IH]; simpl; [lia|].
  destruct (trimEnd s); [destruct (white c)|]; simpl in *; lia.
Qed.

(** A trimmed string is left alone by both halves of [trim]. *)
Lemma trimmed_both (s : string) : trimmed s -> trimStart s = s /\ trimEnd s = s.
Proof.
  unfold trimmed, trim. intros H.
  assert (trimStart s = s) as Hs.
  { destruct s as [|c s]; [reflexivity|]. simpl in *.
    destruct (white c); [|reflexivity].
    pose proof (trimEnd_length (trimStart s)) as H1.
    pose proof (trimStart_length s) as H2.
    rewrite H in H1. simpl in H1. lia. }
  split; [exact Hs|]. rewrite Hs in H. exact H.
Qed.

Lemma lit_app (p r : string) : lit p (p ++ r) = Some r.
Proof. induction p as [|a p IH]; simpl; [reflexivity|]. rewrite Ascii.eqb_refl. exact IH. Qed.

Lemma lit_other (a b : Ascii.ascii) (p s : string) :
  Ascii.eqb a b = false -> lit (String a p) (String b s) = None.
Proof. intros H. simpl. rewrite H. reflexivity. Qed.

(** [\s*] in front of something that cannot begin with white space only
    ever lets it start after all the white space. *)
Lemma greedy_spaces_trimStart {A : Type} (k : string -> option A) (s : string) :
  (forall c t, white c = true -> k (String c t) = None) ->
  greedy_spaces k s = k (trimStart s).
Proof.
  intros Hk. induction s as [|c s IH]; simpl; [reflexivity|].
  destruct (white c) eqn:Hc; [|reflexivity].
  rewrite IH. destruct (k (trimStart s)); [reflexivity | apply Hk, Hc].
Qed.

Lemma greedy_spaces_skips {A : Type} (k : string -> option A) (ws s : string) (r : A) :
  all_white ws = true ->
  greedy_spaces k s = Some r ->
  greedy_spaces k (ws ++ s) = Some r.
Proof.
  unfold all_white. intros Hws Hs. induction ws as [|c ws IH]; simpl in *; [exact Hs|].
  destruct (white c); [|discriminate]. rewrite (IH Hws). reflexivity.
Qed.

Lemma greedy_spaces_nonwhite {A : Type} (k : string -> option A) (c : Ascii.ascii) (s : string) :
  white c = false -> greedy_spaces k (String c s) = k (String c s).
Proof. intros H. simpl. rewrite H. reflexivity. Qed.

Lemma lazy_any_first {A : Type} (k : string -> string -> option A) (acc s : string) (r : A) :
  k acc s = Some r -> lazy_any k acc s = Some r.
Proof. intros H. destruct s; simpl; rewrite H; reflexivity. Qed.


Lemma string_app_assoc (a b c : string) : (a ++ b) ++ c = a ++ (b ++ c).
Proof.
  induction a as [|x a IH]; [reflexivity|].
  change (String x ((a ++ b) ++ c) = String x (a ++ (b ++ c))). rewrite IH. reflexivity.
Qed.

Lemma string_app_nil_r (a : string) : a ++ "" = a.
Proof.
  induction a as [|x a IH]; [reflexivity|].
  change (String x (a ++ "") = String x a). rewrite IH. reflexivity.
Qed.

Lemma white_not_backtick (c : Ascii.ascii) : white c = true -> Ascii.eqb backtick c = false.
Proof.
  intros H. destruct (Ascii.eqb_spec backtick c) as [<-|]; [|reflexivity].
  vm_compute in H. discriminate.
Qed.

End Strings.

(** ** Taking the JSON out of its fence *)

Section Unfencing.
Import JS Grounded.

Lemma closing_trimStart (captured rest : string) :
  jsonRegex_close captured rest = (_ ← lit "```" (trimStart rest); Some captured).
Proof.
  unfold jsonRegex_close. apply greedy_spaces_trimStart with (k := fun rest' => _ ← lit "```" rest'; Some captured).
  intros c t Hc. change "```" with (String backtick (String backtick (String backtick ""))).
  rewrite lit_other; [reflexivity | apply white_not_backtick, Hc].
Qed.

Lemma closing_fence (captured ws post : string) :
  all_white ws = true -> jsonRegex_close captured (ws ++ "```" ++ post) = Some captured.
Proof.
  intros Hws. rewrite closing_trimStart, trimStart_white by exact Hws.
  change ("```" ++ post) with (String backtick (String backtick (String backtick post))).
  rewrite trimStart_keeps by reflexivity.
  change (String backtick (String backtick (String backtick post))) with ("```" ++ post).
  rewrite lit_app. reflexivity.
Qed.

Lemma closing_inside (captured body rest : string) :
  body <> "" -> trimEnd body = body -> occurs backtick body = false ->
  jsonRegex_close captured (body ++ rest) = None.
Proof.
  intros Hne He Hb. rewrite closing_trimStart.
  rewrite trimStart_app by (apply trimStart_nonempty; assumption).
  pose proof (trimStart_nonempty body Hne He) as Hn.
  pose proof (occurs_trimStart backtick body Hb) as Ho.
  destruct (trimStart body) as [|d t]; [congruence|]. simpl in Ho.
  apply orb_false_iff in Ho as [Hd _].
  change "```" with (String backtick (String backtick (String backtick ""))).
  change (String d t ++ rest) with (String d (t ++ rest)).
  rewrite lit_other by exact Hd. reflexivity.
Qed.

Lemma lazy_any_body (body acc rest : string) :
  trimEnd body = body -> occurs backtick body = false ->
  lazy_any jsonRegex_close acc (body ++ rest) = lazy_any jsonRegex_close (acc ++ body) rest.
Proof.
  revert acc. induction body as [|c body IH]; intros acc He Hb.
  - simpl. rewrite string_app_nil_r. reflexivity.
  - change (String c body ++ rest) with (String c (body ++ rest)).
    simpl lazy_any.
    change (String c (body ++ rest)) with (String c body ++ rest).
    rewrite closing_inside by (try assumption; discriminate).
    simpl in Hb. apply orb_false_iff in Hb as [_ Hb].
    rewrite IH by (try assumption; exact (trimEnd_tail _ _ He)).
    rewrite string_app_assoc. reflexivity.
Qed.

(** The pattern at the start of a fenced text with a proper body. *)
Lemma jsonRegex_here_fenced (ws1 body ws2 post : string) :
  all_white ws1 = true -> all_white ws2 = true ->
  body <> "" -> trimmed body -> occurs backtick body = false ->
  jsonRegex_here ("```json" ++ ws1 ++ body ++ ws2 ++ "```" ++ post) = Some body.
Proof.
  intros Hw1 Hw2 Hne Ht Hb. destruct (trimmed_both body Ht) as [Hs He].
  unfold jsonRegex_here. rewrite lit_app. simpl mbind.
  apply greedy_spaces_skips; [exact Hw1|].
  destruct body as [|c body]; [congruence|].
  assert (white c = false) as Hc.
  { simpl in Hs. destruct (white c); [|reflexivity].
    pose proof (trimStart_length body) as Hl. rewrite Hs in Hl. simpl in Hl. lia. }
  change (String c body ++ ws2 ++ "```" ++ post)
    with (String c (body ++ ws2 ++ "```" ++ post)).
  rewrite greedy_spaces_nonwhite by exact Hc.
  change (String c (body ++ ws2 ++ "```" ++ post))
    with (String c body ++ ws2 ++ "```" ++ post).
  rewrite lazy_any_body by assumption.
  apply lazy_any_first. apply closing_fence, Hw2.
Qed.

Lemma search_first {A : Type} (here : string -> option A) (s : string) (r : A) :
  here s = Some r -> search here s = Some r.
Proof. intros H. destruct s; simpl; rewrite H; reflexivity. Qed.

Lemma search_no_backtick (s : string) :
  occurs backtick s = false -> search jsonRegex_here s = None.
Proof.
  induction s as [|c s IH]; intros H; [reflexivity|].
  simpl in H. apply orb_false_iff in H as [Hc Hs].
  change (search jsonRegex_here (String c s))
    with (match jsonRegex_here (String c s) with
          | Some r => Some r
          | None => search jsonRegex_here s
          end).
  assert (jsonRegex_here (String c s) = None) as ->; [|exact (IH Hs)].
  unfold jsonRegex_here.
  change "```json" with (String backtick "``json").
  rewrite lit_other by exact Hc. reflexivity.
Qed.

(** [trim] on a text with a fence: the white space in front goes, and so
    does the white space at the end of what follows the fence. *)
Lemma trim_fenced (ws0 inner post : string) :
  all_white ws0 = true ->
  trim (ws0 ++ "```json" ++ inner ++ "```" ++ post)
  = "```json" ++ inner ++ "```" ++ trimEnd post.
Proof.
  intros Hw. unfold trim. rewrite trimStart_white by exact Hw.
  change ("```json" ++ inner ++ "```" ++ post)
    with (String backtick ("``json" ++ inner ++ "```" ++ post)).
  rewrite trimStart_keeps by reflexivity.
  change (String backtick ("``json" ++ inner ++ "```" ++ post))
    with ("```json" ++ inner ++ "```" ++ post).
  rewrite <- !string_app_assoc.
  assert (trimEnd ("```" ++ post) = "```" ++ trimEnd post) as E.
  { change ("```" ++ post) with (String backtick (String backtick (String backtick post))).
    rewrite !trimEnd_keeps by reflexivity. reflexivity. }
  rewrite !string_app_assoc.
  rewrite <- (string_app_assoc "```json" inner).
  rewrite trimEnd_app; rewrite E; [|discriminate].
  rewrite string_app_assoc. reflexivity.
Qed.

Lemma unfence_fenced (ws0 ws1 body ws2 post : string) :
  all_white ws0 = true -> all_white ws1 = true -> all_white ws2 = true ->
  body <> "" -> trimmed body -> occurs backtick body = false ->
  unfence (ws0 ++ "```json" ++ ws1 ++ body ++ ws2 ++ "```" ++ post) = body.
Proof.
  intros Hw0 Hw1 Hw2 Hne Ht Hb. unfold unfence, jsonRegex_match.
  replace (ws0 ++ "```json" ++ ws1 ++ body ++ ws2 ++ "```" ++ post)
    with (ws0 ++ "```json" ++ (ws1 ++ body ++ ws2) ++ "```" ++ post)
    by (rewrite !string_app_assoc; reflexivity).
  rewrite trim_fenced by exact Hw0. rewrite !string_app_assoc.
  rewrite (search_first _ _ body) by (apply jsonRegex_here_fenced; assumption).
  destruct body; [congruence | reflexivity].
Qed.

Lemma unfence_plain (text : string) :
  occurs backtick text = false -> unfence text = trim text.
Proof.
  intros H. unfold unfence, jsonRegex_match.
  rewrite search_no_backtick; [reflexivity|].
  apply occurs_trimEnd, occurs_trimStart, H.
Qed.

Lemma unfence_blank (ws0 ws post : string) :
  all_white ws0 = true -> all_white ws = true ->
  unfence (ws0 ++ "```json" ++ ws ++ "```" ++ post)
  = "```json" ++ ws ++ "```" ++ trimEnd post.
Proof.
  intros Hw0 Hw. unfold unfence, jsonRegex_match.
  rewrite trim_fenced by exact Hw0.
  rewrite (search_first _ _ ""); [reflexivity|].
  unfold jsonRegex_here. rewrite lit_app. simpl mbind.
  apply greedy_spaces_skips; [exact Hw|].
  change ("```" ++ trimEnd post)
    with (String backtick (String backtick (String backtick (trimEnd post)))).
  rewrite greedy_spaces_nonwhite by reflexivity.
  apply lazy_any_first.
  change (String backtick (String backtick (String backtick (trimEnd post))))
    with ("" ++ "```" ++ trimEnd post).
  apply closing_fence. reflexivity.
Qed.

End Unfencing.

(** ** The grounded requests *)

Section GroundedFacts.
Import JS Grounded.
Context `{J : Json}.

(** X8. When the model wraps its JSON in a fence opened by three backticks
    and the word json, both grounded requests parse exactly what is inside
    the fence, the white space around it and anything after the closing
    fence dropped, as long as the JSON itself is non-empty, has no white
    space at its ends and holds no backtick; the sources of the response
    come along unchanged. *)
Theorem fenced_json_is_parsed_bare (response : Response) (ws0 ws1 body ws2 post : string) :
  text response = Some (ws0 ++ "```json" ++ ws1 ++ body ++ ws2 ++ "```" ++ post) ->
  all_white ws0 = true -> all_white ws1 = true -> all_white ws2 = true ->
  body <> "" -> trimmed body -> occurs backtick body = false ->
  getFinancialAdvice (resolved response)
  = match JSON_parse body with
    | Some advice => inl (advice, sources_of response)
    | None => inr {| message := "Failed to fetch financial advice from the AI." |}
    end
  /\ getInvestmentPrediction (resolved response)
     = match JSON_parse body with
       | Some prediction => inl (prediction, sources_of response)
       | None => inr {| message := "Failed to fetch investment prediction from the AI." |}
       end.
Proof.
  intros Ht Hw0 Hw1 Hw2 Hne Htr Hb.
  unfold getFinancialAdvice, getInvestmentPrediction, grounded_try.
  rewrite Ht. simpl. rewrite unfence_fenced by assumption.
  destruct (JSON_parse body); split; reflexivity.
Qed.

(** X9. A response text without any backtick is parsed as it is, trimmed
    of the white space at both ends. *)
Theorem plain_json_is_parsed_trimmed (response : Response) (responseText : string) :
  text response = Some responseText ->
  occurs backtick responseText = false ->
  getFinancialAdvice (resolved response)
  = match JSON_parse (trim responseText) with
    | Some advice => inl (advice, sources_of response)
    | None => inr {| message := "Failed to fetch financial advice from the AI." |}
    end
  /\ getInvestmentPrediction (resolved response)
     = match JSON_parse (trim responseText) with
       | Some prediction => inl (prediction, sources_of response)
       | None => inr {| message := "Failed to fetch investment prediction from the AI." |}
       end.
Proof.
  intros Ht Hb.
  unfold getFinancialAdvice, getInvestmentPrediction, grounded_try.
  rewrite Ht. simpl. rewrite unfence_plain by assumption.
  destruct (JSON_parse (trim responseText)); split; reflexivity.
Qed.

(** X10. A fence with nothing but white space inside is not unwrapped: the
    parser is given the trimmed response, fence included. *)
Theorem blank_fence_is_parsed_whole (response : Response) (ws0 ws post : string) :
  text response = Some (ws0 ++ "```json" ++ ws ++ "```" ++ post) ->
  all_white ws0 = true -> all_white ws = true ->
  getFinancialAdvice (resolved response)
  = match JSON_parse ("```json" ++ ws ++ "```" ++ trimEnd post) with
    | Some advice => inl (advice, sources_of response)
    | None => inr {| message := "Failed to fetch financial advice from the AI." |}
    end
  /\ getInvestmentPrediction (resolved response)
     = match JSON_parse ("```json" ++ ws ++ "```" ++ trimEnd post) with
       | Some prediction => inl (prediction, sources_of response)
       | None => inr {| message := "Failed to fetch investment prediction from the AI." |}
       end.
Proof.
  intros Ht Hw0 Hw.
  unfold getFinancialAdvice, getInvestmentPrediction, grounded_try.
  rewrite Ht. simpl. rewrite unfence_blank by assumption.
  destruct (JSON_parse ("```json" ++ ws ++ "```" ++ trimEnd post)); split; reflexivity.
Qed.

End GroundedFacts.

(** ** The list of sources *)

Section SourceFacts.
Import Grounded SourceList.

Lemma omap_shorter {A B : Type} (f : A -> option B) (l : list A) :
  length (omap f l) <= length l.
Proof.
  induction l as [|x l IH]; [reflexivity|].
  change (omap f (x :: l)) with (match f x with Some y => y :: omap f l | None => omap f l end).
  destruct (f x); simpl; lia.
Qed.

Lemma truthy_nonempty (s : option string) (u : string) : truthy s = Some u -> s = Some u /\ u <> "".
Proof. destruct s as [[|c r]|]; simpl; intros [= <-]. split; [reflexivity | discriminate]. Qed.

(** X16. Every link of the list of sources has a target and a label that
    are not empty: the target is the address of one of the sources, the
    label its title or, when the title is missing or empty, the address
    again; sources without an address are passed over, and the links keep
    the order of the sources. *)
Theorem source_links_are_usable (sources : list GroundingChunk) (links : list Link) :
  source_list sources = Some links ->
  sources <> []
  /\ links = omap source_item sources
  /\ length links <= length sources
  /\ Forall (fun l =>
       href l <> "" /\ label l <> ""
       /\ exists source w,
            source ∈ sources /\ web source = Some w /\ uri w = Some (href l)
            /\ (title w = Some (label l) \/ label l = href l)) links.
Proof.
  unfold source_list. intros H.
  assert (sources <> [] /\ links = omap source_item sources) as [Hne ->].
  { destruct sources; [discriminate|]. injection H as <-. split; [discriminate | reflexivity]. }
  clear H. split; [exact Hne|]. split; [reflexivity|]. split; [apply omap_shorter|].
  apply Forall_forall. intros l Hl. apply list_elem_of_omap in Hl as (source & Hin & Hitem).
  unfold source_item in Hitem.
  destruct (web source) as [w|] eqn:Hw; [|discriminate]. simpl in Hitem.
  destruct (truthy (uri w)) as [u|] eqn:Hu; [|discriminate]. simpl in Hitem.
  injection Hitem as <-. simpl. apply truthy_nonempty in Hu as [Hu Hune].
  split; [exact Hune|].
  destruct (truthy (title w)) as [t|] eqn:Ht; simpl.
  - apply truthy_nonempty in Ht as [Ht Htne]. split; [exact Htne|]. eauto 10.
  - split; [exact Hune|]. eauto 10.
Qed.

End SourceFacts.

(** ** The chat window *)

Section ChatFacts.
Import ChatService ChatBot Conversation.

Lemma texts_of_app (who : Sender) (a b : list ChatMessage) :
  texts_of who (a ++ b) = (texts_of who a ++ texts_of who b)%list.
Proof. unfold texts_of. rewrite List.filter_app, map_app. reflexivity. Qed.

Lemma chat_inv_init : chat_inv init.
Proof.
  split; simpl.
  - reflexivity.
  - exists [], []. repeat split; constructor.
  - lia.
  - split; reflexivity.
  - constructor.
  - constructor.
Qed.

Lemma trim_eqb (v : string) : String.eqb (JS.trim v) "" = false -> JS.trim v <> "".
Proof. intros H E. rewrite E in H. discriminate. Qed.

Lemma chat_inv_send (ok : bool) (s : state) : chat_inv s -> chat_inv (handleSend ok s).
Proof.
  intros Hinv. unfold handleSend.
  destruct (String.eqb (JS.trim (input s)) "") eqn:Hb; simpl; [exact Hinv|].
  destruct (isLoading s) eqn:Hl; simpl; [exact Hinv|].
  apply trim_eqb in Hb.
  destruct Hinv as [Ha (ex & tl & Hm & Hex & Htl) Hc Hi Hs Hsh].
  unfold asked in Htl. rewrite Hl in *. subst tl. rewrite app_nil_r in Hm.
  assert (awaiting s = []) as Hw by (destruct (awaiting s); [reflexivity | discriminate]).
  assert (exists exchanges tail,
    (messages s ++ [ {| sender := user; text := input s |} ])%list
      = (greeting :: flat_map turn exchanges ++ tail)%list
    /\ Forall (fun qa => JS.trim (fst qa) <> "") exchanges
    /\ exists q, tail = [ {| sender := user; text := q |} ] /\ JS.trim q <> "") as Hshape.
  { exists ex, [ {| sender := user; text := input s |} ]. rewrite Hm. simpl. eauto. }
  unfold getChatResponse_call.
  destruct (service s) as [inst cr calls] eqn:Es. simpl in *.
  destruct inst as [c|]; [|destruct ok]; simpl.
  - split; simpl; rewrite ?Hw; auto.
    + apply Forall_app. split; [exact Hs|]. constructor; [|constructor]. simpl. auto.
    + rewrite map_app, texts_of_app. apply sublist_app; [exact Hsh|]. reflexivity.
  - assert (cr = 0) as -> by (apply Hi; reflexivity).
    assert (calls = []) as ->.
    { destruct calls as [|cm l]; [reflexivity|]. inversion Hs as [|? ? [E _] _]. discriminate. }
    split; simpl; rewrite ?Hw; auto.
    + split; discriminate.
    + rewrite texts_of_app. apply sublist_inserts_l. reflexivity.
  - split; simpl; rewrite ?Hw; auto.
    rewrite texts_of_app. apply sublist_inserts_r. exact Hsh.
Qed.

Lemma found_one (c : nat) (l : list (nat * awaited)) (k : awaited) :
  length l = 1 -> find_awaited c l = Some k -> drop_awaited c l = [].
Proof.
  destruct l as [|[c' k'] [|]]; simpl; try discriminate.
  intros _. destruct (Nat.eqb c c'); [reflexivity | discriminate].
Qed.

Lemma chat_inv_resume (c : nat) (k : awaited) (r : string + Error) (s : state) :
  chat_inv s -> find_awaited c (awaiting s) = Some k ->
  chat_inv (handleSend_resume r (with_awaiting (drop_awaited c (awaiting s)) s)).
Proof.
  intros [Ha (ex & tl & Hm & Hex & Htl) Hc Hi Hs Hsh] Hf.
  destruct (isLoading s) eqn:Hl;
    [|destruct (awaiting s); [discriminate Hf | discriminate Ha]].
  unfold asked in Htl. rewrite Hl in Htl. destruct Htl as (q & -> & Hq).
  split; simpl; try assumption.
  - rewrite (found_one c _ k Ha Hf). reflexivity.
  - exists (ex ++ [(q, match r with inl t => t | inr _ => apology end)])%list, [].
    split; [|split; [|reflexivity]].
    + rewrite Hm, flat_map_app. simpl. rewrite app_nil_r, <- !app_assoc. simpl.
      destruct r; reflexivity.
    + apply Forall_app. split; [exact Hex|]. constructor; [exact Hq | constructor].
  - rewrite texts_of_app. replace (texts_of user [_]) with (@nil string)
      by (destruct r; reflexivity).
    rewrite app_nil_r. exact Hsh.
Qed.

Lemma chat_inv_step (s s' : state) (e : event) :
  chat_inv s -> step s e = Some s' -> chat_inv s'.
Proof.
  intros Hs. destruct e as [| |v|ok|c r|c]; simpl.
  - intros [= <-]. destruct Hs. split; assumption.
  - intros [= <-]. destruct Hs. split; assumption.
  - intros [= <-]. destruct Hs. split; assumption.
  - intros [= <-]. apply chat_inv_send, Hs.
  - destruct (find_awaited c (awaiting s)) as [[]|] eqn:Hf; try discriminate.
    intros [= <-]. eapply chat_inv_resume; eassumption.
  - destruct (find_awaited c (awaiting s)) as [[]|] eqn:Hf; try discriminate.
    intros [= <-]. eapply chat_inv_resume; eassumption.
Qed.

Lemma chat_inv_run (es : list event) (s s' : state) :
  chat_inv s -> run s es = Some s' -> chat_inv s'.
Proof.
  revert s. induction es as [|e es IH]; simpl; intros s Hs.
  - intros [= <-]. exact Hs.
  - destruct (step s e) as [s1|] eqn:E; [|discriminate].
    apply IH. eapply chat_inv_step; eassumption.
Qed.

(** X11. Whatever the user does and however the requests settle, at most
    one request is in flight, and the loading indicator is on exactly while
    one is. *)
Theorem one_request_in_flight (es : list event) (s : state) :
  run init es = Some s ->
  length (awaiting s) = if isLoading s then 1 else 0.
Proof. intros H. apply (chat_inv_run es init s chat_inv_init H). Qed.

(** X12. The transcript is the greeting followed by complete exchanges, a
    question of the user and then the answer of the bot, plus the last
    question alone exactly while its answer is awaited; no question is
    blank. *)
Theorem transcript_alternates (es : list event) (s : state) :
  run init es = Some s ->
  exists exchanges tail,
    messages s = (greeting :: flat_map turn exchanges ++ tail)%list
    /\ Forall (fun qa => JS.trim (fst qa) <> "") exchanges
    /\ (if isLoading s
        then exists q, tail = [ {| sender := user; text := q |} ] /\ JS.trim q <> ""
        else tail = []).
Proof. intros H. apply (chat_inv_run es init s chat_inv_init H). Qed.

(** X13. One chat session serves the whole life of the page: it is created
    at most once, and every message is sent to it; what is sent is never
    blank and appears, as typed and in the same order, among the user's
    messages of the transcript. *)
Theorem one_chat_session_for_all_messages (es : list event) (s : state) :
  run init es = Some s ->
  chats_created (service s) <= 1
  /\ Forall (fun cm => chatInstance (service s) = Some (fst cm) /\ JS.trim (snd cm) <> "")
       (sendMessage_calls (service s))
  /\ sublist (map snd (sendMessage_calls (service s))) (texts_of user (messages s)).
Proof.
  intros H. destruct (chat_inv_run es init s chat_inv_init H) as [_ _ Hc _ Hs Hsh].
  auto.
Qed.

(** X14. The transcript only grows: no event removes or rewrites a message
    that is shown. *)
Theorem transcript_only_grows (es : list event) (s s' : state) :
  run s es = Some s' -> messages s `prefix_of` messages s'.
Proof.
  revert s. induction es as [|e es IH]; simpl; intros s.
  - intros [= <-]. reflexivity.
  - destruct (step s e) as [s1|] eqn:E; [|discriminate]. intros H.
    transitivity (messages s1); [|exact (IH _ H)]. clear IH H.
    destruct e as [| |v|ok|c r|c]; simpl in E.
    + injection E as <-. reflexivity.
    + injection E as <-. reflexivity.
    + injection E as <-. reflexivity.
    + injection E as <-. unfold handleSend.
      destruct (String.eqb (JS.trim (input s)) "" || isLoading s); [reflexivity|].
      destruct (getChatResponse_call ok (input s) (service s)). simpl.
      apply prefix_app_r. reflexivity.
    + destruct (find_awaited c (awaiting s)) as [[]|]; try discriminate.
      injection E as <-. simpl. apply prefix_app_r. reflexivity.
    + destruct (find_awaited c (awaiting s)) as [[]|]; try discriminate.
      injection E as <-. simpl. apply prefix_app_r. reflexivity.
Qed.

Lemma asking_run (q : state) (c : nat) (es : list event) (s s' : state) :
  asking q c s -> forallb by_user es = true -> run s es = Some s' -> asking q c s'.
Proof.
  revert s. induction es as [|e es IH]; simpl; intros s Hs Hu.
  - intros [= <-]. exact Hs.
  - apply andb_prop in Hu as [He Hu].
    destruct (step s e) as [s1|] eqn:E; [|discriminate].
    apply IH; [|exact Hu]. clear IH. destruct Hs as [Hm Hl Hw].
    destruct e as [| |v|ok|c' r|c']; simpl in E, He; try discriminate;
      injection E as <-; try (split; assumption).
    unfold handleSend. rewrite Hl, orb_true_r. split; assumption.
Qed.

(** X15. A question that gets through is answered in place: from a state
    with nothing in flight and a non-blank input, sending appends the
    input as typed and clears the field; whatever the user does next
    (typing, sending again, closing the window) leaves the transcript as it
    is, and the settlement appends the model's text, or the apology when
    the request failed, right after the question and ends the loading. *)
Theorem reply_follows_question (ok : bool) (q : state) (es : list event) (e : event)
    (s1 s2 : state) :
  isLoading q = false -> awaiting q = [] -> JS.trim (input q) <> "" ->
  forallb by_user es = true ->
  run (handleSend ok q) es = Some s1 ->
  by_user e = false ->
  step s1 e = Some s2 ->
  input (handleSend ok q) = ""
  /\ isLoading s1 = true
  /\ messages s1 = (messages q ++ [ {| sender := user; text := input q |} ])%list
  /\ messages s2
     = (messages q ++ [ {| sender := user; text := input q |};
                        {| sender := bot;
                           text := match e with
                                   | Replied _ (send_resolved t) => t
                                   | _ => apology
                                   end |} ])%list
  /\ isLoading s2 = false /\ awaiting s2 = [].
Proof.
  intros Hl Hw Hq Hu Hrun He Hstep.
  assert (String.eqb (JS.trim (input q)) "" = false) as Hb.
  { destruct (String.eqb_spec (JS.trim (input q)) ""); [contradiction | reflexivity]. }
  assert (asking q (invocations q) (handleSend ok q) /\ input (handleSend ok q) = "") as [Hask Hin].
  { unfold handleSend. rewrite Hb, Hl. simpl.
    destruct (getChatResponse_call ok (input q) (service q)) as [m sending]. simpl.
    split; [|reflexivity]. split; simpl; [reflexivity | reflexivity |]. rewrite Hw. eauto. }
  destruct (asking_run _ _ _ _ _ Hask Hu Hrun) as [Hm Hld [k Hk]].
  split; [exact Hin|]. split; [exact Hld|]. split; [exact Hm|].
  destruct e as [| |v|ok'|c r|c]; simpl in He, Hstep; try discriminate;
    rewrite Hk in Hstep; simpl in Hstep;
    destruct (Nat.eqb c (invocations q)); try discriminate;
    destruct k; try discriminate; injection Hstep as <-; simpl;
    rewrite Hm, <- app_assoc; simpl.
  - destruct r; auto.
  - auto.
Qed.

End ChatFacts.

(** ** The form of the predictor *)

Section FormFacts.
Context {U : AudioUtils}.
Import PredictorForm Fetching.

Lemma ip_shown_setIsSpeaking b s :
  IP.prediction (IP.setIsSpeaking b s) = IP.prediction s.
Proof. unfold IP.setIsSpeaking. destruct (Bool.eqb _ _); reflexivity. Qed.

Lemma ip_shown_playNextInQueue s :
  IP.prediction (IP.playNextInQueue s) = IP.prediction s.
Proof.
  unfold IP.playNextInQueue. destruct (_ || _).
  - simpl. apply ip_shown_setIsSpeaking.
  - destruct (IP.shift _) as [[[|a t]|] rest]; reflexivity.
Qed.

Lemma ip_shown_stopPlayback s :
  IP.prediction (IP.stopPlayback s) = IP.prediction s.
Proof.
  unfold IP.stopPlayback. rewrite ip_shown_setIsSpeaking.
  destruct s as [p l e sp ctx [id|] qu st pe nd inv tr]; reflexivity.
Qed.

Lemma ip_shown_catch c s : IP.prediction (IP.catch c s) = IP.prediction s.
Proof. unfold IP.catch. rewrite ip_shown_setIsSpeaking. reflexivity. Qed.

Lemma ip_shown_after_resume c d s :
  IP.prediction (IP.try_catch c (IP.after_resume c d s)) = IP.prediction s.
Proof.
  unfold IP.after_resume. destruct (decode d); simpl; [reflexivity | apply ip_shown_catch].
Qed.

(** Only the form puts a prediction on the screen or takes it off. *)
Lemma ip_shown_step s e s' :
  IP.step s e = Some s' ->
  match e with
  | IP.Submit | IP.Loaded _ | IP.LoadFailed => True
  | _ => IP.prediction s' = IP.prediction s
  end.
Proof.
  intros Hstep.
  destruct e as [| |p| | |c r|c ok|c|id]; simpl in Hstep; try exact I.
  - injection Hstep as <-. unfold IP.handleSpeak.
    destruct (IP.prediction s) eqn:Hp; [|exact Hp].
    destruct (IP.isSpeaking s).
    + rewrite ip_shown_stopPlayback. exact Hp.
    + unfold IP.enqueueAndPlay. rewrite ip_shown_playNextInQueue. simpl.
      rewrite ip_shown_setIsSpeaking. exact Hp.
  - injection Hstep as <-. apply ip_shown_stopPlayback.
  - destruct (find_task c (IP.pending s)) as [[text| |]|]; try discriminate.
    injection Hstep as <-. unfold IP.after_synthesis.
    destruct (getTextToSpeechAudio _ _ _) as [d|].
    + destruct (acquire (IP.audioContextRef s)).
      * rewrite ip_shown_after_resume. reflexivity.
      * reflexivity.
      * rewrite ip_shown_after_resume. reflexivity.
    + simpl. apply ip_shown_catch.
  - destruct (find_task c (IP.pending s)) as [[|d|]|]; try discriminate.
    injection Hstep as <-. destruct ok.
    + apply ip_shown_after_resume.
    + simpl. apply ip_shown_catch.
  - destruct (find_task c (IP.pending s)) as [[| |b]|]; try discriminate.
    injection Hstep as <-. unfold IP.after_decode.
    destruct (decodeAudioData b 24000 1) as [buf|]; simpl.
    + reflexivity.
    + apply ip_shown_catch.
  - destruct (IP.nodes s !! id) as [n|] eqn:Hn; [|discriminate].
    assert (s' = IP.ended id n s) as -> by (destruct (playback_state n); congruence).
    unfold IP.ended. destruct (onended n).
    + rewrite ip_shown_playNextInQueue. simpl. destruct (is_playing n); reflexivity.
    + destruct (is_playing n); reflexivity.
Qed.

Lemma form_inv_step (f f' : state) (e : event) :
  form_inv f -> step f e = Some f' -> form_inv f'.
Proof.
  intros [Ha Hr Hl] Hstep. destruct e as [v| |c r|e]; simpl in Hstep.
  - injection Hstep as <-. split; assumption.
  - destruct (isLoading f) eqn:El; [discriminate|]. injection Hstep as <-.
    unfold handleSubmit. destruct (JS.trim (portfolio f)) as [|a t] eqn:Et.
    + split; simpl; rewrite ?El; auto.
    + assert (awaiting f = []) as Hw by (destruct (awaiting f); [reflexivity | discriminate]).
      split; simpl; rewrite ?Hw; auto.
      * apply Forall_app. split; [exact Hr|]. constructor; [|constructor].
        simpl. rewrite Et. discriminate.
      * intros _. split; [|reflexivity]. unfold IP.handleSubmit.
        rewrite ip_shown_stopPlayback. reflexivity.
  - destruct (existsb (Nat.eqb c) (awaiting f)) eqn:Ex; [|discriminate].
    injection Hstep as <-.
    destruct (isLoading f) eqn:El; [|destruct (awaiting f); discriminate].
    destruct (awaiting f) as [|c' [|]] eqn:Ew; try discriminate. simpl in Ex.
    rewrite orb_false_r in Ex.
    split; [cbn; rewrite Ew; cbn; rewrite Ex; reflexivity | exact Hr | intros [=]].
  - assert (exists s, IP.step (speech f) e = Some s /\ f' = with_speech s f
                      /\ IP.prediction s = IP.prediction (speech f)) as (s & Hs & -> & Hp).
    { destruct e; try discriminate;
        (destruct (IP.step (speech f) _) as [s|] eqn:Hs; [|discriminate]);
        injection Hstep as <-; exists s; (split; [reflexivity|]); (split; [reflexivity|]);
        exact (ip_shown_step _ _ _ Hs). }
    split; simpl; auto. intros El. rewrite Hp. auto.
Qed.

Lemma form_inv_run (es : list event) (f f' : state) :
  form_inv f -> run f es = Some f' -> form_inv f'.
Proof.
  revert f. induction es as [|e es IH]; simpl; intros f Hf.
  - intros [= <-]. exact Hf.
  - destruct (step f e) as [f1|] eqn:E; [|discriminate].
    apply IH. eapply form_inv_step; eassumption.
Qed.

Lemma form_inv_init : form_inv init.
Proof. split; simpl; [reflexivity | constructor | intros [=]]. Qed.

(** X17. A blank portfolio never reaches the model: whatever happens after
    mounting, every request made carries a portfolio that is not blank.
    Submitting a blank one only shows the message that the portfolio
    cannot be empty; it makes no request, starts no loading, and leaves
    the prediction on screen, its sources and the playback as they are. *)
Theorem blank_portfolio_is_never_sent :
  (forall (es : list event) (f : state),
      run init es = Some f ->
      Forall (fun request => JS.trim (fst request) <> "") (requests f))
  /\ (forall f : state,
        JS.trim (portfolio f) = "" ->
        requests (handleSubmit f) = requests f
        /\ awaiting (handleSubmit f) = awaiting f
        /\ isLoading (handleSubmit f) = isLoading f
        /\ sources (handleSubmit f) = sources f
        /\ IP.prediction (speech (handleSubmit f)) = IP.prediction (speech f)
        /\ IP.isSpeaking (speech (handleSubmit f)) = IP.isSpeaking (speech f)
        /\ IP.audioQueueRef (speech (handleSubmit f)) = IP.audioQueueRef (speech f)
        /\ IP.audioSourceRef (speech (handleSubmit f)) = IP.audioSourceRef (speech f)
        /\ IP.nodes (speech (handleSubmit f)) = IP.nodes (speech f)
        /\ IP.error (speech (handleSubmit f)) = Some "Portfolio cannot be empty.").
Proof.
  split.
  - intros es f H. apply (form_inv_run es init f form_inv_init H).
  - intros f Hb. unfold handleSubmit. rewrite Hb. simpl. repeat split.
Qed.

(** X18. At most one request for a prediction is in flight, and the form is
    loading exactly while one is; while it loads no prediction and no
    source is on screen, so pressing Speak does nothing. *)
Theorem nothing_to_read_while_loading (es : list event) (f : state) :
  run init es = Some f ->
  length (awaiting f) = (if isLoading f then 1 else 0)
  /\ (isLoading f = true ->
        IP.prediction (speech f) = None /\ sources f = []
        /\ IP.handleSpeak (speech f) = speech f).
Proof.
  intros H. destruct (form_inv_run es init f form_inv_init H) as [Ha _ Hl].
  split; [exact Ha|]. intros El. destruct (Hl El) as [Hp Hs].
  split; [exact Hp|]. split; [exact Hs|]. unfold IP.handleSpeak. rewrite Hp. reflexivity.
Qed.

Lemma inert_stopped (n : AudioBufferSourceNode) : inert n = true -> inert (stop (detach n)) = true.
Proof. unfold inert, stop, detach. simpl. destruct (playback_state n); auto. Qed.

Lemma fetching_step (made : list (string * string)) (c : nat) (f f' : state) (e : event) :
  fetching made c f -> meanwhile e = true -> step f e = Some f' -> fetching made c f'.
Proof.
  intros [Hr Hl Hw Hs Hp He Hpe Hsrc Hin] Hm Hstep.
  destruct e as [v| |c' r|e]; simpl in Hstep, Hm; try discriminate.
  - injection Hstep as <-. split; assumption.
  - rewrite Hl in Hstep. discriminate.
  - destruct e as [| |p| | |c' r|c' ok|c'|id]; simpl in Hstep; try discriminate;
      rewrite ?Hpe in Hstep; simpl in Hstep; try discriminate.
    + injection Hstep as <-. unfold IP.handleSpeak. rewrite Hp. split; assumption.
    + injection Hstep as <-.
      destruct (speech f) as [p l er sp ctx src qu st pe nd inv tr]; simpl in *; subst.
      unfold IP.stopPlayback, IP.setIsSpeaking; simpl.
      destruct sp; split; simpl; auto.
    + destruct (IP.nodes (speech f) !! id) as [n|] eqn:Hn; [|discriminate].
      pose proof (Forall_lookup_1 _ _ _ _ Hin Hn) as Hi.
      destruct (playback_state n) eqn:Hps; try discriminate;
        [unfold inert in Hi; rewrite Hps in Hi; discriminate|].
      destruct (inert_ending n Hi) as [_ Ho]; [congruence|].
      simpl in Hstep. injection Hstep as <-. unfold IP.ended, is_playing. rewrite Hps, Ho.
      split; simpl; auto. apply Forall_alter; [assumption|]. intros; reflexivity.
Qed.

Lemma fetching_run (made : list (string * string)) (c : nat) (es : list event)
    (f f' : state) :
  fetching made c f -> forallb meanwhile es = true -> run f es = Some f' ->
  fetching made c f'.
Proof.
  revert f. induction es as [|e es IH]; simpl; intros f Hf Hm.
  - intros [= <-]. exact Hf.
  - apply andb_prop in Hm as [He Hm].
    destruct (step f e) as [f1|] eqn:E; [|discriminate].
    apply IH; [|exact Hm]. eapply fetching_step; eassumption.
Qed.

Lemma fetching_begins (f : state) :
  awaiting f = [] -> idle (speech f) = true -> JS.trim (portfolio f) <> "" ->
  fetching (requests f ++ [(portfolio f, IP.language (speech f))])%list (invocations f)
    (handleSubmit f).
Proof.
  intros Hw Hq Hb. destruct (idle_inv _ Hq) as (Hsp & Hpe & Hin).
  unfold handleSubmit. destruct (JS.trim (portfolio f)); [congruence|]. rewrite Hw.
  destruct (speech f) as [p l er sp ctx src qu st pe nd inv tr]; simpl in *; subst.
  unfold IP.handleSubmit, IP.stopPlayback, IP.setIsSpeaking, IP.setError; simpl.
  destruct src as [id|]; split; simpl; try reflexivity; try exact Hin.
  apply Forall_alter; [exact Hin|]. intros n _ Hn. apply inert_stopped, Hn.
Qed.

(** X19. A submission is settled in place: from a form that is not loading,
    with the pipeline idle and a portfolio that is not blank, submitting
    asks the model once, for that portfolio in the chosen language;
    whatever happens before the answer (typing, pressing Speak, events of
    old sources) shows nothing, and the answer ends the loading and shows
    either the prediction with its sources and no error, or the fixed
    error message with no prediction and no source. *)
Theorem submission_settles (f : state) (es : list event) (c : nat) (r : fetched)
    (f1 f2 : state) :
  awaiting f = [] -> idle (speech f) = true ->
  JS.trim (portfolio f) <> "" ->
  forallb meanwhile es = true ->
  run (handleSubmit f) es = Some f1 ->
  step f1 (PredictionSettled c r) = Some f2 ->
  requests f1 = (requests f ++ [(portfolio f, IP.language (speech f))])%list
  /\ isLoading f1 = true
  /\ IP.prediction (speech f1) = None
  /\ isLoading f2 = false /\ awaiting f2 = []
  /\ requests f2 = requests f1
  /\ match r with
     | inl (newPrediction, newSources) =>
         IP.prediction (speech f2) = Some newPrediction
         /\ sources f2 = newSources
         /\ IP.error (speech f2) = None
     | inr _ =>
         IP.prediction (speech f2) = None
         /\ sources f2 = []
         /\ IP.error (speech f2)
            = Some "An error occurred while fetching the prediction. Please try again."
     end.
Proof.
  intros Hw Hq Hb Hm Hrun Hstep.
  destruct (fetching_run _ _ _ _ _ (fetching_begins f Hw Hq Hb) Hm Hrun)
    as [Hr Hl Hw1 Hs Hp He Hpe Hsrc Hin].
  split; [exact Hr|]. split; [exact Hl|]. split; [exact Hp|].
  simpl in Hstep. rewrite Hw1 in Hstep. simpl in Hstep. rewrite orb_false_r in Hstep.
  destruct (Nat.eqb c (invocations f)) eqn:Ec; [|discriminate].
  injection Hstep as <-. simpl. rewrite Hw1. simpl. rewrite Ec. simpl.
  split; [reflexivity|]. split; [reflexivity|]. split; [reflexivity|].
  destruct r as [[newPrediction newSources]|err]; simpl; auto.
Qed.

End FormFacts.

(** * The properties on examples

    The stand-in for utils/audio, the mounted component, and a service that
    answers every request with the payload "QQ". *)

Lemma getTextToSpeechAudio_fails_iff_witness :
  getTextToSpeechAudio (fun _ => rejected) "Save." "English"
    = inr {| message := "Failed to generate speech from the AI." |}
  /\ getTextToSpeechAudio (fun _ => Fixture.ok "QQ") "Save." "English" = inl "QQ".
Proof.
  destruct (getTextToSpeechAudio_fails_iff (fun _ => rejected) "Save." "English")
    as (Hfail & Hgeneric & _).
  destruct (getTextToSpeechAudio_fails_iff (fun _ => Fixture.ok "QQ") "Save." "English")
    as (_ & _ & Hok).
  split.
  - destruct (getTextToSpeechAudio (fun _ => rejected) "Save." "English") as [x|x] eqn:E.
    + discriminate E.
    + f_equal. apply Hgeneric. reflexivity.
  - destruct (Hok (audio_response "QQ") eq_refl) as (d & Hd & Hr).
    + intros [H | H]; discriminate H.
    + injection Hd as <-. exact Hr.
Defined.

Lemma stopPlayback_idempotent_witness :
  IP.stopPlayback (IP.stopPlayback (IP.init (U := Fixture.utils)))
    = IP.stopPlayback IP.init
  /\ IP.nodes (IP.stopPlayback (IP.init (U := Fixture.utils))) = [].
Proof.
  destruct (stopPlayback_idempotent Fixture.utils IP.init)
    as (Hidem & _ & _ & _ & _ & _ & Hnone).
  split; [exact Hidem|]. destruct (Hnone eq_refl) as (Hn & _ & _). exact Hn.
Defined.





Lemma empty_segment_halts_witness :
  exists s',
    IP.run (U := Fixture.utils) (IP.enqueueAndPlay ["A"; ""; "B"] IP.init)
      [IP.SynthesisSettled 0 (Fixture.ok "QQ"); IP.DecodeSettled 0; IP.PlaybackEnded 0]
    = Some s'
    /\ IP.isSpeaking s' = true
    /\ IP.audioQueueRef s' = ["B"]
    /\ IP.pending s' = []
    /\ synth_calls (IP.trace s') = ["A"].
Proof.
  eexists. split; [vm_compute; reflexivity|].
  destruct (empty_segment_halts (U := Fixture.utils)) as [_ Hsession].
  edestruct (Hsession IP.init ["A"] ["B"]
               [IP.SynthesisSettled 0 (Fixture.ok "QQ"); IP.DecodeSettled 0;
                IP.PlaybackEnded 0])
    as (Hsp & Hqu & Hpe & _ & Hsy & _);
    [ vm_compute; reflexivity | vm_compute; reflexivity | vm_compute; reflexivity
    | vm_compute; reflexivity | ].
  split; [exact Hsp|]. split; [exact Hqu|]. split; [exact Hpe | exact Hsy].
Defined.

Lemma buffers_decoded_24k_mono_witness :
  exists s,
    FA.run (U := Fixture.utils) FA.init
      [FA.Loaded Fixture.plan; FA.Click; FA.SynthesisSettled 0 (Fixture.ok "QQ");
       FA.DecodeSettled 0]
    = Some s
    /\ starts (FA.trace s) = [0]
    /\ forall (id : nat) (n : AudioBufferSourceNode),
         FA.nodes s !! id = Some n -> decoded_24k_mono (buffer n).
Proof.
  eexists. split; [vm_compute; reflexivity|].
  destruct (buffers_decoded_24k_mono (U := Fixture.utils)) as [_ Hfa].
  edestruct (Hfa [FA.Loaded Fixture.plan; FA.Click;
                  FA.SynthesisSettled 0 (Fixture.ok "QQ"); FA.DecodeSettled 0])
    as [Hst Hbuf]; [vm_compute; reflexivity|].
  split; [vm_compute; reflexivity | exact Hbuf].
Defined.

Lemma stop_during_synthesis_still_plays_witness :
  exists s,
    IP.run (U := Fixture.utils) IP.init
      [IP.Loaded Fixture.portfolio; IP.Click; IP.Click;
       IP.SynthesisSettled 0 (Fixture.ok "QQ"); IP.DecodeSettled 0] = Some s
    /\ starts (IP.trace s) = [0]
    /\ IP.isSpeaking s = false
    /\ active (IP.nodes s) = 1.
Proof.
  destruct (stop_during_synthesis_still_plays (U := Fixture.utils) "QQ"
              (String.list_byte_of_string "QQ")
              (String.list_byte_of_string "QQ", 24000%Z, 1%Z)
              ltac:(discriminate) eq_refl eq_refl Fixture.portfolio)
    as (s & Hrun & Ht & _ & Hsp & Hact).
  exists s. split; [exact Hrun|]. split; [rewrite Ht; vm_compute; reflexivity|].
  split; [exact Hsp | exact Hact].
Defined.

Lemma two_sources_after_restart_witness :
  exists s,
    IP.run (U := Fixture.utils) IP.init
      [IP.Loaded Fixture.portfolio; IP.Click; IP.Click; IP.Click;
       IP.SynthesisSettled 0 (Fixture.ok "QQ"); IP.SynthesisSettled 1 (Fixture.ok "QQ");
       IP.DecodeSettled 0; IP.DecodeSettled 1] = Some s
    /\ active (IP.nodes s) = 2.
Proof.
  destruct (two_sources_after_restart (U := Fixture.utils) "QQ"
              (String.list_byte_of_string "QQ")
              (String.list_byte_of_string "QQ", 24000%Z, 1%Z)
              ltac:(discriminate) eq_refl eq_refl Fixture.portfolio)
    as (s & Hrun & _ & Hact & _).
  exists s. split; [exact Hrun | exact Hact].
Defined.

Lemma unmount_while_sounding_witness :
  exists s,
    FA.run (U := Fixture.utils) FA.init
      [FA.Loaded Fixture.plan; FA.Click; FA.SynthesisSettled 0 (Fixture.ok "QQ");
       FA.DecodeSettled 0; FA.Unmount] = Some s
    /\ active (FA.nodes s) = 1
    /\ releases (FA.trace s) = [].
Proof.
  destruct (unmount_while_sounding (U := Fixture.utils) "QQ"
              (String.list_byte_of_string "QQ")
              (String.list_byte_of_string "QQ", 24000%Z, 1%Z)
              ltac:(discriminate) eq_refl eq_refl Fixture.portfolio Fixture.plan)
    as (_ & s & Hrun & Hact & Hrel & _).
  exists s. split; [exact Hrun|]. split; [exact Hact | exact Hrel].
Defined.

(** ** The further properties on examples *)

Lemma handleSpeak_reads_summary_then_items_witness :
  exists s',
    IP.run (U := Fixture.utils)
      (IP.handleSpeak (IP.with_prediction (Some Fixture.portfolio) IP.init))
      Samples.reading = Some s'
    /\ synth_calls (IP.trace s')
       = ["Here is the overall summary of your portfolio prediction: balanced";
          "AAPL. Analysis: strong. Outlook: growth"]
    /\ IP.isSpeaking s' = false.
Proof.
  eexists. split; [vm_compute; reflexivity|].
  edestruct (handleSpeak_reads_summary_then_items (U := Fixture.utils)
               (IP.with_prediction (Some Fixture.portfolio) IP.init)
               Fixture.portfolio Samples.reading)
    as (t & Ht & _ & _ & Hq);
    [ vm_compute; reflexivity | vm_compute; reflexivity | vm_compute; reflexivity
    | vm_compute; reflexivity | vm_compute; reflexivity | ].
  destruct Hq as (_ & Hsy & Hsp); [vm_compute; reflexivity|].
  split; [vm_compute; reflexivity | exact Hsp].
Defined.



Lemma no_empty_text_is_synthesized_witness :
  (exists s,
      IP.run (U := Fixture.utils) IP.init
        (IP.Loaded Fixture.portfolio :: IP.Click :: Samples.reading) = Some s
      /\ Forall (fun text => text <> "") (synth_calls (IP.trace s)))
  /\ (exists s,
        FA.run (U := Fixture.utils) FA.init
          (FA.Loaded Fixture.plan :: FA.Click :: Samples.speaking) = Some s
        /\ Forall (fun text => text <> "") (synth_calls (FA.trace s))).
Proof.
  destruct (no_empty_text_is_synthesized (U := Fixture.utils)) as [Hip Hfa]. split.
  - eexists. split; [vm_compute; reflexivity|].
    apply (Hip (IP.Loaded Fixture.portfolio :: IP.Click :: Samples.reading)).
    vm_compute; reflexivity.
  - eexists. split; [vm_compute; reflexivity|].
    apply (Hfa (FA.Loaded Fixture.plan :: FA.Click :: Samples.speaking)).
    vm_compute; reflexivity.
Defined.

Lemma remembered_source_is_sounding_witness :
  (exists s n,
      IP.run (U := Fixture.utils) IP.init
        (IP.Loaded Fixture.portfolio :: IP.Click :: Samples.sounding) = Some s
      /\ IP.audioSourceRef s = Some 0
      /\ IP.nodes s !! 0 = Some n /\ playback_state n = Playing /\ onended n = true)
  /\ (exists s n,
        FA.run (U := Fixture.utils) FA.init
          [FA.Loaded Fixture.plan; FA.Click; FA.SynthesisSettled 0 (Fixture.ok "QQ");
           FA.DecodeSettled 0] = Some s
        /\ FA.audioSourceRef s = Some 0
        /\ FA.nodes s !! 0 = Some n /\ playback_state n = Playing /\ onended n = true).
Proof.
  destruct (remembered_source_is_sounding (U := Fixture.utils)) as [Hip Hfa]. split.
  - edestruct (Hip (IP.Loaded Fixture.portfolio :: IP.Click :: Samples.sounding))
      as (n & Hn); [vm_compute; reflexivity | vm_compute; reflexivity |].
    eexists. exists n. split; [vm_compute; reflexivity|].
    split; [vm_compute; reflexivity | exact Hn].
  - edestruct (Hfa [FA.Loaded Fixture.plan; FA.Click;
                    FA.SynthesisSettled 0 (Fixture.ok "QQ"); FA.DecodeSettled 0])
      as (n & Hn); [vm_compute; reflexivity | vm_compute; reflexivity |].
    eexists. exists n. split; [vm_compute; reflexivity|].
    split; [vm_compute; reflexivity | exact Hn].
Defined.

Lemma one_utterance_per_request_witness :
  exists s',
    FA.run (U := Fixture.utils)
      (FA.handleSpeak (FA.with_advice (Some Fixture.plan) FA.init)) Samples.speaking
      = Some s'
    /\ synth_calls (FA.trace s') = ["Save. Here are the recommendations. "]
    /\ FA.isSpeaking s' = false.
Proof.
  eexists. split; [vm_compute; reflexivity|].
  edestruct (one_utterance_per_request (U := Fixture.utils)
               (FA.with_advice (Some Fixture.plan) FA.init) Fixture.plan Samples.speaking)
    as (t & _ & _ & _ & _ & _ & Hend);
    [ vm_compute; reflexivity | vm_compute; reflexivity | vm_compute; reflexivity
    | vm_compute; reflexivity | ].
  destruct Hend as (Hsp & _); [vm_compute; reflexivity | vm_compute; reflexivity |].
  split; [vm_compute; reflexivity | exact Hsp].
Defined.

Lemma advisor_stopPlayback_idempotent_witness :
  exists s n,
    FA.run (U := Fixture.utils) FA.init
      [FA.Loaded Fixture.plan; FA.Click; FA.SynthesisSettled 0 (Fixture.ok "QQ");
       FA.DecodeSettled 0] = Some s
    /\ FA.nodes s !! 0 = Some n
    /\ FA.nodes (FA.stopPlayback s) !! 0 = Some (stop n)
    /\ FA.stopPlayback (FA.stopPlayback s) = FA.stopPlayback s.
Proof.
  eexists. eexists. split; [vm_compute; reflexivity|]. split; [vm_compute; reflexivity|].
  match goal with
  | |- FA.nodes (FA.stopPlayback ?s) !! 0 = Some (stop ?n) /\ _ =>
      destruct (advisor_stopPlayback_idempotent (U := Fixture.utils) s)
        as (Hidem & _ & _ & _ & Hnode);
      destruct (Hnode 0 n) as (Hn & _); [vm_compute; reflexivity | vm_compute; reflexivity |]
  end.
  split; [exact Hn | exact Hidem].
Defined.

Lemma fenced_json_is_parsed_bare_witness :
  let fenced := " " ++ "```json" ++ Samples.newline ++ "{}" ++ Samples.newline ++ "```" ++ "" in
  Grounded.getFinancialAdvice (J := Samples.json) (Grounded.resolved (Samples.grounded fenced))
    = inl ("{}", [Samples.source (Some "https://example.org") None])
  /\ Grounded.getInvestmentPrediction (J := Samples.json)
       (Grounded.resolved (Samples.grounded fenced))
     = inl ("{}", [Samples.source (Some "https://example.org") None]).
Proof.
  intros fenced.
  apply (fenced_json_is_parsed_bare (J := Samples.json) (Samples.grounded fenced)
           " " Samples.newline "{}" Samples.newline "");
    [ reflexivity | reflexivity | reflexivity | reflexivity | discriminate
    | reflexivity | reflexivity ].
Defined.

Lemma plain_json_is_parsed_trimmed_witness :
  Grounded.getFinancialAdvice (J := Samples.json) (Grounded.resolved (Samples.grounded " {} "))
    = inl ("{}", [Samples.source (Some "https://example.org") None])
  /\ Grounded.getInvestmentPrediction (J := Samples.json)
       (Grounded.resolved (Samples.grounded " {} "))
     = inl ("{}", [Samples.source (Some "https://example.org") None]).
Proof.
  apply (plain_json_is_parsed_trimmed (J := Samples.json) (Samples.grounded " {} ") " {} ");
    reflexivity.
Defined.

Lemma blank_fence_is_parsed_whole_witness :
  Grounded.getFinancialAdvice (J := Samples.json)
    (Grounded.resolved (Samples.grounded ("" ++ "```json" ++ " " ++ "```" ++ " ")))
    = inr {| message := "Failed to fetch financial advice from the AI." |}
  /\ Grounded.getInvestmentPrediction (J := Samples.json)
       (Grounded.resolved (Samples.grounded ("" ++ "```json" ++ " " ++ "```" ++ " ")))
     = inr {| message := "Failed to fetch investment prediction from the AI." |}.
Proof.
  apply (blank_fence_is_parsed_whole (J := Samples.json)
           (Samples.grounded ("" ++ "```json" ++ " " ++ "```" ++ " ")) "" " " " ");
    reflexivity.
Defined.

Lemma source_links_are_usable_witness :
  let links :=
    [ {| SourceList.href := "https://a.example"; SourceList.label := "A" |};
      {| SourceList.href := "https://c.example"; SourceList.label := "https://c.example" |} ] in
  SourceList.source_list Samples.sources = Some links
  /\ Forall (fun l => SourceList.href l <> "" /\ SourceList.label l <> "") links.
Proof.
  intros links. split; [reflexivity|].
  destruct (source_links_are_usable Samples.sources links) as (_ & _ & _ & Hall);
    [reflexivity|].
  eapply Forall_impl; [exact Hall|]. intros l (Hh & Hl & _). split; assumption.
Defined.

Lemma one_request_in_flight_witness :
  exists s,
    ChatBot.run ChatBot.init [ChatBot.Change "hi"; ChatBot.Send true] = Some s
    /\ length (ChatBot.awaiting s) = if ChatBot.isLoading s then 1 else 0.
Proof.
  eexists. split; [vm_compute; reflexivity|].
  apply (one_request_in_flight [ChatBot.Change "hi"; ChatBot.Send true]).
  vm_compute; reflexivity.
Defined.

Lemma transcript_alternates_witness :
  exists s exchanges tail,
    ChatBot.run ChatBot.init Samples.conversation = Some s
    /\ ChatBot.messages s
       = (ChatBot.greeting :: flat_map ChatBot.turn exchanges ++ tail)%list
    /\ Forall (fun qa => JS.trim (fst qa) <> "") exchanges.
Proof.
  edestruct (transcript_alternates Samples.conversation) as (ex & tl & Hm & Hex & _);
    [vm_compute; reflexivity|].
  eexists. exists ex, tl. split; [vm_compute; reflexivity|]. split; [exact Hm | exact Hex].
Defined.

Lemma one_chat_session_for_all_messages_witness :
  exists s,
    ChatBot.run ChatBot.init Samples.conversation = Some s
    /\ ChatService.chats_created (ChatBot.service s) <= 1
    /\ map snd (ChatService.sendMessage_calls (ChatBot.service s)) = ["hi"; "more"].
Proof.
  eexists. split; [vm_compute; reflexivity|].
  edestruct (one_chat_session_for_all_messages Samples.conversation) as (Hc & _ & _);
    [vm_compute; reflexivity|].
  split; [exact Hc | vm_compute; reflexivity].
Defined.

Lemma transcript_only_grows_witness :
  exists s,
    ChatBot.run ChatBot.init Samples.conversation = Some s
    /\ ChatBot.messages ChatBot.init `prefix_of` ChatBot.messages s.
Proof.
  eexists. split; [vm_compute; reflexivity|].
  apply (transcript_only_grows Samples.conversation). vm_compute; reflexivity.
Defined.

Lemma reply_follows_question_witness :
  exists s1 s2,
    ChatBot.run (ChatBot.handleSend true (ChatBot.setInput "hi" ChatBot.init))
      [ChatBot.Change "more"; ChatBot.Send true; ChatBot.CloseWindow] = Some s1
    /\ ChatBot.step s1 (ChatBot.Replied 0 (ChatService.send_resolved "hello")) = Some s2
    /\ ChatBot.messages s2
       = [ChatBot.greeting; {| ChatBot.sender := ChatBot.user; ChatBot.text := "hi" |};
          {| ChatBot.sender := ChatBot.bot; ChatBot.text := "hello" |}]
    /\ ChatBot.isLoading s2 = false.
Proof.
  eexists. eexists. split; [vm_compute; reflexivity|]. split; [vm_compute; reflexivity|].
  edestruct (reply_follows_question true (ChatBot.setInput "hi" ChatBot.init)
               [ChatBot.Change "more"; ChatBot.Send true; ChatBot.CloseWindow]
               (ChatBot.Replied 0 (ChatService.send_resolved "hello")))
    as (_ & _ & _ & Hm & Hl & _);
    [ reflexivity | reflexivity | vm_compute; discriminate | reflexivity
    | vm_compute; reflexivity | reflexivity | vm_compute; reflexivity | ].
  split; [exact Hm | exact Hl].
Defined.

Lemma blank_portfolio_is_never_sent_witness :
  (exists f,
      PredictorForm.run (U := Fixture.utils) PredictorForm.init
        [PredictorForm.SetPortfolio " "; PredictorForm.SubmitForm;
         PredictorForm.SetPortfolio "AAPL"; PredictorForm.SubmitForm] = Some f
      /\ Forall (fun request => JS.trim (fst request) <> "") (PredictorForm.requests f))
  /\ IP.error (PredictorForm.speech
                 (PredictorForm.handleSubmit (PredictorForm.init (U := Fixture.utils))))
     = Some "Portfolio cannot be empty.".
Proof.
  destruct (blank_portfolio_is_never_sent (U := Fixture.utils)) as [Hrun Hblank]. split.
  - eexists. split; [vm_compute; reflexivity|].
    apply (Hrun [PredictorForm.SetPortfolio " "; PredictorForm.SubmitForm;
                 PredictorForm.SetPortfolio "AAPL"; PredictorForm.SubmitForm]).
    vm_compute; reflexivity.
  - apply (Hblank PredictorForm.init). reflexivity.
Defined.

Lemma nothing_to_read_while_loading_witness :
  exists f,
    PredictorForm.run (U := Fixture.utils) PredictorForm.init
      [PredictorForm.SetPortfolio "AAPL"; PredictorForm.SubmitForm] = Some f
    /\ length (PredictorForm.awaiting f) = 1
    /\ IP.prediction (PredictorForm.speech f) = None.
Proof.
  eexists. split; [vm_compute; reflexivity|].
  edestruct (nothing_to_read_while_loading (U := Fixture.utils)
               [PredictorForm.SetPortfolio "AAPL"; PredictorForm.SubmitForm])
    as (Ha & Hl); [vm_compute; reflexivity|].
  split; [exact Ha|]. apply Hl. reflexivity.
Defined.

Lemma submission_settles_witness :
  exists f1 f2,
    PredictorForm.run (U := Fixture.utils)
      (PredictorForm.handleSubmit (PredictorForm.setPortfolio "AAPL" PredictorForm.init))
      [PredictorForm.Speech IP.Click; PredictorForm.SetPortfolio "MSFT"] = Some f1
    /\ PredictorForm.step f1
         (PredictorForm.PredictionSettled 0 (inl (Fixture.portfolio, Samples.sources)))
       = Some f2
    /\ PredictorForm.requests f1 = [("AAPL", "English")]
    /\ PredictorForm.isLoading f2 = false
    /\ IP.prediction (PredictorForm.speech f2) = Some Fixture.portfolio
    /\ PredictorForm.sources f2 = Samples.sources.
Proof.
  eexists. eexists. split; [vm_compute; reflexivity|]. split; [vm_compute; reflexivity|].
  edestruct (submission_settles (U := Fixture.utils)
               (PredictorForm.setPortfolio "AAPL" PredictorForm.init)
               [PredictorForm.Speech IP.Click; PredictorForm.SetPortfolio "MSFT"]
               0 (inl (Fixture.portfolio, Samples.sources)))
    as (Hr & _ & _ & Hl & _ & _ & Hp & Hs & _);
    [ reflexivity | reflexivity | vm_compute; discriminate | reflexivity
    | vm_compute; reflexivity | vm_compute; reflexivity | ].
  split; [exact Hr|]. split; [exact Hl|]. split; [exact Hp | exact Hs].
Defined.
